(** * shortVideoMaker: the video assembly pipeline of [app/services/video.py]

    A shallow embedding of the clip splitting loop, the random-mode ordering,
    the audio/video duration reconciliation, subtitle wrapping, background
    music selection, material preprocessing and clip release, followed by the
    properties established about them.

    Conventions.
    - Durations and pixel budgets are Python floats in the source; a float
      is represented by the rational [Q] it denotes, compared up to [==].
      Sums, differences and comparisons of durations are taken exactly; the
      two places where the source truncates a float quotient or product
      with [int] (the repeat count and the letterbox size) round as
      binary64 does, see [float_round].
    - [random.choice] is deterministic in a draw: the caller supplies the
      numbers the generator would return, [random.choice l] with draw [r]
      being the element of [l] at index [r mod len l].
    - A call that can raise returns a sum or an option; [try/except] blocks
      are the places where that result is inspected. *)

From stdpp Require Import gmap strings list pretty.
From Stdlib Require Import QArith Qround Qabs Qpower Lqa Lia.

Local Open Scope Q_scope.

(** ** Python arithmetic *)

(** [int(x)]: truncation toward zero. *)
Definition py_int (x : Q) : Z :=
  if Qlt_le_dec x 0 then Qceiling x else Qfloor x.

(** [min(a, b)]: the first argument unless the second is strictly smaller. *)
Definition py_min (a b : Q) : Q :=
  if Qlt_le_dec b a then b else a.

(** [a / b] where only whether it raises matters: ZeroDivisionError when
    [b] is zero. *)
Definition py_div (a b : Q) : option Q :=
  if Qeq_dec b 0 then None else Some (a / b).

(** ** Binary64 rounding *)

(** The integer nearest to [x], the even one of the two on a tie. *)
Definition round_half_even (x : Q) : Z :=
  let f := Qfloor x in
  match Qcompare (x - inject_Z f) (1 # 2) with
  | Lt => f
  | Gt => (f + 1)%Z
  | Eq => if Z.even f then f else (f + 1)%Z
  end.

(** [floor(log2 a)] for [a > 0]. *)
Definition ilog2 (a : Q) : Z :=
  if Qle_bool 1 a then Z.log2 (Qfloor a) else (- Z.log2_up (Qceiling (/ a)))%Z.

(** The exponent of the unit in the last place of a float of magnitude [a]:
    53 significant bits, and subnormal numbers below [2 ^ -1022]. *)
Definition ulp_exp (a : Q) : Z := Z.max (ilog2 a - 52) (-1074).

(** The float nearest to [q], ties to even: what an IEEE 754 binary64
    operation returns when [q] is its exact result. [None] is an infinity
    (the magnitude rounds to [2 ^ 1024] or more). *)
Definition float_round (q : Q) : option Q :=
  if Qeq_bool q 0 then Some 0
  else
    let a := Qabs q in
    let e := ulp_exp a in
    let r := inject_Z (round_half_even (a / 2 ^ e)) * 2 ^ e in
    if Qle_bool (2 ^ 1024) r then None
    else Some (if Qle_bool 0 q then r else - r).

(** [a / b] on floats, and on two ints (Python's true division of ints is
    correctly rounded as well). [None] is ZeroDivisionError, or an infinite
    quotient: between ints that is OverflowError at once, between floats
    the [int(...)] the quotient is passed to raises it. *)
Definition float_div (a b : Q) : option Q :=
  if Qeq_bool b 0 then None else float_round (a / b).

(** [a * b] on floats; [None] is an infinite product, on which the
    enclosing [int(...)] raises OverflowError. *)
Definition float_mul (a b : Q) : option Q := float_round (a * b).

(** [float(z)], the conversion an int undergoes when it meets a float in an
    arithmetic operation; [None] is OverflowError. *)
Definition float_of_int (z : Z) : option Q := float_round (inject_Z z).

(** [sum] of a list of durations. *)
Definition total (l : list Q) : Q := foldr Qplus 0 l.

(** ** Audio/video reconciliation (combine_videos, "添加音频" block) *)

(** [concatenate_videoclips(clips)]: the result lasts as long as its parts
    together. *)
Definition concatenate_videoclips (clips : list Q) : Q := total clips.

(** [clip.subclip(t0, t1)] has duration [t1 - t0]. *)
Definition subclip (clip t0 t1 : Q) : Q := t1 - t0.

(** [repeat_times = int(audio_duration / video_duration) + 1], on the float
    quotient. [None]: the division or [int] raises. *)
Definition repeat_times (audio_duration video_duration : Q) : option Z :=
  q ← float_div audio_duration video_duration; Some (py_int q + 1)%Z.

(** [[video_clip] * repeat_times]: a non-positive count gives the empty list. *)
Definition py_list_mul (x : Q) (n : Z) : list Q := replicate (Z.to_nat n) x.

(** Step 1, the video-duration fix: the accumulated [video_duration] decides,
    the loaded [video_clip] is what gets repeated. *)
Definition fix_video_duration (video_duration audio_duration video_clip : Q)
  : option Q :=
  if Qlt_le_dec video_duration audio_duration then
    n ← repeat_times audio_duration video_duration;
    Some (concatenate_videoclips (py_list_mul video_clip n))
  else Some video_clip.

(** Step 2: [if video_clip.duration > audio_duration: subclip(0, audio_duration)]. *)
Definition truncate_video (audio_duration video_clip : Q) : Q :=
  if Qlt_le_dec audio_duration video_clip
  then subclip video_clip 0 audio_duration else video_clip.

(** Step 3: [if audio_clip.duration > video_clip.duration: subclip(0, video_clip.duration)]. *)
Definition truncate_audio (video_clip audio_clip : Q) : Q :=
  if Qlt_le_dec video_clip audio_clip
  then subclip audio_clip 0 video_clip else audio_clip.

(** The whole stage; the pair is (final video duration, final audio duration).
    [None] is an exception, which the enclosing [try] logs. *)
Definition reconcile (video_duration video_clip audio_clip : Q) : option (Q * Q) :=
  let audio_duration := audio_clip in
  v1 ← fix_video_duration video_duration audio_duration video_clip;
  let v2 := truncate_video audio_duration v1 in
  let a3 := truncate_audio v2 audio_clip in
  Some (v2, a3).

(** ** The splitting loop (combine_videos, "处理视频片段" block) *)

(** One emitted sub-clip: [clip.subclip(start_time, end_time)]. *)
Record segment := Segment { seg_start : Q; seg_end : Q }.

Definition seg_duration (s : segment) : Q := seg_end s - seg_start s.

(** How a loop body left the loop: normally, or through an exception. *)
Inductive loop_end := Finished | Raised.

(** [while start_time < clip_duration: ...; start_time = end_time;
    if sequential: break].  [encode_ok seg] tells whether the body's codec
    calls for that sub-clip (subclip, resize, composite, write_videofile) go
    through; if not, the exception leaves the loop before the sub-clip is
    appended.  [fuel] bounds the number of iterations; [None] means the
    bound was reached with the loop still running. *)
Fixpoint split_loop (fuel : nat) (sequential : bool) (encode_ok : segment → bool)
    (max_clip_duration clip_duration start_time : Q)
  : option (list segment * loop_end) :=
  if Qlt_le_dec start_time clip_duration then
    match fuel with
    | O => None
    | S fuel' =>
        let end_time := py_min (start_time + max_clip_duration) clip_duration in
        let seg := Segment start_time end_time in
        if encode_ok seg then
          if sequential then Some ([seg], Finished)
          else
            '(rest, e) ← split_loop fuel' sequential encode_ok
                           max_clip_duration clip_duration end_time;
            Some (seg :: rest, e)
        else Some ([], Raised)
    end
  else Some ([], Finished).

(** Every codec call succeeds. *)
Definition all_ok : segment → bool := λ _, true.

(** [D mod m] on rationals, for [m > 0]. *)
Definition Qmod (D m : Q) : Q := D - inject_Z (Qfloor (D / m)) * m.

(** ** Random-mode ordering (combine_videos, "随机打乱" block) *)

Inductive VideoConcatMode := random | sequential.

(** [video_concat_mode.value == VideoConcatMode.sequential.value]. *)
Definition is_sequential (video_concat_mode : VideoConcatMode) : bool :=
  match video_concat_mode with sequential => true | random => false end.

(** [random.choice(seq)] under draw [r]; [None] is the IndexError raised on
    an empty sequence. *)
Definition random_choice {A} (r : nat) (seq : list A) : option A :=
  seq !! (r mod length seq)%nat.

(** [lst.remove(x)]: drops the first occurrence of [x]. *)
Fixpoint py_remove (x : string) (lst : list string) : list string :=
  match lst with
  | [] => []
  | y :: rest => if decide (x = y) then rest else y :: py_remove x rest
  end.

Record shuffle_state := ShuffleState {
  shuffled_paths : list string;
  available_paths : list string
}.

(** [len(available_paths) == 1 and available_paths[0] == shuffled_paths[0]]. *)
Definition swap_guard (st : shuffle_state) : option bool :=
  match available_paths st with
  | [a] => s0 ← shuffled_paths st !! 0%nat; Some (bool_decide (a = s0))
  | _ => Some false
  end.

(** [shuffled_paths[-1], available_paths[0] = available_paths[0], shuffled_paths[-1]]
    when the guard holds. *)
Definition swap_last (st : shuffle_state) : option shuffle_state :=
  fires ← swap_guard st;
  if (fires : bool) then
    a ← available_paths st !! 0%nat;
    t ← last (shuffled_paths st);
    Some (ShuffleState
            (<[pred (length (shuffled_paths st)) := a]> (shuffled_paths st))
            (<[0%nat := t]> (available_paths st)))
  else Some st.

(** [[p for p in available_paths if p != shuffled_paths[-1]]]. *)
Definition differing (st : shuffle_state) : option (list string) :=
  t ← last (shuffled_paths st);
  Some (filter (λ p, p ≠ t) (available_paths st)).

(** The exhaustion fallback is taken: after the swap check, no remaining
    path differs from the last placed one ([if not candidates]). *)
Definition exhausted (st : shuffle_state) : bool :=
  match swap_last st ≫= differing with
  | Some [] => true
  | _ => false
  end.

(** One iteration of [while available_paths:] under draw [r]. *)
Definition shuffle_step (r : nat) (st : shuffle_state) : option shuffle_state :=
  st1 ← swap_last st;
  candidates ← differing st1;
  let candidates :=
    match candidates with [] => available_paths st1 | _ => candidates end in
  next_clip ← random_choice r candidates;
  Some (ShuffleState (shuffled_paths st1 ++ [next_clip])
                     (py_remove next_clip (available_paths st1))).

(** The state after [n] iterations, the [i]-th of which uses draw
    [rand (k + i)]. *)
Fixpoint shuffle_iter (n : nat) (rand : nat → nat) (k : nat) (st : shuffle_state)
  : option shuffle_state :=
  match n with
  | O => Some st
  | S n' => st' ← shuffle_step (rand k) st; shuffle_iter n' rand (S k) st'
  end.

(** [while available_paths: ...]; [None] is an exception in the body or the
    iteration bound [fuel] reached with paths still available. *)
Fixpoint shuffle_loop (fuel : nat) (rand : nat → nat) (k : nat) (st : shuffle_state)
  : option shuffle_state :=
  match available_paths st with
  | [] => Some st
  | _ :: _ =>
      match fuel with
      | O => None
      | S fuel' => st' ← shuffle_step (rand k) st; shuffle_loop fuel' rand (S k) st'
      end
  end.

(** The state the loop starts from: the first clip is drawn with [rand 0]. *)
Definition shuffle_init (rand : nat → nat) (processed_clip_paths : list string)
  : option shuffle_state :=
  first_clip ← random_choice (rand 0%nat) processed_clip_paths;
  Some (ShuffleState [first_clip] (py_remove first_clip processed_clip_paths)).

(** The [len(processed_clip_paths) > 1] branch. *)
Definition shuffle_paths (fuel : nat) (rand : nat → nat)
    (processed_clip_paths : list string) : option (list string) :=
  st0 ← shuffle_init rand processed_clip_paths;
  st ← shuffle_loop fuel rand 1 st0;
  Some (shuffled_paths st).

(** The state in which output position [j + 1] is placed. *)
Definition placing_state (rand : nat → nat) (processed_clip_paths : list string)
    (j : nat) : option shuffle_state :=
  st0 ← shuffle_init rand processed_clip_paths;
  shuffle_iter j rand 1 st0.

(** The ordering block as a whole. [random.shuffle] leaves a list of at most
    one element as it is. *)
Definition order_clips (video_concat_mode : VideoConcatMode) (fuel : nat)
    (rand : nat → nat) (processed_clip_paths : list string) : option (list string) :=
  match video_concat_mode with
  | random =>
      if decide (1 < length processed_clip_paths)%nat
      then shuffle_paths fuel rand processed_clip_paths
      else Some processed_clip_paths
  | sequential => Some processed_clip_paths
  end.

(** ** Python string operations used by wrap_text *)

(** In this part a [string] stands for a Python [str] all of whose
    characters are one-byte ones (code points below 128): one [ascii] is
    one character, as [list(text)] and [str.strip()] see it. Texts with
    other characters are outside this part of the model. *)

(** Whitespace as [str.strip()] sees it, on one-byte characters: tab to
    carriage return, the four separators 28 to 31, and the space. *)
Definition is_space (c : Ascii.ascii) : bool :=
  let n := Ascii.nat_of_ascii c in
  ((9 <=? n) && (n <=? 13) || (28 <=? n) && (n <=? 32))%nat.

Fixpoint lstrip (s : string) : string :=
  match s with
  | String c s' => if is_space c then lstrip s' else s
  | EmptyString => EmptyString
  end.

Fixpoint rstrip (s : string) : string :=
  match s with
  | String c s' =>
      match rstrip s' with
      | EmptyString => if is_space c then EmptyString else String c EmptyString
      | r => String c r
      end
  | EmptyString => EmptyString
  end.

(** [s.strip()]. *)
Definition strip (s : string) : string := rstrip (lstrip s).

(** [s.split(" ")]: cuts at every single space, keeping empty pieces. *)
Fixpoint split_space (s : string) : list string :=
  match s with
  | EmptyString => [EmptyString]
  | String c s' =>
      if Ascii.eqb c (Ascii.ascii_of_nat 32) then EmptyString :: split_space s'
      else match split_space s' with
           | w :: ws => String c w :: ws
           | [] => [String c EmptyString]
           end
  end.

(** [list(s)]: the characters, each as a one-character string. *)
Fixpoint chars_of (s : string) : list string :=
  match s with
  | EmptyString => []
  | String c s' => String c EmptyString :: chars_of s'
  end.

(** ["\n".join(lines)]. *)
Definition join_lines (lines : list string) : string :=
  String.concat (String (Ascii.ascii_of_nat 10) EmptyString) lines.

(** ** Subtitle wrapping (wrap_text) *)

Section WrapText.
(** [font.getbbox] of the font [ImageFont.truetype(font, fontsize)] returned:
    the box (left, top, right, bottom) of a text. *)
Variable getbbox : string → Z * Z * Z * Z.

Definition get_text_size (inner_text : string) : Z * Z :=
  let inner_text := strip inner_text in
  let '(x0, y0, x1, y1) := getbbox inner_text in
  (x1 - x0, y1 - y0)%Z.

Definition text_width (s : string) : Z := fst (get_text_size s).

(** [_width <= max_width], an int against a float. *)
Definition fits (s : string) (max_width : Q) : bool :=
  Qle_bool (inject_Z (text_width s)) max_width.

(** The word-level [for word in words] loop from [_txt_] and
    [_wrapped_lines_]; the result is ([processed], [_txt_],
    [_wrapped_lines_]) when the loop is left. *)
Fixpoint word_pass (max_width : Q) (words : list string) (_txt_ : string)
    (_wrapped_lines_ : list string) : bool * string * list string :=
  match words with
  | [] => (true, _txt_, _wrapped_lines_)
  | word :: words' =>
      let _before := _txt_ in
      let _txt_ := _txt_ +:+ word +:+ " " in
      if fits _txt_ max_width then word_pass max_width words' _txt_ _wrapped_lines_
      else if String.eqb (strip _txt_) (strip word)
           then (false, _txt_, _wrapped_lines_)
           else word_pass max_width words' (word +:+ " ") (_wrapped_lines_ ++ [_before])
  end.

(** The character-level [for word in chars] loop; the result is ([_txt_],
    [_wrapped_lines_]) at its end. *)
Fixpoint char_pass (max_width : Q) (chars : list string) (_txt_ : string)
    (_wrapped_lines_ : list string) : string * list string :=
  match chars with
  | [] => (_txt_, _wrapped_lines_)
  | word :: chars' =>
      let _txt_ := _txt_ +:+ word in
      if fits _txt_ max_width then char_pass max_width chars' _txt_ _wrapped_lines_
      else char_pass max_width chars' "" (_wrapped_lines_ ++ [_txt_])
  end.

(** The lines of the character-level pass, before joining. *)
Definition char_lines (text : string) (max_width : Q) : list string :=
  let '(_txt_, _wrapped_lines_) := char_pass max_width (chars_of text) "" [] in
  _wrapped_lines_ ++ [_txt_].

Definition wrap_text (text : string) (max_width : Q) : string * Z :=
  let '(width, height) := get_text_size text in
  if Qle_bool (inject_Z width) max_width then (text, height)
  else
    let '(processed, _txt_, _wrapped_lines_) :=
      word_pass max_width (split_space text) "" [] in
    let _wrapped_lines_ := _wrapped_lines_ ++ [_txt_] in
    if processed then
      let _wrapped_lines_ := strip <$> _wrapped_lines_ in
      (strip (join_lines _wrapped_lines_),
       (Z.of_nat (length _wrapped_lines_) * height)%Z)
    else
      let _wrapped_lines_ := char_lines text max_width in
      (strip (join_lines _wrapped_lines_),
       (Z.of_nat (length _wrapped_lines_) * height)%Z).

(** [max_width = video_width * 0.9] and the call in [create_text_clip]. *)
Definition subtitle_max_width (video_width : Z) : Q := inject_Z video_width * (9 # 10).

Definition create_text_clip_wrap (video_width : Z) (phrase : string) : string * Z :=
  wrap_text phrase (subtitle_max_width video_width).
End WrapText.

(** A fixed-pitch font for examples: every character of the stripped text is
    10 pixels wide, a line is 20 pixels high. *)
Definition fixed_pitch_bbox (s : string) : Z * Z * Z * Z :=
  (0, 0, 10 * Z.of_nat (String.length s), 20)%Z.

(** ** Background music (get_bgm_file) *)

Section Bgm.
(** [os.path.exists]. *)
Variable path_exists : string → bool.
(** [glob.glob(os.path.join(utils.song_dir(), "*.mp3"))]. *)
Variable song_files : list string.

(** [None] is the IndexError of [random.choice] on an empty song list. *)
Definition get_bgm_file (r : nat) (bgm_type bgm_file : string) : option string :=
  if String.eqb bgm_type "" then Some ""
  else if negb (String.eqb bgm_file "") && path_exists bgm_file then Some bgm_file
  else if String.eqb bgm_type "random" then random_choice r song_files
  else Some "".
End Bgm.

(** ** Logging and results *)

(** A call to [logger.warning] or [logger.error]; info, debug and success
    messages are left out. *)
Inductive log_entry :=
  | LogWarning (msg : string)
  | LogError (msg : string).

(** How a call ends: it returns a value or an exception leaves it. *)
Inductive result (A : Type) :=
  | Returned (a : A)
  | Raises (exn : string).
Arguments Returned {A} a.
Arguments Raises {A} exn.

(** ** Material preprocessing (preprocess_video) *)

(** Of a material, only its [url] is read and written here. *)
Record MaterialInfo := Material { url : string }.

Section Preprocess.
(** [VideoFileClip(url).size] and [ImageClip(url).size]; [None] when the
    constructor raises. *)
Variable VideoFileClip_size : string → option (Z * Z).
Variable ImageClip_size : string → option (Z * Z).
(** [utils.parse_extension(url) in const.FILE_TYPE_IMAGES]. *)
Variable is_image : string → bool.
(** [final_clip.write_videofile(video_file, ...)] goes through. *)
Variable write_videofile_ok : string → bool.

(** The loop body for one material: the material as the loop leaves it
    (its [url] may have been reassigned) and what was logged, or the
    exception that leaves the function. *)
Definition preprocess_material (material : MaterialInfo)
  : result MaterialInfo * list log_entry :=
  if String.eqb (url material) "" then (Returned material, [])
  else
    let clip :=
      match VideoFileClip_size (url material) with
      | Some size => Some size
      | None => ImageClip_size (url material)
      end in
    match clip with
    | None => (Raises "ImageClip", [])
    | Some (width, height) =>
        if ((width <? 480) || (height <? 480))%Z then
          (Returned material,
           [LogWarning "low resolution material, minimum 480x480 required"])
        else if is_image (url material) then
          let video_file := url material +:+ ".mp4" in
          if write_videofile_ok video_file
          then (Returned (Material video_file), [])
          else (Raises "write_videofile", [])
        else (Returned material, [])
    end.

(** [for material in materials: ...; return materials]. *)
Fixpoint preprocess_video (materials : list MaterialInfo)
  : result (list MaterialInfo) * list log_entry :=
  match materials with
  | [] => (Returned [], [])
  | material :: rest =>
      match preprocess_material material with
      | (Raises e, l) => (Raises e, l)
      | (Returned material', l) =>
          match preprocess_video rest with
          | (Returned rest', l') => (Returned (material' :: rest'), l ++ l')
          | (Raises e, l') => (Raises e, l ++ l')
          end
      end
  end.
End Preprocess.

(** ** The job as a whole (combine_videos) *)

(** What the function has accumulated: the list of sub-clip files, the sum
    of their durations, the temporary files written so far with their
    durations, and the log. *)
Record job := Job {
  processed_clip_paths : list string;
  video_duration : Q;
  temp_files : gmap string Q;
  job_log : list log_entry
}.

Definition log_to (entry : log_entry) (st : job) : job :=
  Job (processed_clip_paths st) (video_duration st) (temp_files st)
      (job_log st ++ [entry]).

Section CombineVideos.
(** [VideoFileClip(video_path)] on a source: its duration and size, or
    [None] when it raises. *)
Variable VideoFileClip : string → option (Q * (Z * Z)).
(** [os.path.join(temp_dir, f"clip_{i}_{start_time}.mp4")]. *)
Variable temp_clip_path : nat → Q → string.
(** The codec calls for one sub-clip of source [i] go through. *)
Variable clip_encode_ok : nat → segment → bool.
(** The batch that starts at index [i] is concatenated and written. *)
Variable merge_ok : nat → bool.
(** The final [write_videofile] with the audio goes through. *)
Variable final_encode_ok : bool.

(** [processed_clip_paths.append(temp_clip_path);
    video_duration += composite_clip.duration] for one sub-clip. *)
Definition record_clip (i : nat) (st : job) (seg : segment) : job :=
  Job (processed_clip_paths st ++ [temp_clip_path i (seg_start seg)])
      (video_duration st + seg_duration seg)
      (<[temp_clip_path i (seg_start seg) := seg_duration seg]> (temp_files st))
      (job_log st).

(** The body of [for i, video_path in enumerate(video_paths)], with its
    [try]/[except ... continue]: an exception is logged and the job goes on
    with what was appended before it. [None]: the inner loop did not end
    within [fuel] iterations. *)
Definition process_video (fuel : nat) (video_concat_mode : VideoConcatMode)
    (max_clip_duration : Q) (i : nat) (video_path : string) (st : job) : option job :=
  let failed := LogError ("failed to process video file: " +:+ video_path) in
  match VideoFileClip video_path with
  | None => Some (log_to failed st)
  | Some (clip_duration, (clip_w, clip_h)) =>
      if (clip_h =? 0)%Z then Some (log_to failed st)
      else
        '(segs, e) ← split_loop fuel
                       (is_sequential video_concat_mode)
                       (clip_encode_ok i) max_clip_duration clip_duration 0;
        let st' := foldl (record_clip i) st segs in
        Some (match e with Finished => st' | Raised => log_to failed st' end)
  end.

Fixpoint process_videos (fuel : nat) (video_concat_mode : VideoConcatMode)
    (max_clip_duration : Q) (i : nat) (video_paths : list string) (st : job)
  : option job :=
  match video_paths with
  | [] => Some st
  | video_path :: rest =>
      st' ← process_video fuel video_concat_mode max_clip_duration i video_path st;
      process_videos fuel video_concat_mode max_clip_duration (S i) rest st'
  end.

(** The durations of the clips of one batch, each loaded from its file;
    [None] when a file is missing. *)
Definition load_batch (files : gmap string Q) (batch : list string) : option (list Q) :=
  mapM (λ p, files !! p) batch.

(** One batch: [concatenate_videoclips([base_clip] + batch_clips)] replaces
    the merged file; a failure is logged and the merged file stays. *)
Definition merge_batch (files : gmap string Q) (i : nat) (batch : list string)
    (merged : Q) (log : list log_entry) : Q * list log_entry :=
  match (if merge_ok i then load_batch files batch else None) with
  | Some batch_clips => (concatenate_videoclips (merged :: batch_clips), log)
  | None => (merged, log ++ [LogError "failed to merge video clips"])
  end.

(** [for i in range(1, len(processed_clip_paths), batch_size)] with
    [batch_size = 2]; [rest] is [processed_clip_paths[i:]]. *)
Fixpoint merge_batches (files : gmap string Q) (i : nat) (rest : list string)
    (merged : Q) (log : list log_entry) : Q * list log_entry :=
  match rest with
  | [] => (merged, log)
  | [p1] => merge_batch files i [p1] merged log
  | p1 :: p2 :: rest' =>
      let '(merged', log') := merge_batch files i [p1; p2] merged log in
      merge_batches files (i + 2) rest' merged' log'
  end.

(** [if video_duration < audio_duration: logger.warning(...)], the first
    statement of the video-duration fix. *)
Definition shorter_warning (video_duration audio_duration : Q) : list log_entry :=
  if Qlt_le_dec video_duration audio_duration
  then [LogWarning "video shorter than audio, looping the video"]
  else [].

(** The function: how it ends, what it logged, and the duration of the
    file at [combined_video_path] when it ends ([None]: no such file).
    [audio_duration] is [AudioFileClip(audio_file).duration]. The outer
    [None] means that a splitting loop did not end. Transitions leave
    durations as they are and are left out. *)
Definition combine_videos (combined_video_path : string) (video_paths : list string)
    (audio_duration : Q) (video_concat_mode : VideoConcatMode)
    (max_clip_duration : Q) (fuel : nat) (rand : nat → nat)
  : option (result string * list log_entry * option Q) :=
  match py_div audio_duration (inject_Z (Z.of_nat (length video_paths))) with
  | None => Some (Raises "ZeroDivisionError", [], None)
  | Some _ =>
      st ← process_videos fuel video_concat_mode max_clip_duration 0 video_paths
             (Job [] 0 ∅ []);
      match order_clips video_concat_mode (length (processed_clip_paths st)) rand
              (processed_clip_paths st) with
      | None => Some (Raises "IndexError", job_log st, None)
      | Some [] =>
          Some (Returned combined_video_path,
                job_log st ++ [LogWarning "no usable video clips"], None)
      | Some [only] =>
          match temp_files st !! only with
          | None => Some (Raises "FileNotFoundError", job_log st, None)
          | Some d => Some (Returned combined_video_path, job_log st, Some d)
          end
      | Some (first :: rest) =>
          match temp_files st !! first with
          | None => Some (Raises "FileNotFoundError", job_log st, None)
          | Some d =>
              let '(merged, log) := merge_batches (temp_files st) 1 rest d (job_log st) in
              let log := log ++ shorter_warning (video_duration st) audio_duration in
              match reconcile (video_duration st) merged audio_duration with
              | Some (video_clip, _) =>
                  if final_encode_ok
                  then Some (Returned combined_video_path, log, Some video_clip)
                  else Some (Returned combined_video_path,
                             log ++ [LogError "failed to add audio"], Some merged)
              | None =>
                  Some (Returned combined_video_path,
                        log ++ [LogError "failed to add audio"], Some merged)
              end
          end
      end
  end.
End CombineVideos.

(** File names for examples: clip_<i>_<whole seconds of the start>.mp4. *)
Definition example_clip_path (i : nat) (start_time : Q) : string :=
  "clip_" +:+ pretty i +:+ "_" +:+ pretty (Qfloor start_time) +:+ ".mp4".

(** ** Releasing clips (close_clip) *)

(** An attribute of a Python object: missing ([hasattr] is false), [None],
    or a value. *)
Inductive attr (A : Type) :=
  | Absent
  | IsNone
  | Value (a : A).
Arguments Absent {A}.
Arguments IsNone {A}.
Arguments Value {A} a.

(** [clip.audio] or [clip.mask], as far as close_clip looks at it: an object
    that may have a [reader]. Readers are named by numbers, so that two
    clips can hold the same reader. *)
Record sub_clip := SubClip { sub_reader : attr nat }.

(** A clip object; children in [clips] are references to clip objects
    ([Some id]) or [None]. *)
Record clip_obj := ClipObj {
  reader : attr nat;
  audio : attr sub_clip;
  mask : attr sub_clip;
  clips : attr (list (option nat))
}.

(** The objects alive, the readers whose [close()] has run, the readers
    whose [close()] raises, and the error log. *)
Record world := World {
  objects : gmap nat clip_obj;
  closed : gset nat;
  faulty : gset nat;
  errors : list log_entry
}.

(** The object behind a reference; anything else has none of the four
    attributes. *)
Definition obj (w : world) (c : nat) : clip_obj :=
  default (ClipObj Absent Absent Absent Absent) (objects w !! c).

(** Computations that change the world and may raise; what was changed
    before an exception stays changed. *)
Definition M (A : Type) : Type := world → world * result A.

Definition m_ret {A} (a : A) : M A := λ w, (w, Returned a).

Definition m_raise {A} (exn : string) : M A := λ w, (w, Raises exn).

Definition m_bind {A B} (m : M A) (k : A → M B) : M B :=
  λ w, match m w with
       | (w', Returned a) => k a w'
       | (w', Raises exn) => (w', Raises exn)
       end.

Notation "'run' x ← m ; k" := (m_bind m (λ x, k))
  (at level 10, x name, m at level 100, k at level 200).
Notation "m ;; k" := (m_bind m (λ _, k))
  (at level 100, k at level 200, right associativity).

(** [try: body except Exception as e: handler(e)]. *)
Definition try_except (body : M unit) (handler : string → M unit) : M unit :=
  λ w, match body w with
       | (w', Raises exn) => handler exn w'
       | r => r
       end.

Definition get_obj (c : nat) : M clip_obj := λ w, (w, Returned (obj w c)).

Definition set_obj (c : nat) (o : clip_obj) : M unit :=
  λ w, (World (<[c := o]> (objects w)) (closed w) (faulty w) (errors w), Returned ()).

(** [reader.close()]. *)
Definition reader_close (r : nat) : M unit :=
  λ w, if decide (r ∈ faulty w) then (w, Raises "close")
       else (World (objects w) ({[r]} ∪ closed w) (faulty w) (errors w), Returned ()).

Definition logger_error (msg : string) : M unit :=
  λ w, (World (objects w) (closed w) (faulty w) (errors w ++ [LogError msg]), Returned ()).

(** [if hasattr(x, 'reader') and x.reader is not None: x.reader.close()]. *)
Definition close_reader_attr (a : attr nat) : M unit :=
  match a with
  | Value r => reader_close r
  | _ => m_ret ()
  end.

(** [for child_clip in children: if child_clip is not clip: close_clip(child_clip)]. *)
Fixpoint close_children (call : option nat → M unit) (c : nat)
    (children : list (option nat)) : M unit :=
  match children with
  | [] => m_ret ()
  | child_clip :: rest =>
      (if decide (child_clip = Some c) then m_ret () else call child_clip) ;;
      close_children call c rest
  end.

(** [if hasattr(clip, 'reader') and clip.reader is not None: clip.reader.close()]. *)
Definition close_main (c : nat) : M unit :=
  run o ← get_obj c; close_reader_attr (reader o).

(** The audio block: close the audio's reader if it has one, then
    [del clip.audio]. *)
Definition close_audio (c : nat) : M unit :=
  run o ← get_obj c;
  match audio o with
  | Value a =>
      close_reader_attr (sub_reader a) ;;
      set_obj c (ClipObj (reader o) Absent (mask o) (clips o))
  | _ => m_ret ()
  end.

(** The mask block, likewise, then [del clip.mask]. *)
Definition close_mask (c : nat) : M unit :=
  run o ← get_obj c;
  match mask o with
  | Value mk =>
      close_reader_attr (sub_reader mk) ;;
      set_obj c (ClipObj (reader o) (audio o) Absent (clips o))
  | _ => m_ret ()
  end.

(** [if hasattr(clip, 'clips') and clip.clips: for child_clip in clip.clips: ...]. *)
Definition close_child_clips (call : option nat → M unit) (c : nat) : M unit :=
  run o ← get_obj c;
  match clips o with
  | Value (child :: rest) => close_children call c (child :: rest)
  | _ => m_ret ()
  end.

(** [if hasattr(clip, 'clips'): clip.clips = []]. *)
Definition clear_clips (c : nat) : M unit :=
  run o ← get_obj c;
  match clips o with
  | Absent => m_ret ()
  | _ => set_obj c (ClipObj (reader o) (audio o) (mask o) (Value []))
  end.

(** The body of the [try] block for the object [c]; [call] is the recursive
    call. *)
Definition close_clip_body (call : option nat → M unit) (c : nat) : M unit :=
  close_main c ;; close_audio c ;; close_mask c ;;
  close_child_clips call c ;; clear_clips c.

(** [close_clip(clip)]. [depth] is the number of nested calls the
    interpreter still allows below this one; a call beyond it raises
    RecursionError in the caller. *)
Fixpoint close_clip (depth : nat) (clip : option nat) : M unit :=
  match clip with
  | None => m_ret ()
  | Some c =>
      try_except
        (close_clip_body
           (λ child_clip,
              match depth with
              | O => m_raise "RecursionError"
              | S depth' => close_clip depth' child_clip
              end) c)
        (λ e, logger_error ("failed to close clip: " +:+ e))
  end.

(** The readers a clip object holds: its own, its audio's and its mask's. *)
Definition attr_readers (a : attr nat) : list nat :=
  match a with Value r => [r] | _ => [] end.

Definition sub_readers (a : attr sub_clip) : list nat :=
  match a with Value s => attr_readers (sub_reader s) | _ => [] end.

Definition own_readers (o : clip_obj) : list nat :=
  attr_readers (reader o) ++ sub_readers (audio o) ++ sub_readers (mask o).

(** Every reader that object [c] held in [w0] is closed in [w]. *)
Definition released (w0 w : world) (c : nat) : Prop :=
  ∀ r, r ∈ own_readers (obj w0 c) → r ∈ closed w.

(** [w'] comes after [w]: the same readers are faulty, closed readers stay
    closed, and an object only ever loses its audio or mask (once their
    readers are closed) or has its child list replaced. *)
Definition ext (w w' : world) : Prop :=
  faulty w' = faulty w ∧
  closed w ⊆ closed w' ∧
  ∀ x,
    reader (obj w' x) = reader (obj w x) ∧
    (audio (obj w' x) = audio (obj w x) ∨
     (audio (obj w' x) = Absent ∧ ∀ r, r ∈ sub_readers (audio (obj w x)) → r ∈ closed w')) ∧
    (mask (obj w' x) = mask (obj w x) ∨
     (mask (obj w' x) = Absent ∧ ∀ r, r ∈ sub_readers (mask (obj w x)) → r ∈ closed w')) ∧
    (clips (obj w' x) = Absent ↔ clips (obj w x) = Absent).




(** A computation only moves the world forward. *)
Definition forward {A} (m : M A) : Prop := ∀ w w' r, m w = (w', r) → ext w w'.

(** Worlds for examples. In the first, clip 0 holds three readers and lists
    itself, clip 1 and [None] as children, and clip 1 lists clip 0; no reader
    is faulty. In the second, the primary reader 10 of clip 0 is faulty. *)
Definition example_objects : gmap nat clip_obj :=
  <[0%nat := ClipObj (Value 10%nat) (Value (SubClip (Value 11%nat)))
                     (Value (SubClip (Value 12%nat)))
                     (Value [Some 0%nat; Some 1%nat; None])]>
  (<[1%nat := ClipObj (Value 13%nat) IsNone Absent (Value [Some 0%nat])]> ∅).

Definition example_world : world := World example_objects ∅ ∅ [].




(** ** Letterboxing (combine_videos, "计算调整后的尺寸" and "计算居中位置") *)

(** [max(a, b)]: the first argument unless the second is strictly greater. *)
Definition py_max (a b : Q) : Q :=
  if Qlt_le_dec a b then b else a.

(** The size the clip is resized to, ([new_width], [new_height]):
    [if clip_w / clip_h > video_width / video_height:
       new_width = video_width; new_height = int(clip_h * (video_width / clip_w))],
    and the other way round otherwise. The sizes are ints, the quotients,
    the comparison and the product are float ones. [None] is the
    ZeroDivisionError or OverflowError of one of the operations. *)
Definition fit_size (clip_w clip_h video_width video_height : Z) : option (Z * Z) :=
  clip_ratio ← float_div (inject_Z clip_w) (inject_Z clip_h);
  video_ratio ← float_div (inject_Z video_width) (inject_Z video_height);
  if Qlt_le_dec video_ratio clip_ratio then
    scale ← float_div (inject_Z video_width) (inject_Z clip_w);
    side ← float_of_int clip_h;
    product ← float_mul side scale;
    Some (video_width, py_int product)
  else
    scale ← float_div (inject_Z video_height) (inject_Z clip_h);
    side ← float_of_int clip_w;
    product ← float_mul side scale;
    Some (py_int product, video_height).

(** [n] is [E] rounded down, or one less than [E] when [E] is a whole
    number. *)
Definition floor_or_short (E : Q) (n : Z) : Prop :=
  n = Qfloor E ∨ (E == inject_Z (Qfloor E) ∧ n = (Qfloor E - 1)%Z).

(** [x_offset = (video_width - new_width) // 2], and likewise [y_offset]. *)
Definition centre_offsets (video_width video_height new_width new_height : Z) : Z * Z :=
  ((video_width - new_width) / 2, (video_height - new_height) / 2)%Z.

(** The segments follow one another from [start]: each begins where the one
    before it ended. *)
Fixpoint chained (start : Q) (segs : list segment) : Prop :=
  match segs with
  | [] => True
  | seg :: rest => seg_start seg = start ∧ chained (seg_end seg) rest
  end.

(** The durations of the files behind a list of paths, a missing file
    counting for nothing. *)
Definition durations (files : gmap string Q) (paths : list string) : list Q :=
  (λ p, default 0 (files !! p)) <$> paths.

(** Every listed sub-clip has its file. *)
Definition files_present (st : job) : Prop :=
  ∀ p, p ∈ processed_clip_paths st → is_Some (temp_files st !! p).

(** The recorded total matches the files: when the listed paths are pairwise
    distinct, their files' durations add up to [video_duration]. *)
Definition duration_accounted (st : job) : Prop :=
  NoDup (processed_clip_paths st) →
  total (durations (temp_files st) (processed_clip_paths st)) == video_duration st.

(** ** Subtitle placement (generate_video, create_text_clip) *)

(** Where a text clip is put vertically: at a pixel height, or centred. *)
Inductive y_position :=
  | AtY (y : Q)
  | Centered.

(** The second component of [_clip.with_position(("center", ...))], from
    [params.subtitle_position], the canvas height, the height [_clip.h] of
    the rendered text and [params.custom_position]. *)
Definition subtitle_y (subtitle_position : string) (video_height clip_h : Z)
    (custom_position : Q) : y_position :=
  if String.eqb subtitle_position "bottom" then
    AtY (inject_Z video_height * (95 # 100) - inject_Z clip_h)
  else if String.eqb subtitle_position "top" then
    AtY (inject_Z video_height * (5 # 100))
  else if String.eqb subtitle_position "custom" then
    let margin := 10%Z in
    let max_y := inject_Z (video_height - clip_h - margin) in
    let min_y := inject_Z margin in
    let custom_y := inject_Z (video_height - clip_h) * (custom_position / 100) in
    AtY (py_max min_y (py_min custom_y max_y))
  else Centered.

(** ** Removing files (delete_files) *)

(** [files: List[str] | str]. *)
Inductive files_arg :=
  | OneFile (file : string)
  | ManyFiles (files : list string).

(** [os.remove(file)] on a file system given by the set of existing paths;
    paths in [locked] cannot be removed. [None] is the exception (no such
    file, or no permission). *)
Definition os_remove (locked : gset string) (file : string) (fs : gset string)
  : option (gset string) :=
  if decide (file ∈ fs ∧ file ∉ locked) then Some (fs ∖ {[file]}) else None.

(** [try: os.remove(file) except: pass] for each file in turn. *)
Definition delete_files (locked : gset string) (files : files_arg) (fs : gset string)
  : gset string :=
  let files := match files with OneFile file => [file] | ManyFiles files => files end in
  foldl (λ fs file, default fs (os_remove locked file fs)) fs files.

(** The paths a [files] argument names. *)
Definition files_named (files : files_arg) : list string :=
  match files with OneFile file => [file] | ManyFiles files => files end.

(** ** The lines produced by wrap_text *)

(** The characters of the lines put back together, with nothing between. *)
Definition glue (lines : list string) : string := foldr String.append "" lines.

(** The lines of the word-level pass as they are joined: each one stripped. *)
Definition word_lines (getbbox : string → Z * Z * Z * Z) (text : string) (max_width : Q)
  : list string :=
  let '(_, _txt_, _wrapped_lines_) :=
    word_pass getbbox max_width (split_space text) "" [] in
  strip <$> (_wrapped_lines_ ++ [_txt_]).

(** ** Script splitting (long_video_maker.py, split_script) *)

(** A Python [str] is taken as the list of its code points. The full stop
    the script is cut at is U+3002. *)
Definition full_stop : N := 12290%N.

(** [str.isspace] on one code point: the characters [str.strip()] removes. *)
Definition py_isspace (c : N) : bool :=
  ((9 <=? c) && (c <=? 13) || (28 <=? c) && (c <=? 32) || (c =? 133) || (c =? 160)
   || (c =? 5760) || (8192 <=? c) && (c <=? 8202) || (c =? 8232) || (c =? 8233)
   || (c =? 8239) || (c =? 8287) || (c =? 12288))%N.

Section SplitScript.
(** Which code points count as whitespace. *)
Variable isspace : N → bool.

Fixpoint ulstrip (s : list N) : list N :=
  match s with
  | c :: s' => if isspace c then ulstrip s' else s
  | [] => []
  end.

(** [s.strip()]. *)
Definition ustrip (s : list N) : list N :=
  reverse (ulstrip (reverse (ulstrip s))).

(** [s.split(sep)] for a one-character separator. *)
Fixpoint usplit (sep : N) (s : list N) : list (list N) :=
  match s with
  | [] => [[]]
  | c :: s' =>
      if (c =? sep)%N then [] :: usplit sep s'
      else match usplit sep s' with
           | w :: ws => (c :: w) :: ws
           | [] => [[c]]
           end
  end.

(** The [for sentence in sentences] loop from [segments] and
    [current_segment]. *)
Fixpoint split_script_loop (max_chars : Z) (sentences : list (list N))
    (segments : list (list N)) (current_segment : list N)
  : list (list N) * list N :=
  match sentences with
  | [] => (segments, current_segment)
  | sentence :: rest =>
      match ustrip sentence with
      | [] => split_script_loop max_chars rest segments current_segment
      | stripped =>
          let sentence := stripped ++ [full_stop] in
          if (Z.of_nat (length current_segment) + Z.of_nat (length sentence) <=? max_chars)%Z
          then split_script_loop max_chars rest segments (current_segment ++ sentence)
          else
            let segments :=
              match current_segment with
              | [] => segments
              | _ => segments ++ [current_segment]
              end in
            split_script_loop max_chars rest segments sentence
      end
  end.

Definition split_script (script : list N) (max_chars : Z) : list (list N) :=
  let '(segments, current_segment) :=
    split_script_loop max_chars (usplit full_stop script) [] [] in
  match current_segment with
  | [] => segments
  | _ => segments ++ [current_segment]
  end.

(** The sentences as the loop sees them: the pieces between full stops that
    are not blank, each stripped and closed by a full stop. *)
Definition normalized_sentences (script : list N) : list (list N) :=
  (λ s, ustrip s ++ [full_stop]) <$>
    filter (λ s, ustrip s ≠ []) (usplit full_stop script).

(** The loop on sentences that are already normalized. *)
Fixpoint pack (max_chars : Z) (sentences : list (list N))
    (segments : list (list N)) (current_segment : list N)
  : list (list N) * list N :=
  match sentences with
  | [] => (segments, current_segment)
  | sentence :: rest =>
      if (Z.of_nat (length current_segment) + Z.of_nat (length sentence) <=? max_chars)%Z
      then pack max_chars rest segments (current_segment ++ sentence)
      else pack max_chars rest
             (match current_segment with
              | [] => segments
              | _ => segments ++ [current_segment]
              end) sentence
  end.
End SplitScript.

(** Groups of sentences stand for the segments built so far, the last group
    being the segment under construction. *)
Definition groups_represent (groups : list (list (list N))) (segments : list (list N))
    (current_segment : list N) : Prop :=
  (groups = [] ∧ segments = [] ∧ current_segment = []) ∨
  (∃ gs cg, groups = gs ++ [cg] ∧ segments = @concat N <$> gs ∧ current_segment = concat cg).

(** A group is within the limit or is a single sentence. *)
Definition group_sized (max_chars : Z) (g : list (list N)) : Prop :=
  (Z.of_nat (length (concat g)) <= max_chars)%Z ∨ ∃ s, g = [s].

(** A group was closed only because the sentence that opens the next group
    did not fit into it. *)
Definition groups_greedy (max_chars : Z) (groups : list (list (list N))) : Prop :=
  ∀ i g s rest,
    groups !! i = Some g → groups !! S i = Some (s :: rest) →
    (max_chars < Z.of_nat (length (concat g)) + Z.of_nat (length s))%Z.

(** What the groups satisfy throughout: none is empty, no sentence in them
    is empty, each is sized, and they were closed greedily. *)
Definition groups_good (max_chars : Z) (groups : list (list (list N))) : Prop :=
  Forall (λ g, g ≠ [] ∧ Forall (λ s, s ≠ []) g ∧ group_sized max_chars g) groups ∧
  groups_greedy max_chars groups.

(* ===================================================================== *)
(** * Properties *)
(* ===================================================================== *)

Lemma total_replicate (n : nat) (x : Q) :
  total (replicate n x) == inject_Z (Z.of_nat n) * x.
Proof.
  induction n as [|n IH].
  - change (0 == 0 * x). ring.
  - rewrite Nat2Z.inj_succ. unfold Z.succ. rewrite inject_Z_plus.
    cbn [replicate total foldr]. fold (total (replicate n x)). rewrite IH.
    change (inject_Z 1) with 1. ring.
Qed.

(** ** Rounding facts *)

Lemma Qdiv_pos_nonneg (a b : Q) : 0 <= a -> 0 < b -> 0 <= a / b.
Proof. intros Ha Hb. apply Qle_shift_div_l; [exact Hb | lra]. Qed.

Lemma Qdiv_mul_cancel (a b : Q) : 0 < b -> a / b * b == a.
Proof. intros Hb. field. lra. Qed.

Lemma py_int_nonneg (x : Q) : 0 <= x -> py_int x = Qfloor x.
Proof.
  intros Hx. unfold py_int. destruct (Qlt_le_dec x 0) as [Hlt|_]; [lra | reflexivity].
Qed.

Lemma floor_bounds (a b : Q) :
  0 < b -> inject_Z (Qfloor (a / b)) * b <= a /\ a < inject_Z (Qfloor (a / b) + 1) * b.
Proof.
  intros Hb. pose proof (Qfloor_le (a / b)) as Hlo. pose proof (Qlt_floor (a / b)) as Hhi.
  pose proof (Qdiv_mul_cancel a b Hb) as Hab. split.
  - rewrite <- Hab at 2. apply Qmult_le_compat_r; lra.
  - rewrite <- Hab at 1. apply Qmult_lt_compat_r; lra.
Qed.

Lemma ceiling_bounds (a b : Q) :
  0 < b -> inject_Z (Qceiling (a / b) - 1) * b < a /\ a <= inject_Z (Qceiling (a / b)) * b.
Proof.
  intros Hb. pose proof (Qle_ceiling (a / b)) as Hhi. pose proof (Qceiling_lt (a / b)) as Hlo.
  pose proof (Qdiv_mul_cancel a b Hb) as Hab. split.
  - rewrite <- Hab at 2. apply Qmult_lt_compat_r; lra.
  - rewrite <- Hab at 1. apply Qmult_le_compat_r; lra.
Qed.

Lemma inject_Z_lt_inv (x y : Z) : inject_Z x < inject_Z y -> (x < y)%Z.
Proof. intros H. rewrite Zlt_Qlt. exact H. Qed.

(** The ceiling is the floor or the floor plus one, and it is the floor exactly
    on integers. *)
Lemma ceiling_floor_cases (x : Q) :
  (x == inject_Z (Qfloor x) /\ Qceiling x = Qfloor x) \/
  (inject_Z (Qfloor x) < x /\ Qceiling x = (Qfloor x + 1)%Z).
Proof.
  pose proof (Qfloor_le x) as H1. pose proof (Qlt_floor x) as H2.
  pose proof (Qle_ceiling x) as H3. pose proof (Qceiling_lt x) as H4.
  assert (Qceiling x - 1 < Qfloor x + 1)%Z as H5 by (apply inject_Z_lt_inv; lra).
  destruct (Qeq_dec x (inject_Z (Qfloor x))) as [He|Hne].
  - left. split; [exact He|].
    assert (Qceiling x - 1 < Qfloor x)%Z by (apply inject_Z_lt_inv; lra).
    assert (Qfloor x <= Qceiling x)%Z by (rewrite Zle_Qle; lra). lia.
  - right. assert (inject_Z (Qfloor x) < x) as Hlt.
    { apply Qle_lteq in H1. destruct H1 as [H1|H1]; [exact H1 | exfalso; apply Hne; lra]. }
    split; [exact Hlt|].
    assert (Qfloor x < Qceiling x)%Z by (apply inject_Z_lt_inv; lra). lia.
Qed.

(** ** Binary64 rounding *)

Lemma round_half_even_between (x : Q) :
  (Qfloor x <= round_half_even x <= Qceiling x)%Z.
Proof.
  unfold round_half_even.
  pose proof (Qfloor_le x) as Hf. pose proof (Qle_ceiling x) as Hc.
  assert (Qfloor x <= Qceiling x)%Z as Hfc by (rewrite Zle_Qle; lra).
  assert (inject_Z (Qfloor x) < x → (Qfloor x + 1 <= Qceiling x)%Z) as Hstep.
  { intros Hlt. assert (Qfloor x < Qceiling x)%Z by (rewrite Zlt_Qlt; lra). lia. }
  destruct (Qcompare_spec (x - inject_Z (Qfloor x)) (1 # 2)) as [He|Hl|Hg].
  - destruct (Z.even (Qfloor x)); [lia|]. split; [lia|]. apply Hstep. lra.
  - lia.
  - split; [lia|]. apply Hstep. lra.
Qed.

Lemma round_half_even_near (x : Q) :
  Qabs (inject_Z (round_half_even x) - x) <= 1 # 2.
Proof.
  unfold round_half_even.
  pose proof (Qfloor_le x) as Hf. pose proof (Qlt_floor x) as Hlt.
  rewrite inject_Z_plus in Hlt. change (inject_Z 1) with 1 in Hlt.
  apply Qabs_Qle_condition.
  destruct (Qcompare_spec (x - inject_Z (Qfloor x)) (1 # 2)) as [He|Hl|Hg].
  - destruct (Z.even (Qfloor x)); rewrite ?inject_Z_plus; change (inject_Z 1) with 1; lra.
  - lra.
  - rewrite inject_Z_plus. change (inject_Z 1) with 1. lra.
Qed.

Lemma Qabs_nonneg_eq (q : Q) : 0 <= q → Qabs q = q.
Proof.
  destruct q as [n d]. unfold Qle, Qabs. simpl. intros H.
  rewrite Z.abs_eq; [reflexivity | lia].
Qed.

Lemma pow2_pos (e : Z) : 0 < 2 ^ e.
Proof. apply Qpower_0_lt. reflexivity. Qed.

Lemma pow2_nonpos (e : Z) : (e <= 0)%Z → 2 ^ e == / inject_Z (2 ^ (- e)).
Proof.
  intros He. rewrite Zpower_Qpower by lia. change (inject_Z 2) with 2.
  rewrite <- Qpower_opp. rewrite Z.opp_involutive. reflexivity.
Qed.

Lemma ilog2_small (a : Q) (k : Z) : (0 <= k)%Z → 0 < a → a < 2 ^ (k + 1) → (ilog2 a <= k)%Z.
Proof.
  intros Hk Ha Hlt. unfold ilog2. destruct (Qle_bool 1 a) eqn:H1.
  - apply Qle_bool_iff in H1.
    assert (0 < Qfloor a)%Z as Hpos.
    { assert (Qfloor 1 <= Qfloor a)%Z by (apply Qfloor_resp_le; exact H1).
      change (Qfloor 1) with 1%Z in *. lia. }
    assert (Qfloor a < 2 ^ (k + 1))%Z as Hfl.
    { rewrite Zlt_Qlt. rewrite Zpower_Qpower by lia. change (inject_Z 2) with 2.
      pose proof (Qfloor_le a). lra. }
    apply Z.log2_lt_pow2 in Hfl; [lia | exact Hpos].
  - pose proof (Z.log2_up_nonneg (Qceiling (/ a))). lia.
Qed.

Lemma pow2_Z (k : Z) : (0 <= k)%Z → 2 ^ k == inject_Z (2 ^ k).
Proof. intros Hk. rewrite Zpower_Qpower by exact Hk. reflexivity. Qed.

Lemma pow2_succ (e : Z) : 2 ^ (e + 1) == 2 * 2 ^ e.
Proof. rewrite Qpower_plus by discriminate. change (2 ^ 1) with 2. ring. Qed.

Lemma pow2_opp (k : Z) : 2 ^ (- k) == / 2 ^ k.
Proof. apply Qpower_opp. Qed.

(** [ilog2 a] is the exponent of the binade of [a]. *)
Lemma ilog2_spec (a : Q) : 0 < a → 2 ^ ilog2 a <= a ∧ a < 2 ^ (ilog2 a + 1).
Proof.
  intros Ha. unfold ilog2. destruct (Qle_bool 1 a) eqn:H1.
  - apply Qle_bool_iff in H1.
    assert (0 < Qfloor a)%Z as Hpos.
    { assert (Qfloor 1 <= Qfloor a)%Z by (apply Qfloor_resp_le; exact H1).
      change (Qfloor 1) with 1%Z in *. lia. }
    destruct (Z.log2_spec _ Hpos) as [Hlo Hhi].
    pose proof (Z.log2_nonneg (Qfloor a)) as Hnn.
    pose proof (Qfloor_le a) as Hfl. pose proof (Qlt_floor a) as Hfu.
    rewrite !pow2_Z by lia. split.
    + rewrite Zle_Qle in Hlo. lra.
    + assert (Qfloor a + 1 <= 2 ^ (Z.log2 (Qfloor a) + 1))%Z as Hle by lia.
      rewrite Zle_Qle in Hle. lra.
  - assert (a < 1) as Hlt.
    { destruct (Qlt_le_dec a 1) as [H|H]; [exact H|].
      apply Qle_bool_iff in H. congruence. }
    assert (1 < / a) as Hinv.
    { apply Qlt_shift_inv_l; [exact Ha | lra]. }
    pose proof (Qle_ceiling (/ a)) as Hc. pose proof (Qceiling_lt (/ a)) as Hc'.
    assert (1 < Qceiling (/ a))%Z as HA.
    { rewrite Zlt_Qlt. apply Qlt_le_trans with (/ a); [exact Hinv | exact Hc]. }
    destruct (Z.log2_up_spec _ HA) as [Hlo Hhi].
    pose proof (Z.log2_up_pos _ HA) as Hk.
    set (k := Z.log2_up (Qceiling (/ a))) in *.
    assert (0 < / a) as Hia by (apply Qinv_lt_0_compat; exact Ha).
    assert (a * / a == 1) as Hmul by (field; lra).
    split.
    + rewrite pow2_opp. apply Qle_shift_inv_r; [apply pow2_pos|].
      rewrite pow2_Z by lia. rewrite Zle_Qle in Hhi.
      apply Qle_trans with (a * / a); [rewrite Hmul; apply Qle_refl|].
      apply Qmult_le_l; [exact Ha|]. eapply Qle_trans; [exact Hc | exact Hhi].
    + replace (- k + 1)%Z with (- (k - 1))%Z by lia. rewrite pow2_opp.
      apply Qlt_shift_inv_l; [apply pow2_pos|].
      rewrite pow2_Z by lia.
      assert (2 ^ (k - 1) <= Qceiling (/ a) - 1)%Z as Hle.
      { replace (k - 1)%Z with (Z.pred k) by lia. lia. }
      rewrite Zle_Qle in Hle. unfold Z.sub in Hle. rewrite inject_Z_plus in Hle.
      change (inject_Z (-1)) with (-1) in Hle.
      apply Qlt_le_trans with (a * / a); [|rewrite Hmul; apply Qle_refl].
      apply Qmult_lt_l; [exact Ha|]. unfold Z.sub.
      eapply Qle_lt_trans; [exact Hle|]. unfold Z.sub in Hc'. rewrite inject_Z_plus in Hc'.
      exact Hc'.
Qed.

Lemma inject_Z_pos (z : Z) : (0 < z)%Z → 0 < inject_Z z.
Proof. intros H. change 0 with (inject_Z 0). rewrite <- Zlt_Qlt. exact H. Qed.

Lemma float_round_zero (q : Q) : q == 0 → float_round q = Some 0.
Proof. intros H. unfold float_round. apply Qeq_bool_iff in H. by rewrite H. Qed.

Lemma float_round_pos_unfold (q : Q) :
  0 < q →
  float_round q =
    let r := inject_Z (round_half_even (q / 2 ^ ulp_exp q)) * 2 ^ ulp_exp q in
    if Qle_bool (2 ^ 1024) r then None else Some r.
Proof.
  intros Hq. unfold float_round.
  destruct (Qeq_bool q 0) eqn:H0; [apply Qeq_bool_iff in H0; lra|].
  rewrite Qabs_nonneg_eq by lra.
  assert (Qle_bool 0 q = true) as -> by (apply Qle_bool_iff; lra).
  reflexivity.
Qed.

(** Below [2 ^ 53] the floats include every whole number, so rounding never
    crosses one: the result lies between the floor and the ceiling. *)
Lemma float_round_between (q : Q) :
  0 <= q → q < 2 ^ 53 →
  ∃ r, float_round q = Some r ∧
       inject_Z (Qfloor q) <= r ∧ r <= inject_Z (Qceiling q).
Proof.
  intros Hq Hlt.
  pose proof (Qfloor_le q) as Hfl. pose proof (Qle_ceiling q) as Hce.
  destruct (Qeq_dec q 0) as [H0|H0].
  { exists 0. split; [by apply float_round_zero|]. lra. }
  assert (0 < q) as Hpos.
  { apply Qle_lteq in Hq. destruct Hq as [H|H]; [exact H | exfalso; apply H0; lra]. }
  rewrite (float_round_pos_unfold q Hpos). cbv zeta.
  assert (ulp_exp q <= 0)%Z as He.
  { unfold ulp_exp. pose proof (ilog2_small q 52 ltac:(lia) Hpos Hlt). lia. }
  set (e := ulp_exp q) in *.
  set (s := (2 ^ (- e))%Z).
  assert (0 < s)%Z as Hs by (apply Z.pow_pos_nonneg; lia).
  assert (0 < inject_Z s) as Hsq by (apply inject_Z_pos; exact Hs).
  assert (2 ^ e == / inject_Z s) as Hpow by (apply pow2_nonpos; exact He).
  set (x := q / 2 ^ e).
  assert (x == q * inject_Z s) as Hx.
  { unfold x. rewrite Hpow. field. lra. }
  destruct (round_half_even_between x) as [Hlo Hhi].
  set (m := round_half_even x) in *.
  assert (inject_Z (Qfloor q) * inject_Z s <= inject_Z m) as Hlow.
  { rewrite <- inject_Z_mult. rewrite <- Zle_Qle. etrans; [|exact Hlo].
    rewrite <- (Qfloor_Z (Qfloor q * s)). apply Qfloor_resp_le.
    rewrite inject_Z_mult, Hx. apply Qmult_le_compat_r; lra. }
  assert (inject_Z m <= inject_Z (Qceiling q) * inject_Z s) as Hupp.
  { rewrite <- inject_Z_mult. rewrite <- Zle_Qle. etrans; [exact Hhi|].
    rewrite <- (Qceiling_Z (Qceiling q * s)). apply Qceiling_resp_le.
    rewrite inject_Z_mult, Hx. apply Qmult_le_compat_r; lra. }
  assert (inject_Z (Qfloor q) <= inject_Z m * 2 ^ e ∧
          inject_Z m * 2 ^ e <= inject_Z (Qceiling q)) as [Hr1 Hr2].
  { rewrite Hpow. split.
    - apply Qle_shift_div_l; [exact Hsq | exact Hlow].
    - apply Qle_shift_div_r; [exact Hsq | exact Hupp]. }
  assert (inject_Z (Qceiling q) <= 2 ^ 53) as Hc53.
  { rewrite (pow2_Z 53) by lia. rewrite <- Zle_Qle.
    rewrite <- (Qceiling_Z (2 ^ 53)). apply Qceiling_resp_le.
    rewrite <- pow2_Z by lia. lra. }
  assert (2 ^ 53 < 2 ^ 1024) as Hbig by (apply Qpower_lt_compat_l; [lia | reflexivity]).
  destruct (Qle_bool (2 ^ 1024) (inject_Z m * 2 ^ e)) eqn:Hov.
  { apply Qle_bool_iff in Hov. exfalso.
    apply (Qlt_irrefl (2 ^ 53)). eapply Qlt_le_trans; [exact Hbig|].
    eapply Qle_trans; [exact Hov|]. eapply Qle_trans; [exact Hr2 | exact Hc53]. }
  eexists. split; [reflexivity|]. split; assumption.
Qed.

(** The rounding error is at most half a unit in the last place. *)
Lemma float_round_error (q r : Q) :
  0 < q → float_round q = Some r →
  Qabs (r - q) <= q * 2 ^ (-53) + 2 ^ (-1075).
Proof.
  intros Hpos. rewrite (float_round_pos_unfold q Hpos). cbv zeta.
  set (e := ulp_exp q). set (m := round_half_even (q / 2 ^ e)).
  destruct (Qle_bool _ _); [discriminate|]. intros [= <-].
  pose proof (round_half_even_near (q / 2 ^ e)) as Hnear. fold m in Hnear.
  pose proof (pow2_pos e) as Hpe.
  assert (inject_Z m * 2 ^ e - q == (inject_Z m - q / 2 ^ e) * 2 ^ e) as -> by (field; lra).
  rewrite Qabs_Qmult. rewrite (Qabs_pos (2 ^ e)) by lra.
  assert (2 ^ e <= q * 2 ^ (-52) + 2 ^ (-1074)) as Hulp.
  { pose proof (pow2_pos (-52)) as H52. pose proof (pow2_pos (-1074)) as H1074.
    destruct (ilog2_spec q Hpos) as [Hlog _].
    assert (0 <= q * 2 ^ (-52)) as Hq52 by (apply Qmult_le_0_compat; lra).
    unfold e, ulp_exp. destruct (Z.max_spec (ilog2 q - 52) (-1074)) as [[_ ->]|[_ ->]].
    - set (b := 2 ^ (-1074)) in *. lra.
    - replace (ilog2 q - 52)%Z with (ilog2 q + (-52))%Z by lia.
      rewrite Qpower_plus by discriminate.
      set (b := 2 ^ (-1074)) in *. set (c := 2 ^ (-52)) in *.
      set (l := 2 ^ ilog2 q) in *.
      assert (l * c <= q * c) by (apply Qmult_le_compat_r; lra).
      set (lc := l * c) in *. set (qc := q * c) in *. lra. }
  pose proof (pow2_succ (-53)) as H53. change (-53 + 1)%Z with (-52)%Z in H53.
  pose proof (pow2_succ (-1075)) as H1075. change (-1075 + 1)%Z with (-1074)%Z in H1075.
  set (d := Qabs (inject_Z m - q / 2 ^ e)) in *.
  assert (0 <= d) as Hd by apply Qabs_nonneg.
  assert (d * 2 ^ e <= (1 # 2) * 2 ^ e) as Hde by (apply Qmult_le_compat_r; lra).
  set (p := 2 ^ e) in *. set (a53 := 2 ^ (-53)) in *. set (a52 := 2 ^ (-52)) in *.
  set (b5 := 2 ^ (-1075)) in *. set (b4 := 2 ^ (-1074)) in *.
  rewrite H53, H1075 in Hulp. 
  assert (q * (2 * a53) == 2 * (q * a53)) as Hq by ring. rewrite Hq in Hulp.
  set (qa := q * a53) in *. lra.
Qed.

(** ** Audio/video reconciliation *)

Lemma float_div_nonzero (a b : Q) : ¬ b == 0 → float_div a b = float_round (a / b).
Proof.
  intros Hb. unfold float_div. destruct (Qeq_bool b 0) eqn:H0; [|reflexivity].
  apply Qeq_bool_iff in H0. contradiction.
Qed.

Lemma floor_div_nonneg (N V : Q) : 0 <= N -> 0 < V -> (0 <= Qfloor (N / V))%Z.
Proof.
  intros HN HV. change 0%Z with (Qfloor (inject_Z 0)).
  apply Qfloor_resp_le. apply Qdiv_pos_nonneg; lra.
Qed.

(** The float quotient of two durations lies between the floor and the
    ceiling of the exact one, so the repeat count is the exact floor plus
    one or, when the quotient rounds up to a whole number, the exact
    ceiling plus one. *)
Lemma float_quotient_count (N V : Q) :
  0 <= N -> 0 < V -> N / V < 2 ^ 53 ->
  exists (q : Q) (n : Z),
    float_div N V = Some q /\ repeat_times N V = Some n /\
    n = (Qfloor q + 1)%Z /\
    (Qfloor (N / V) + 1 <= n <= Qceiling (N / V) + 1)%Z.
Proof.
  intros HN HV Hlt.
  assert (0 <= N / V) as Hnn by (apply Qdiv_pos_nonneg; lra).
  destruct (float_round_between (N / V) Hnn Hlt) as (q & Hq & Hlo & Hhi).
  pose proof (floor_div_nonneg N V HN HV) as Hfl.
  assert (0 <= q) as Hq0.
  { eapply Qle_trans; [|exact Hlo]. change 0 with (inject_Z 0). rewrite <- Zle_Qle. exact Hfl. }
  exists q, (Qfloor q + 1)%Z.
  assert (float_div N V = Some q) as Hdiv by (rewrite float_div_nonzero; [exact Hq | lra]).
  split; [exact Hdiv|]. split.
  { unfold repeat_times. rewrite Hdiv. cbn. by rewrite py_int_nonneg. }
  split; [reflexivity|].
  assert (Qfloor (N / V) <= Qfloor q)%Z.
  { rewrite <- (Qfloor_Z (Qfloor (N / V))). apply Qfloor_resp_le. exact Hlo. }
  assert (Qfloor q <= Qceiling (N / V))%Z.
  { rewrite <- (Qfloor_Z (Qceiling (N / V))). apply Qfloor_resp_le. exact Hhi. }
  lia.
Qed.

(** Repeating a clip that lasts at least [V] more than [N / V] times gives
    more than [N]. *)
Lemma repeated_video_covers (N V C : Q) (n : Z) :
  0 <= N -> 0 < V -> V <= C -> (Qfloor (N / V) + 1 <= n)%Z ->
  N < concatenate_videoclips (py_list_mul C n).
Proof.
  intros HN HV HC Hn. unfold concatenate_videoclips, py_list_mul.
  pose proof (floor_div_nonneg N V HN HV) as Hfl.
  rewrite total_replicate. rewrite Z2Nat.id by lia.
  destruct (floor_bounds N V HV) as [_ Hup].
  apply Qlt_le_trans with (inject_Z (Qfloor (N / V) + 1) * V); [exact Hup|].
  apply Qle_trans with (inject_Z n * V).
  - apply Qmult_le_compat_r; [rewrite <- Zle_Qle; exact Hn | lra].
  - assert (0 <= inject_Z n) as Hn0.
    { change 0 with (inject_Z 0). rewrite <- Zle_Qle. lia. }
    rewrite (Qmult_comm (inject_Z n) V), (Qmult_comm (inject_Z n) C).
    apply Qmult_le_compat_r; assumption.
Qed.






(** C2, as the code has it. Whenever the accumulated video duration [V] is
    strictly less than the narration duration [N], the combined artifact is
    repeated [int(N / V) + 1] times on the float quotient: that is
    [ceil(N / V)] or [ceil(N / V) + 1] times, and [ceil(N / V) + 1] times
    whenever [N] is an exact multiple of [V]. The repeated video lasts
    longer than the narration when the artifact lasts at least [V]. *)
Theorem repeat_times_float (N V C : Q) :
  0 < V -> V < N -> N / V < 2 ^ 53 ->
  exists (q : Q) (n : Z),
    float_div N V = Some q /\
    repeat_times N V = Some n /\
    n = (Qfloor q + 1)%Z /\
    (n = Qceiling (N / V) \/ n = (Qceiling (N / V) + 1)%Z) /\
    (N / V == inject_Z (Qfloor (N / V)) -> n = (Qceiling (N / V) + 1)%Z) /\
    fix_video_duration V N C = Some (concatenate_videoclips (py_list_mul C n)) /\
    (V <= C -> N < concatenate_videoclips (py_list_mul C n)).
Proof.
  intros HV HVN Hlt. assert (0 <= N) as HN by lra.
  destruct (float_quotient_count N V HN HV Hlt) as (q & n & Hq & Hn & Hnq & Hlo & Hhi).
  exists q, n. split; [exact Hq|]. split; [exact Hn|]. split; [exact Hnq|].
  split; [|split; [|split]].
  - destruct (ceiling_floor_cases (N / V)) as [[_ Hc]|[_ Hc]]; lia.
  - intros Hint. destruct (ceiling_floor_cases (N / V)) as [[_ Hc]|[Hne _]]; [lia | lra].
  - unfold fix_video_duration. destruct (Qlt_le_dec V N) as [_|Hle]; [|lra].
    rewrite Hn. reflexivity.
  - intros HC. apply (repeated_video_covers N V C n); assumption.
Qed.

Lemma repeat_times_float_witness :
  exists (q : Q) (n : Z),
    float_div 10 4 = Some q /\
    repeat_times 10 4 = Some n /\
    n = (Qfloor q + 1)%Z /\
    (n = Qceiling (10 / 4) \/ n = (Qceiling (10 / 4) + 1)%Z) /\
    fix_video_duration 4 10 4 = Some (concatenate_videoclips (py_list_mul 4 n)) /\
    10 < concatenate_videoclips (py_list_mul 4 n).
Proof.
  destruct (repeat_times_float 10 4 4) as (q & n & Hq & Hn & Hnq & Hc & _ & Hfix & Hcov);
    [reflexivity | reflexivity | reflexivity |].
  exists q, n. repeat split; try assumption. apply Hcov. discriminate.
Defined.

(** C2 as stated fails: a 5 s video under a 10 s narration is repeated three
    times, while [ceil(10 / 5)] is two. *)
Lemma repeat_times_not_ceiling :
  5 < 10 /\ repeat_times 10 5 = Some 3%Z /\ Qceiling (10 / 5) = 2%Z /\
  repeat_times 10 5 <> Some (Qceiling (10 / 5)).
Proof.
  split; [reflexivity|]. split; [vm_compute; reflexivity|]. split; [reflexivity|].
  intros H. vm_compute in H. discriminate H.
Qed.

(** The rounding of the quotient shows: for the floats nearest to 3.03 and
    1.01 the exact quotient is just below 3, the float quotient is 3, and
    the video is repeated 4 times. *)
Example repeat_times_rounds_up :
  let N := 6822953435466301 # 2251799813685248 in
  let V := 4548635623644201 # 4503599627370496 in
  Qfloor (N / V) = 2%Z /\ Qceiling (N / V) = 3%Z /\ repeat_times N V = Some 4%Z.
Proof. vm_compute. repeat split; reflexivity. Qed.

(** ** The splitting loop *)

Lemma split_loop_stop (fuel : nat) (b : bool) (ok : segment → bool) (m D start : Q) :
  D <= start -> split_loop fuel b ok m D start = Some ([], Finished).
Proof.
  intros H. destruct fuel; cbn; destruct (Qlt_le_dec start D); try lra; reflexivity.
Qed.

(** From [start], with [n] full pieces still to come before the last one. *)
Lemma split_loop_from (m D : Q) (n : nat) :
  0 < m ->
  forall (start : Q) (fuel : nat),
    (S n <= fuel)%nat ->
    inject_Z (Z.of_nat n) * m < D - start ->
    D - start <= inject_Z (Z.of_nat (S n)) * m ->
    exists segs,
      split_loop fuel false all_ok m D start = Some (segs, Finished) /\
      length segs = S n /\
      total (map seg_duration segs) == D - start /\
      Forall (fun s => seg_duration s == m) (removelast segs) /\
      exists l, last segs = Some l /\
                seg_duration l == D - start - inject_Z (Z.of_nat n) * m.
Proof.
  intros Hm. induction n as [|n IH]; intros start fuel Hfuel Hlo Hhi.
  - destruct fuel as [|fuel]; [lia|].
    change (inject_Z (Z.of_nat 0)) with 0 in *.
    change (inject_Z (Z.of_nat 1)) with 1 in *.
    cbn [split_loop all_ok]. destruct (Qlt_le_dec start D) as [_|Hle]; [|lra].
    assert (py_min (start + m) D == D) as Hend.
    { unfold py_min. destruct (Qlt_le_dec D (start + m)); lra. }
    rewrite split_loop_stop by lra. cbn.
    eexists. split; [reflexivity|]. split; [reflexivity|].
    unfold seg_duration; cbn. repeat split.
    + lra.
    + constructor.
    + eexists. split; [reflexivity|]. cbn. lra.
  - destruct fuel as [|fuel]; [lia|].
    rewrite !Nat2Z.inj_succ in *. unfold Z.succ in *. rewrite !inject_Z_plus in *.
    change (inject_Z 1) with 1 in *.
    assert (0 <= inject_Z (Z.of_nat n)) as Hn.
    { change 0 with (inject_Z 0). rewrite <- Zle_Qle. lia. }
    assert (0 <= inject_Z (Z.of_nat n) * m) as Hnm by (apply Qmult_le_0_compat; lra).
    cbn [split_loop all_ok]. destruct (Qlt_le_dec start D) as [_|Hle]; [|lra].
    assert (py_min (start + m) D = start + m) as Hend.
    { unfold py_min. destruct (Qlt_le_dec D (start + m)); [lra | reflexivity]. }
    rewrite Hend.
    destruct (IH (start + m) fuel) as (rest & Hrun & Hlen & Hsum & Hfull & l & Hlast & Hl).
    + lia.
    + lra.
    + lra.
    + rewrite Hrun. cbn. eexists. split; [reflexivity|].
      destruct rest as [|r rest]; [discriminate Hlen|].
      split; [cbn in *; lia|]. split.
      { cbn [map total foldr]. fold (total (map seg_duration (r :: rest))).
        rewrite Hsum. unfold seg_duration; cbn. lra. }
      split.
      { cbn [removelast]. constructor; [unfold seg_duration; cbn; lra | exact Hfull]. }
      exists l. split; [exact Hlast | lra].
Qed.

(** C4. For a source of duration [D > 0] and [max_clip_duration = m > 0],
    under random mode (no [break]) the splitting loop terminates and yields
    exactly [ceil(D / m)] sub-clips whose durations sum to [D], each of
    length [m] except the last, whose length is [D mod m], or [m] when [D]
    is an exact multiple of [m]. *)
Theorem split_loop_random (D m : Q) :
  0 < D -> 0 < m ->
  forall fuel : nat,
    (Z.to_nat (Qceiling (D / m)) <= fuel)%nat ->
    exists segs,
      split_loop fuel false all_ok m D 0 = Some (segs, Finished) /\
      Z.of_nat (length segs) = Qceiling (D / m) /\
      total (map seg_duration segs) == D /\
      Forall (fun s => seg_duration s == m) (removelast segs) /\
      exists l, last segs = Some l /\
                seg_duration l == (if Qeq_dec (Qmod D m) 0 then m else Qmod D m).
Proof.
  intros HD Hm fuel Hfuel.
  destruct (ceiling_bounds D m Hm) as [Hlo Hhi].
  assert (0 < Qceiling (D / m))%Z as Hc.
  { apply inject_Z_lt_inv. change (inject_Z 0) with 0.
    destruct (Qlt_le_dec 0 (inject_Z (Qceiling (D / m)))) as [H|H]; [exact H|].
    exfalso. assert (inject_Z (Qceiling (D / m)) * m <= 0 * m) by (apply Qmult_le_compat_r; lra).
    lra. }
  set (c := Qceiling (D / m)) in *.
  destruct (split_loop_from m D (Z.to_nat (c - 1)) Hm 0 fuel)
    as (segs & Hrun & Hlen & Hsum & Hfull & l & Hlast & Hl).
  - lia.
  - rewrite Z2Nat.id by lia. lra.
  - replace (Z.of_nat (S (Z.to_nat (c - 1)))) with c by lia. lra.
  - exists segs. split; [exact Hrun|]. split; [lia|]. split; [rewrite Hsum; lra|].
    split; [exact Hfull|]. exists l. split; [exact Hlast|].
    rewrite Hl. rewrite Z2Nat.id by lia. unfold Zminus. rewrite inject_Z_plus.
    change (inject_Z (-1)) with (-1).
    pose proof (Qdiv_mul_cancel D m Hm) as HDm.
    destruct (ceiling_floor_cases (D / m)) as [[He Hcf]|[Hlt Hcf]]; fold c in Hcf.
    + assert (Qmod D m == 0) as H0.
      { unfold Qmod. rewrite <- He, HDm. ring. }
      destruct (Qeq_dec (Qmod D m) 0) as [_|Hne]; [|contradiction].
      rewrite Hcf. unfold Qmod in H0.
      assert ((inject_Z (Qfloor (D / m)) + -1) * m
              == inject_Z (Qfloor (D / m)) * m - m) as Hdist by ring.
      rewrite Hdist. lra.
    + assert (0 < Qmod D m) as Hpos.
      { unfold Qmod.
        assert (inject_Z (Qfloor (D / m)) * m < D / m * m) by (apply Qmult_lt_compat_r; lra).
        lra. }
      destruct (Qeq_dec (Qmod D m) 0) as [H0|_]; [lra|].
      rewrite Hcf. rewrite inject_Z_plus. change (inject_Z 1) with 1. unfold Qmod.
      assert ((inject_Z (Qfloor (D / m)) + 1 + -1) * m
              == inject_Z (Qfloor (D / m)) * m) as Hdist by ring.
      rewrite Hdist. lra.
Qed.

Lemma split_loop_random_witness :
  exists segs,
    split_loop 2 false all_ok 5 6 0 = Some (segs, Finished) /\
    Z.of_nat (length segs) = Qceiling (6 / 5) /\
    total (map seg_duration segs) == 6 /\
    Forall (fun s => seg_duration s == 5) (removelast segs) /\
    exists l, last segs = Some l /\
              seg_duration l == (if Qeq_dec (Qmod 6 5) 0 then 5 else Qmod 6 5).
Proof.
  apply (split_loop_random 6 5); [reflexivity | reflexivity | vm_compute; lia].
Defined.

(** ** Random-mode ordering *)

Lemma random_choice_elem {A} (r : nat) (seq : list A) :
  seq ≠ [] → ∃ x, random_choice r seq = Some x ∧ x ∈ seq.
Proof.
  intros Hne. unfold random_choice.
  assert (r mod length seq < length seq)%nat as Hlt.
  { apply Nat.mod_upper_bound. destruct seq; [done | simpl; lia]. }
  destruct (lookup_lt_is_Some_2 _ _ Hlt) as [x Hx].
  exists x. split; [exact Hx | by eapply list_elem_of_lookup_2].
Qed.

Lemma py_remove_perm (x : string) (lst : list string) :
  x ∈ lst → x :: py_remove x lst ≡ₚ lst.
Proof.
  induction lst as [|y rest IH]; intros Hin.
  - by apply elem_of_nil in Hin.
  - simpl. destruct (decide (x = y)) as [->|Hne]; [done|].
    apply elem_of_cons in Hin as [?|Hin]; [done|].
    rewrite Permutation_swap. by rewrite IH.
Qed.

Lemma py_remove_length (x : string) (lst : list string) :
  x ∈ lst → length (py_remove x lst) = pred (length lst).
Proof.
  intros Hin. apply py_remove_perm in Hin. apply Permutation_length in Hin.
  simpl in Hin. lia.
Qed.

Lemma swap_guard_total (pre : list string) (t : string) (avail : list string) :
  ∃ b, swap_guard (ShuffleState (pre ++ [t]) avail) = Some b.
Proof.
  unfold swap_guard; simpl. destruct avail as [|a [|? ?]]; eauto.
  destruct pre; simpl; eauto.
Qed.

(** The swap check on a state whose placed list ends in [t]. *)
Lemma swap_last_snoc (pre : list string) (t : string) (avail : list string) :
  ∃ t1 av1,
    swap_last (ShuffleState (pre ++ [t]) avail) = Some (ShuffleState (pre ++ [t1]) av1) ∧
    length av1 = length avail ∧
    (pre ++ [t1]) ++ av1 ≡ₚ (pre ++ [t]) ++ avail ∧
    (swap_guard (ShuffleState (pre ++ [t]) avail) = Some false → t1 = t ∧ av1 = avail).
Proof.
  destruct (swap_guard_total pre t avail) as [b Hb].
  unfold swap_last. rewrite Hb. simpl. destruct b.
  - unfold swap_guard in Hb; simpl in Hb.
    destruct avail as [|a [|? ?]]; try discriminate Hb.
    simpl. rewrite last_snoc. simpl.
    exists a, [t]. split.
    { do 2 f_equal. rewrite length_app. simpl.
      replace (pred (length pre + 1)) with (length pre + 0)%nat by lia.
      by rewrite insert_app_r. }
    split; [done|]. split; [|discriminate].
    rewrite <- !app_assoc. apply Permutation_app_head. simpl. apply Permutation_swap.
  - exists t, avail. split; [done|]. split; [done|]. split; done.
Qed.

Lemma differing_snoc (pre : list string) (t : string) (avail : list string) :
  differing (ShuffleState (pre ++ [t]) avail) = Some (filter (λ p, p ≠ t) avail).
Proof. unfold differing. simpl. by rewrite last_snoc. Qed.

(** One iteration from a state whose placed list ends in [t]. *)
Lemma shuffle_step_snoc (r : nat) (pre : list string) (t : string) (avail : list string) :
  avail ≠ [] →
  ∃ t1 x av',
    shuffle_step r (ShuffleState (pre ++ [t]) avail)
      = Some (ShuffleState ((pre ++ [t1]) ++ [x]) av') ∧
    S (length av') = length avail ∧
    ((pre ++ [t1]) ++ [x]) ++ av' ≡ₚ (pre ++ [t]) ++ avail ∧
    (swap_guard (ShuffleState (pre ++ [t]) avail) = Some false → t1 = t) ∧
    (x = t1 → exhausted (ShuffleState (pre ++ [t]) avail) = true).
Proof.
  intros Hne.
  destruct (swap_last_snoc pre t avail) as (t1 & av1 & Hswap & Hlen & Hperm & Hsame).
  assert (av1 ≠ []) as Hne1 by (destruct av1, avail; simpl in *; done).
  unfold shuffle_step, exhausted. rewrite Hswap. simpl. rewrite differing_snoc. simpl.
  set (cands := filter (λ p, p ≠ t1) av1).
  set (pool := match cands with [] => av1 | _ :: _ => cands end).
  assert (pool ≠ []) as Hpool by (unfold pool; destruct cands; done).
  assert (∀ y, y ∈ pool → y ∈ av1) as Hsub.
  { intros y. unfold pool. destruct cands eqn:Hc; [done|].
    rewrite <- Hc. unfold cands. rewrite list_elem_of_filter. tauto. }
  destruct (random_choice_elem r pool Hpool) as (x & Hx & Hin).
  rewrite Hx. simpl. exists t1, x, (py_remove x av1).
  split; [done|]. split.
  { rewrite py_remove_length by auto. destruct av1; simpl in *; [done | lia]. }
  split.
  { rewrite <- Hperm. rewrite <- (app_assoc (pre ++ [t1])). apply Permutation_app_head.
    simpl. apply py_remove_perm. auto. }
  split; [intros Hg; by apply Hsame|].
  intros ->. unfold pool in Hin. destruct cands eqn:Hc; [done|].
  rewrite <- Hc in Hin. unfold cands in Hin.
  apply list_elem_of_filter in Hin as [Hneq _]. done.
Qed.

(** Running the loop to the end from a state whose placed list is
    [pre ++ [t]]: the result is a rearrangement, [pre] is kept, [t] is kept
    unless the swap check fires at once, and an equal pair beyond [pre] is
    explained by the iteration that placed its second element. *)
Lemma shuffle_iter_spec (rand : nat → nat) (q : nat) :
  ∀ (k : nat) (pre : list string) (t : string) (avail : list string),
    length avail = q →
    let st := ShuffleState (pre ++ [t]) avail in
    ∃ out,
      shuffle_iter q rand k st = Some (ShuffleState out []) ∧
      (∀ fuel, (q ≤ fuel)%nat → shuffle_loop fuel rand k st = Some (ShuffleState out [])) ∧
      out ≡ₚ (pre ++ [t]) ++ avail ∧
      (∃ t' rest, out = (pre ++ [t']) ++ rest ∧ (swap_guard st = Some false → t' = t)) ∧
      (∀ i x, out !! (length pre + i)%nat = Some x →
              out !! (length pre + S i)%nat = Some x →
              ∃ st_i, shuffle_iter i rand k st = Some st_i ∧
                (exhausted st_i = true ∨
                 ∃ st', shuffle_iter (S i) rand k st = Some st' ∧
                        swap_guard st' = Some true)).
Proof.
  induction q as [|q IH]; intros k pre t avail Hlen st.
  - destruct avail; [|discriminate Hlen]. exists (pre ++ [t]). subst st.
    split; [done|]. split; [by intros [|fuel] _|].
    split; [by rewrite app_nil_r|]. split.
    + exists t, []. by rewrite app_nil_r.
    + intros i x _ Hx. apply lookup_lt_Some in Hx. rewrite length_app in Hx.
      simpl in Hx. lia.
  - assert (avail ≠ []) as Hne by (destruct avail; [discriminate Hlen | done]).
    destruct (shuffle_step_snoc (rand k) pre t avail Hne)
      as (t1 & x & av' & Hstep & Hlen' & Hperm & Hkeep & Hexh).
    fold st in Hstep, Hkeep, Hexh.
    destruct (IH (S k) (pre ++ [t1]) x av' ltac:(lia))
      as (out & Hrun & Hloop & Hperm' & (x' & rest & Hout & Hkeep') & Hpairs).
    exists out. split; [simpl; rewrite Hstep; exact Hrun|].
    split.
    { intros [|fuel] Hfuel; [lia|]. simpl. destruct avail; [done|].
      subst st. rewrite Hstep. simpl. apply Hloop. lia. }
    split; [by rewrite Hperm', Hperm|].
    split.
    { exists t1, ([x'] ++ rest). split; [by rewrite app_assoc | exact Hkeep]. }
    intros [|i] y Hy Hy'.
    + exists st. split; [done|].
      destruct (swap_guard_total (pre ++ [t1]) x av') as [[|] Hg].
      * right. eexists. split; [simpl; rewrite Hstep; reflexivity | exact Hg].
      * left. apply Hexh. specialize (Hkeep' Hg). subst x'.
        rewrite Hout in Hy, Hy'.
        rewrite Nat.add_0_r in Hy.
        assert (((pre ++ [t1]) ++ [x]) ++ rest = pre ++ t1 :: x :: rest) as E0
          by (by rewrite <- !app_assoc).
        assert (((pre ++ [t1]) ++ [x]) ++ rest = (pre ++ [t1]) ++ x :: rest) as E1
          by (by rewrite <- (app_assoc (pre ++ [t1]))).
        rewrite E0 in Hy. rewrite E1 in Hy'.
        rewrite list_lookup_middle in Hy by done.
        rewrite list_lookup_middle in Hy' by (rewrite length_app; simpl; lia).
        congruence.
    + assert (length pre + S i = length (pre ++ [t1]) + i)%nat as E1
        by (rewrite length_app; simpl; lia).
      assert (length pre + S (S i) = length (pre ++ [t1]) + S i)%nat as E2
        by (rewrite length_app; simpl; lia).
      rewrite E1 in Hy. rewrite E2 in Hy'.
      destruct (Hpairs i y Hy Hy') as (st_i & Hsti & Hcase).
      exists st_i. split; [simpl; rewrite Hstep; exact Hsti|].
      destruct Hcase as [He|(st' & Hst' & Hg)]; [by left|].
      right. exists st'. split; [|exact Hg].
      change (shuffle_iter (S (S i)) rand k st)
        with (shuffle_step (rand k) st ≫= shuffle_iter (S i) rand (S k)).
      rewrite Hstep. exact Hst'.
Qed.

(** The [len(processed_clip_paths) > 1] branch on any such list. *)
Lemma shuffle_paths_spec (rand : nat → nat) (paths : list string) (fuel : nat) :
  (1 < length paths)%nat →
  (length paths ≤ fuel)%nat →
  ∃ out,
    order_clips random fuel rand paths = Some out ∧
    out ≡ₚ paths ∧
    ∀ j x, out !! j = Some x → out !! S j = Some x →
      ∃ st, placing_state rand paths j = Some st ∧
        (exhausted st = true ∨
         ∃ st', placing_state rand paths (S j) = Some st' ∧ swap_guard st' = Some true).
Proof.
  intros Hlen Hfuel.
  assert (paths ≠ []) as Hne by (destruct paths; [simpl in Hlen; lia | done]).
  destruct (random_choice_elem (rand 0%nat) paths Hne) as (first_clip & Hfirst & Hin).
  destruct (shuffle_iter_spec rand (length (py_remove first_clip paths)) 1 [] first_clip
              (py_remove first_clip paths) eq_refl)
    as (out & Hrun & Hloop & Hperm & _ & Hpairs).
  simpl in Hrun, Hloop, Hperm, Hpairs.
  exists out. split.
  { unfold order_clips. rewrite decide_True by done.
    unfold shuffle_paths, shuffle_init. rewrite Hfirst. simpl.
    rewrite Hloop; [done|]. rewrite py_remove_length by done. lia. }
  split; [rewrite Hperm; by apply py_remove_perm|].
  intros j x Hj Hj'. unfold placing_state, shuffle_init. rewrite Hfirst. simpl.
  exact (Hpairs j x Hj Hj').
Qed.

(** On pairwise distinct paths, which is what the splitting loop produces,
    no two neighbours of the output are equal. *)
Lemma shuffle_paths_distinct (rand : nat → nat) (paths : list string) (fuel : nat) :
  (1 < length paths)%nat →
  (length paths ≤ fuel)%nat →
  NoDup paths →
  ∃ out,
    order_clips random fuel rand paths = Some out ∧
    out ≡ₚ paths ∧
    ∀ j x y, out !! j = Some x → out !! S j = Some y → x ≠ y.
Proof.
  intros Hlen Hfuel Hnd.
  destruct (shuffle_paths_spec rand paths fuel Hlen Hfuel) as (out & Hrun & Hperm & _).
  exists out. split; [done|]. split; [done|].
  intros j x y Hx Hy ->. rewrite <- Hperm in Hnd.
  pose proof (NoDup_lookup out j (S j) y Hnd Hx Hy). lia.
Qed.


(** ** Subtitle wrapping *)

Example strip_spaces : strip "  ab c  " = "ab c".
Proof. reflexivity. Qed.

Example split_space_gaps : split_space "a  b" = ["a"; ""; "b"].
Proof. reflexivity. Qed.

Example wrap_text_words :
  wrap_text fixed_pitch_bbox "ab cd ef" 50 = (join_lines ["ab cd"; "ef"], 40%Z).
Proof. reflexivity. Qed.

Lemma fits_iff (getbbox : string → Z * Z * Z * Z) (s : string) (max_width : Q) :
  fits getbbox s max_width = true ↔ (inject_Z (text_width getbbox s) <= max_width)%Q.
Proof. unfold fits. apply Qle_bool_iff. Qed.

Lemma fits_false (getbbox : string → Z * Z * Z * Z) (s : string) (max_width : Q) :
  fits getbbox s max_width = false ↔ (max_width < inject_Z (text_width getbbox s))%Q.
Proof.
  rewrite <- not_true_iff_false, fits_iff. split.
  - apply Qnot_le_lt.
  - apply Qlt_not_le.
Qed.

(** C8. A phrase whose full rendered width is within the width budget is
    returned unchanged, with the height of its single measured line; the
    budget [create_text_clip] passes is 0.9 times the canvas width. *)
Theorem wrap_text_fits_unchanged (getbbox : string → Z * Z * Z * Z)
    (phrase : string) (max_width : Q) (video_width : Z) :
  ((inject_Z (text_width getbbox phrase) <= max_width)%Q →
   wrap_text getbbox phrase max_width = (phrase, snd (get_text_size getbbox phrase))) ∧
  ((inject_Z (text_width getbbox phrase) <= inject_Z video_width * (9 # 10))%Q →
   create_text_clip_wrap getbbox video_width phrase
     = (phrase, snd (get_text_size getbbox phrase))).
Proof.
  assert (∀ w, (inject_Z (text_width getbbox phrase) <= w)%Q →
               wrap_text getbbox phrase w = (phrase, snd (get_text_size getbbox phrase)))
    as Hgen.
  { intros w Hw. unfold wrap_text, text_width in *.
    destruct (get_text_size getbbox phrase) as [width height] eqn:Hsz. simpl in *.
    apply Qle_bool_iff in Hw. by rewrite Hw. }
  split; [apply Hgen|]. intros Hw. unfold create_text_clip_wrap, subtitle_max_width.
  by apply Hgen.
Qed.

Lemma wrap_text_fits_unchanged_witness :
  wrap_text fixed_pitch_bbox "hello world" 972 = ("hello world", 20%Z) ∧
  create_text_clip_wrap fixed_pitch_bbox 1080 "hello world" = ("hello world", 20%Z).
Proof.
  split.
  - apply (wrap_text_fits_unchanged fixed_pitch_bbox "hello world" 972 1080).
    vm_compute. discriminate.
  - apply (wrap_text_fits_unchanged fixed_pitch_bbox "hello world" 972 1080).
    vm_compute. discriminate.
Defined.

(** Every line the character-level pass closes is wider than the budget: the
    character that overflows is appended before the line is closed. *)
Lemma char_pass_closed_overflow (getbbox : string → Z * Z * Z * Z) (max_width : Q)
    (chars : list string) :
  ∀ (_txt_ : string) (_wrapped_lines_ : list string),
    Forall (λ line, fits getbbox line max_width = false) _wrapped_lines_ →
    Forall (λ line, fits getbbox line max_width = false)
           (snd (char_pass getbbox max_width chars _txt_ _wrapped_lines_)).
Proof.
  induction chars as [|word chars IH]; intros txt lines Hlines; simpl.
  - exact Hlines.
  - destruct (fits getbbox (txt +:+ word) max_width) eqn:Hfit.
    + by apply IH.
    + apply IH. apply Forall_app. split; [exact Hlines|]. by constructor.
Qed.

Lemma char_lines_overflow (getbbox : string → Z * Z * Z * Z) (text : string)
    (max_width : Q) (i : nat) (line : string) :
  char_lines getbbox text max_width !! i = Some line →
  (S i < length (char_lines getbbox text max_width))%nat →
  (max_width < inject_Z (text_width getbbox line))%Q.
Proof.
  unfold char_lines.
  pose proof (char_pass_closed_overflow getbbox max_width (chars_of text) "" []
                (Forall_nil_2 _)) as Hall.
  destruct (char_pass getbbox max_width (chars_of text) "" []) as [txt lines].
  simpl in Hall. intros Hi Hlt. rewrite length_app in Hlt. simpl in Hlt.
  rewrite lookup_app_l in Hi by lia.
  apply fits_false. exact (Forall_lookup_1 _ _ _ _ Hall Hi).
Qed.

(** C7 at a failing input: the six-letter word abcdef in a fixed-pitch font
    of 10 pixels per letter, under a budget of 25 pixels. The character pass
    is taken and closes the lines abc and def, each three letters and 30
    pixels wide. *)
Theorem wrap_text_char_pass_overflow :
  wrap_text fixed_pitch_bbox "abcdef" 25 = (join_lines ["abc"; "def"], 60%Z) ∧
  char_lines fixed_pitch_bbox "abcdef" 25 = ["abc"; "def"; ""] ∧
  text_width fixed_pitch_bbox "abc" = 30%Z ∧
  (25 < inject_Z (text_width fixed_pitch_bbox "abc"))%Q ∧
  String.length "abc" = 3%nat.
Proof. repeat split. Qed.

(** ** Background music *)

(** C10. An empty [bgm_type] gives the empty string, whatever [bgm_file] is;
    with a non-empty [bgm_type], a non-empty [bgm_file] that exists is
    returned, whatever the type; a non-empty type other than random with no
    usable file gives the empty string. *)
Theorem get_bgm_file_cases (path_exists : string → bool) (song_files : list string)
    (r : nat) (bgm_type bgm_file : string) :
  get_bgm_file path_exists song_files r "" bgm_file = Some "" ∧
  (bgm_type ≠ "" → bgm_file ≠ "" → path_exists bgm_file = true →
   get_bgm_file path_exists song_files r bgm_type bgm_file = Some bgm_file) ∧
  (bgm_type ≠ "" → bgm_type ≠ "random" →
   bgm_file = "" ∨ path_exists bgm_file = false →
   get_bgm_file path_exists song_files r bgm_type bgm_file = Some "").
Proof.
  unfold get_bgm_file. split; [reflexivity|]. split.
  - intros Ht Hf He. apply String.eqb_neq in Ht, Hf. by rewrite Ht, Hf, He.
  - intros Ht Hr Hno. apply String.eqb_neq in Ht, Hr. rewrite Ht, Hr.
    destruct Hno as [->|Hno]; [done|]. rewrite Hno. by rewrite andb_false_r.
Qed.

Lemma get_bgm_file_cases_witness :
  get_bgm_file (λ _, true) ["song.mp3"] 0 "" "bgm.mp3" = Some "" ∧
  get_bgm_file (λ _, true) ["song.mp3"] 0 "custom" "bgm.mp3" = Some "bgm.mp3" ∧
  get_bgm_file (λ _, false) ["song.mp3"] 0 "custom" "bgm.mp3" = Some "".
Proof.
  split; [|split].
  - apply (get_bgm_file_cases (λ _, true) ["song.mp3"] 0 "custom" "bgm.mp3").
  - apply (get_bgm_file_cases (λ _, true) ["song.mp3"] 0 "custom" "bgm.mp3");
      [discriminate | discriminate | reflexivity].
  - apply (get_bgm_file_cases (λ _, false) ["song.mp3"] 0 "custom" "bgm.mp3");
      [discriminate | discriminate | right; reflexivity].
Defined.

(** ** Material preprocessing *)

(** Whatever happens to the materials, the list that is returned has as many
    entries as the one that was passed. *)
Lemma preprocess_video_length (vsize isize : string → option (Z * Z))
    (is_image ok : string → bool) (materials : list MaterialInfo) :
  ∀ out l, preprocess_video vsize isize is_image ok materials = (Returned out, l) →
           length out = length materials.
Proof.
  induction materials as [|m rest IH]; intros out l H; simpl in H.
  - by inversion H.
  - destruct (preprocess_material vsize isize is_image ok m) as [[m'|e] l1]; [|done].
    destruct (preprocess_video vsize isize is_image ok rest) as [[rest'|e] l2]; [|done].
    inversion H; subst. simpl. f_equal. by eapply IH.
Qed.

(** A material below 480 pixels in width or height stays as it is. *)
Lemma preprocess_material_low_resolution (vsize isize : string → option (Z * Z))
    (is_image ok : string → bool) (m : MaterialInfo) (width height : Z) :
  url m ≠ "" →
  vsize (url m) = Some (width, height) →
  (width < 480 ∨ height < 480)%Z →
  preprocess_material vsize isize is_image ok m
    = (Returned m, [LogWarning "low resolution material, minimum 480x480 required"]).
Proof.
  intros Hu Hsz Hlow. unfold preprocess_material.
  apply String.eqb_neq in Hu. rewrite Hu, Hsz.
  assert ((width <? 480) || (height <? 480) = true)%Z as ->; [|done].
  apply orb_true_iff. rewrite !Z.ltb_lt. done.
Qed.

(** C5 at a failing input: one 320x240 video. The warning is logged and
    nothing is raised, but the material is still in the list that is
    returned. *)
Theorem preprocess_video_keeps_low_resolution :
  preprocess_video (λ _, Some (320, 240)%Z) (λ _, None) (λ _, false) (λ _, true)
                   [Material "small.mp4"]
  = (Returned [Material "small.mp4"],
     [LogWarning "low resolution material, minimum 480x480 required"]).
Proof. reflexivity. Qed.

(** ** The job as a whole *)

Lemma py_div_by_length (a : Q) (l : list string) :
  l ≠ [] → py_div a (inject_Z (Z.of_nat (length l))) = Some (a / inject_Z (Z.of_nat (length l))).
Proof.
  intros Hne. unfold py_div.
  destruct (Qeq_dec (inject_Z (Z.of_nat (length l))) 0) as [H0|_]; [|done].
  exfalso. destruct l as [|x l]; [done|]. simpl length in H0.
  assert (0 < inject_Z (Z.of_nat (S (length l))))%Q as Hpos.
  { change 0%Q with (inject_Z 0). rewrite <- Zlt_Qlt. lia. }
  rewrite H0 in Hpos. by apply Qlt_irrefl in Hpos.
Qed.

Section CombineVideosFacts.
Variable VideoFileClip : string → option (Q * (Z * Z)).
Variable temp_clip_path : nat → Q → string.
Variable clip_encode_ok : nat → segment → bool.
Variable merge_ok : nat → bool.
Variable final_encode_ok : bool.

(** A source that cannot be opened costs one log entry and nothing else. *)
Lemma process_video_unreadable (fuel : nat) (mode : VideoConcatMode) (m : Q)
    (i : nat) (video_path : string) (st : job) :
  VideoFileClip video_path = None →
  process_video VideoFileClip temp_clip_path clip_encode_ok fuel mode m i video_path st
    = Some (log_to (LogError ("failed to process video file: " +:+ video_path)) st).
Proof. intros H. unfold process_video. by rewrite H. Qed.

(** A codec failure in the middle of a source keeps the sub-clips written
    before it and costs one log entry. *)
Lemma process_video_encode_failure (fuel : nat) (mode : VideoConcatMode) (m : Q)
    (i : nat) (video_path : string) (st : job) (D : Q) (w h : Z) (segs : list segment) :
  VideoFileClip video_path = Some (D, (w, h)) →
  h ≠ 0%Z →
  split_loop fuel (is_sequential mode) (clip_encode_ok i) m D 0 = Some (segs, Raised) →
  process_video VideoFileClip temp_clip_path clip_encode_ok fuel mode m i video_path st
    = Some (log_to (LogError ("failed to process video file: " +:+ video_path))
                   (foldl (record_clip temp_clip_path i) st segs)).
Proof.
  intros Hv Hh Hs. unfold process_video. rewrite Hv.
  apply Z.eqb_neq in Hh. rewrite Hh, Hs. reflexivity.
Qed.

(** C6, as the code has it. An error on one source (it cannot be opened,
    or a codec call fails part-way) is logged inside the loop, which goes
    on with the next source; and when no sub-clip survives, a warning is
    logged and [combined_video_path] is returned as on a successful run,
    with no file written there and no exception raised. *)
Theorem combine_videos_no_clips (combined_video_path : string)
    (video_paths : list string) (audio_duration : Q) (mode : VideoConcatMode)
    (m : Q) (fuel : nat) (rand : nat → nat) (st : job) :
  video_paths ≠ [] →
  process_videos VideoFileClip temp_clip_path clip_encode_ok fuel mode m 0 video_paths
                 (Job [] 0 ∅ []) = Some st →
  processed_clip_paths st = [] →
  combine_videos VideoFileClip temp_clip_path clip_encode_ok merge_ok final_encode_ok
                 combined_video_path video_paths audio_duration mode m fuel rand
    = Some (Returned combined_video_path,
            job_log st ++ [LogWarning "no usable video clips"], None) ∧
  (∀ i video_path rest st0,
      VideoFileClip video_path = None →
      process_videos VideoFileClip temp_clip_path clip_encode_ok fuel mode m i
                     (video_path :: rest) st0
      = process_videos VideoFileClip temp_clip_path clip_encode_ok fuel mode m (S i) rest
          (log_to (LogError ("failed to process video file: " +:+ video_path)) st0)) ∧
  (∀ i video_path rest st0 D w h segs,
      VideoFileClip video_path = Some (D, (w, h)) →
      h ≠ 0%Z →
      split_loop fuel (is_sequential mode) (clip_encode_ok i) m D 0 = Some (segs, Raised) →
      process_videos VideoFileClip temp_clip_path clip_encode_ok fuel mode m i
                     (video_path :: rest) st0
      = process_videos VideoFileClip temp_clip_path clip_encode_ok fuel mode m (S i) rest
          (log_to (LogError ("failed to process video file: " +:+ video_path))
                  (foldl (record_clip temp_clip_path i) st0 segs))).
Proof.
  intros Hne Hrun Hempty. split; [|split].
  - unfold combine_videos. rewrite (py_div_by_length _ _ Hne), Hrun. simpl.
    rewrite Hempty. by destruct mode.
  - intros i video_path rest st0 Hv. simpl.
    by rewrite (process_video_unreadable _ _ _ _ _ _ Hv).
  - intros i video_path rest st0 D w h segs Hv Hh Hs. simpl.
    by rewrite (process_video_encode_failure _ _ _ _ _ _ _ _ _ _ Hv Hh Hs).
Qed.
End CombineVideosFacts.

(** Three sources of 6 s each under a 5 s limit, sequential mode: one 5 s
    sub-clip per source, 15 s in all. *)
Example process_videos_sequential :
  (st ← process_videos (λ _, Some (6, (1080, 1920)%Z)) example_clip_path (λ _ _, true)
         3 sequential 5 0 ["a.mp4"; "b.mp4"; "c.mp4"] (Job [] 0 ∅ []);
   Some (processed_clip_paths st, video_duration st, job_log st))
  = Some (["clip_0_0.mp4"; "clip_1_0.mp4"; "clip_2_0.mp4"], 15, []).
Proof. vm_compute. reflexivity. Qed.

(** One source of 6 s under a 5 s limit, random mode: sub-clips of 5 s and
    1 s. *)
Example process_videos_random :
  (st ← process_videos (λ _, Some (6, (1080, 1920)%Z)) example_clip_path (λ _ _, true)
         3 random 5 0 ["a.mp4"] (Job [] 0 ∅ []);
   Some (processed_clip_paths st, (λ p, temp_files st !! p) <$> processed_clip_paths st))
  = Some (["clip_0_0.mp4"; "clip_0_5.mp4"], [Some 5; Some 1]).
Proof. vm_compute. reflexivity. Qed.

Lemma combine_videos_no_clips_witness :
  combine_videos (λ _, None) example_clip_path (λ _ _, true) (λ _, true) true
                 "final.mp4" ["a.mp4"; "b.mp4"] 10 random 5 8 (λ _, 0%nat)
  = Some (Returned "final.mp4",
          [LogError "failed to process video file: a.mp4";
           LogError "failed to process video file: b.mp4";
           LogWarning "no usable video clips"], None).
Proof.
  refine (proj1 (combine_videos_no_clips (λ _, None) example_clip_path (λ _ _, true)
                   (λ _, true) true "final.mp4" ["a.mp4"; "b.mp4"] 10 random 5 8
                   (λ _, 0%nat)
                   (Job [] 0 ∅ [LogError "failed to process video file: a.mp4";
                                LogError "failed to process video file: b.mp4"])
                   _ _ _)); [discriminate | reflexivity | reflexivity].
Defined.

(** C6 as stated fails: with one source that cannot be opened, the function
    returns the output path, exactly as the run below it in which the
    source is fine, and raises nothing; only the log and the missing file
    tell the two apart. *)
Lemma combine_videos_returns_quietly :
  combine_videos (λ _, None) example_clip_path (λ _ _, true) (λ _, true) true
                 "final.mp4" ["a.mp4"] 10 random 5 8 (λ _, 0%nat)
  = Some (Returned "final.mp4",
          [LogError "failed to process video file: a.mp4";
           LogWarning "no usable video clips"], None) ∧
  fst <$> combine_videos (λ _, Some (12, (1080, 1920)%Z)) example_clip_path (λ _ _, true)
                 (λ _, true) true "final.mp4" ["a.mp4"] 10 random 5 8 (λ _, 0%nat)
  = Some (Returned "final.mp4", []).
Proof. split; vm_compute; reflexivity. Qed.

(** ** Releasing clips *)

Lemma ext_refl (w : world) : ext w w.
Proof. split; [done|]. split; [done|]. intros x. repeat split; auto. Qed.

Lemma ext_trans (w1 w2 w3 : world) : ext w1 w2 → ext w2 w3 → ext w1 w3.
Proof.
  intros (Hf1 & Hc1 & Ho1) (Hf2 & Hc2 & Ho2).
  split; [congruence|]. split; [by etrans|]. intros x.
  destruct (Ho1 x) as (Hr1 & Ha1 & Hm1 & Hl1).
  destruct (Ho2 x) as (Hr2 & Ha2 & Hm2 & Hl2).
  split; [congruence|]. split; [|split].
  - destruct Ha2 as [Ha2|[Ha2 Hcl2]].
    + destruct Ha1 as [Ha1|[Ha1 Hcl1]]; [left; congruence|].
      right. split; [congruence|]. intros r Hr. apply Hc2. by apply Hcl1.
    + right. split; [done|]. intros r Hr.
      destruct Ha1 as [Ha1|[Ha1 Hcl1]].
      * apply Hcl2. by rewrite Ha1.
      * apply Hc2. by apply Hcl1.
  - destruct Hm2 as [Hm2|[Hm2 Hcl2]].
    + destruct Hm1 as [Hm1|[Hm1 Hcl1]]; [left; congruence|].
      right. split; [congruence|]. intros r Hr. apply Hc2. by apply Hcl1.
    + right. split; [done|]. intros r Hr.
      destruct Hm1 as [Hm1|[Hm1 Hcl1]].
      * apply Hcl2. by rewrite Hm1.
      * apply Hc2. by apply Hcl1.
  - by rewrite Hl2.
Qed.

Lemma obj_insert (m : gmap nat clip_obj) (cl fa : gset nat) (er : list log_entry)
    (c x : nat) (o : clip_obj) :
  obj (World (<[c := o]> m) cl fa er) x = if decide (c = x) then o else obj (World m cl fa er) x.
Proof.
  unfold obj. simpl. destruct (decide (c = x)) as [->|Hne].
  - by rewrite lookup_insert_eq.
  - by rewrite lookup_insert_ne.
Qed.

Lemma forward_ret {A} (a : A) : forward (m_ret a).
Proof. intros w w' r H. inversion H; subst. apply ext_refl. Qed.

Lemma forward_raise {A} (e : string) : forward (@m_raise A e).
Proof. intros w w' r H. inversion H; subst. apply ext_refl. Qed.

Lemma forward_bind {A B} (m : M A) (k : A → M B) :
  forward m → (∀ a, forward (k a)) → forward (m_bind m k).
Proof.
  intros Hm Hk w w' r H. unfold m_bind in H.
  destruct (m w) as [w1 [a|e]] eqn:Hmw.
  - eapply ext_trans; [by eapply Hm | by eapply Hk].
  - inversion H; subst. by eapply Hm.
Qed.

Lemma forward_try (body : M unit) (handler : string → M unit) :
  forward body → (∀ e, forward (handler e)) → forward (try_except body handler).
Proof.
  intros Hb Hh w w' r H. unfold try_except in H.
  destruct (body w) as [w1 [a|e]] eqn:Hbw.
  - inversion H; subst. by eapply Hb.
  - eapply ext_trans; [by eapply Hb | by eapply Hh].
Qed.

Lemma forward_get_obj (c : nat) : forward (get_obj c).
Proof. intros w w' r H. inversion H; subst. apply ext_refl. Qed.

Lemma forward_logger_error (msg : string) : forward (logger_error msg).
Proof.
  intros w w' r H. inversion H; subst. split; [done|]. split; [done|].
  intros x. unfold obj; simpl. repeat split; auto.
Qed.

(** What [reader.close()] on an attribute does. *)
Lemma close_reader_attr_spec (a : attr nat) (w w' : world) (r : result unit) :
  close_reader_attr a w = (w', r) →
  objects w' = objects w ∧ faulty w' = faulty w ∧ errors w' = errors w ∧
  closed w ⊆ closed w' ∧
  match r with
  | Returned _ => ∀ x, x ∈ attr_readers a → x ∈ closed w'
  | Raises _ => w' = w ∧ ∃ x, x ∈ attr_readers a ∧ x ∈ faulty w
  end.
Proof.
  destruct a as [| |x]; simpl;
    try (intros H; inversion H; subst; repeat split; try done;
         intros x Hx; by apply elem_of_nil in Hx).
  unfold reader_close. destruct (decide (x ∈ faulty w)) as [Hf|Hf];
    intros H; inversion H; subst; simpl.
  - repeat split; try done. exists x. split; [by apply list_elem_of_singleton | done].
  - repeat split; try done.
    + apply union_subseteq_r.
    + intros y Hy. apply list_elem_of_singleton in Hy as ->.
      apply elem_of_union_l. by apply elem_of_singleton.
Qed.

Lemma obj_same_objects (w w' : world) (x : nat) :
  objects w' = objects w → obj w' x = obj w x.
Proof. intros H. unfold obj. by rewrite H. Qed.

Lemma forward_close_reader_attr (a : attr nat) : forward (close_reader_attr a).
Proof.
  intros w w' r H. apply close_reader_attr_spec in H as (Ho & Hf & _ & Hc & _).
  split; [done|]. split; [done|]. intros x. rewrite (obj_same_objects _ _ _ Ho).
  repeat split; auto.
Qed.

Lemma forward_close_main (c : nat) : forward (close_main c).
Proof.
  apply forward_bind; [apply forward_get_obj|]. intros o. apply forward_close_reader_attr.
Qed.

Lemma forward_close_audio (c : nat) : forward (close_audio c).
Proof.
  intros w w' r H. unfold close_audio, m_bind, get_obj in H.
  destruct (audio (obj w c)) as [| |a] eqn:Ha;
    try (inversion H; subst; apply ext_refl).
  destruct (close_reader_attr (sub_reader a) w) as [w1 [[]|e]] eqn:Hcl.
  - apply close_reader_attr_spec in Hcl as (Ho & Hf & He & Hc & Hin).
    unfold set_obj in H. inversion H; subst; clear H.
    split; [done|]. split; [done|]. intros x. rewrite obj_insert.
    destruct w1 as [m1 c1 f1 e1]; simpl in *. subst m1.
    change (obj (World (objects w) c1 f1 e1) x) with (obj w x).
    destruct (decide (c = x)) as [->|Hne]; simpl.
    + split; [done|]. split; [|split; [by left | done]].
      right. split; [done|]. intros r Hr. rewrite Ha in Hr. simpl in Hr. by apply Hin.
    + repeat split; auto.
  - inversion H; subst. by eapply forward_close_reader_attr.
Qed.

Lemma forward_close_mask (c : nat) : forward (close_mask c).
Proof.
  intros w w' r H. unfold close_mask, m_bind, get_obj in H.
  destruct (mask (obj w c)) as [| |a] eqn:Ha;
    try (inversion H; subst; apply ext_refl).
  destruct (close_reader_attr (sub_reader a) w) as [w1 [[]|e]] eqn:Hcl.
  - apply close_reader_attr_spec in Hcl as (Ho & Hf & He & Hc & Hin).
    unfold set_obj in H. inversion H; subst; clear H.
    split; [done|]. split; [done|]. intros x. rewrite obj_insert.
    destruct w1 as [m1 c1 f1 e1]; simpl in *. subst m1.
    change (obj (World (objects w) c1 f1 e1) x) with (obj w x).
    destruct (decide (c = x)) as [->|Hne]; simpl.
    + split; [done|]. split; [by left|]. split; [|done].
      right. split; [done|]. intros r Hr. rewrite Ha in Hr. simpl in Hr. by apply Hin.
    + repeat split; auto.
  - inversion H; subst. by eapply forward_close_reader_attr.
Qed.

Lemma forward_clear_clips (c : nat) : forward (clear_clips c).
Proof.
  intros w w' r H. unfold clear_clips, m_bind, get_obj in H.
  assert (clips (obj w c) ≠ Absent →
          set_obj c (ClipObj (reader (obj w c)) (audio (obj w c)) (mask (obj w c)) (Value [])) w
            = (w', r) → ext w w') as Hset.
  { intros Hne Hs. unfold set_obj in Hs. inversion Hs; subst; clear Hs.
    split; [done|]. split; [done|]. intros x. rewrite obj_insert.
    destruct w as [m1 c1 f1 e1]; simpl in *.
    destruct (decide (c = x)) as [->|Hnx]; simpl.
    - repeat split; auto; done.
    - repeat split; auto. }
  destruct (clips (obj w c)) as [| |l] eqn:Hl.
  - inversion H; subst. apply ext_refl.
  - by apply Hset.
  - by apply Hset.
Qed.

Lemma forward_close_children (call : option nat → M unit) (c : nat)
    (children : list (option nat)) :
  (∀ child, forward (call child)) → forward (close_children call c children).
Proof.
  intros Hcall. induction children as [|child rest IH]; simpl.
  - apply forward_ret.
  - apply forward_bind; [|intros _; exact IH].
    destruct (decide (child = Some c)); [apply forward_ret | apply Hcall].
Qed.

Lemma forward_close_child_clips (call : option nat → M unit) (c : nat) :
  (∀ child, forward (call child)) → forward (close_child_clips call c).
Proof.
  intros Hcall. apply forward_bind; [apply forward_get_obj|]. intros o.
  destruct (clips o) as [| |[|child rest]]; try apply forward_ret.
  by apply forward_close_children.
Qed.

Lemma forward_close_clip_body (call : option nat → M unit) (c : nat) :
  (∀ child, forward (call child)) → forward (close_clip_body call c).
Proof.
  intros Hcall. unfold close_clip_body.
  apply forward_bind; [apply forward_close_main | intros _].
  apply forward_bind; [apply forward_close_audio | intros _].
  apply forward_bind; [apply forward_close_mask | intros _].
  apply forward_bind; [by apply forward_close_child_clips | intros _].
  apply forward_clear_clips.
Qed.

Lemma forward_close_clip (depth : nat) : ∀ clip, forward (close_clip depth clip).
Proof.
  induction depth as [|depth IH]; intros [c|]; simpl; try apply forward_ret.
  - apply forward_try; [|intros e; apply forward_logger_error].
    apply forward_close_clip_body. intros child. apply forward_raise.
  - apply forward_try; [|intros e; apply forward_logger_error].
    apply forward_close_clip_body. intros child. apply IH.
Qed.

(** The [except] clause swallows whatever the body raises. *)
Lemma close_clip_returns (depth : nat) (clip : option nat) (w : world) :
  ∃ w', close_clip depth clip w = (w', Returned ()).
Proof.
  destruct clip as [c|]; [|destruct depth; simpl; by eexists].
  assert (∀ body : M unit,
            ∃ w', try_except body (λ e, logger_error ("failed to close clip: " +:+ e)) w
                  = (w', Returned ())) as Htry.
  { intros body. unfold try_except. destruct (body w) as [w1 [[]|e]]; by eexists. }
  destruct depth; simpl; apply Htry.
Qed.

Lemma close_reader_attr_ok (a : attr nat) (w : world) :
  (∀ x, x ∈ attr_readers a → x ∉ faulty w) →
  ∃ w1, close_reader_attr a w = (w1, Returned ()) ∧
        objects w1 = objects w ∧ faulty w1 = faulty w ∧ closed w ⊆ closed w1 ∧
        ∀ x, x ∈ attr_readers a → x ∈ closed w1.
Proof.
  intros Hok. destruct (close_reader_attr a w) as [w1 [[]|e]] eqn:H.
  - apply close_reader_attr_spec in H as (Ho & Hf & _ & Hc & Hin). by exists w1.
  - apply close_reader_attr_spec in H as (_ & _ & _ & _ & _ & x & Hx & Hfx).
    by apply Hok in Hx.
Qed.

(** With readers that close, the first three blocks run through: they close
    every reader the object holds and leave its child list alone. *)
Lemma close_clip_body_steps (call : option nat → M unit) (c : nat) (w : world) :
  (∀ x, x ∈ own_readers (obj w c) → x ∉ faulty w) →
  ∃ w3,
    close_clip_body call c w = (close_child_clips call c ;; clear_clips c) w3 ∧
    ext w w3 ∧
    (∀ x, x ∈ own_readers (obj w c) → x ∈ closed w3) ∧
    clips (obj w3 c) = clips (obj w c).
Proof.
  intros Hok. unfold own_readers in Hok.
  (* the primary reader *)
  destruct (close_reader_attr_ok (reader (obj w c)) w) as (w1 & H1 & Ho1 & Hf1 & Hc1 & Hin1).
  { intros x Hx. apply Hok. apply elem_of_app. by left. }
  assert (close_main c w = (w1, Returned ())) as Hmain by exact H1.
  pose proof (forward_close_main c _ _ _ Hmain) as He1.
  pose proof (obj_same_objects w w1 c Ho1) as Hobj1.
  (* the audio *)
  assert (∃ w2, close_audio c w1 = (w2, Returned ()) ∧
                (∀ x, x ∈ sub_readers (audio (obj w c)) → x ∈ closed w2) ∧
                mask (obj w2 c) = mask (obj w c) ∧ reader (obj w2 c) = reader (obj w c) ∧
                clips (obj w2 c) = clips (obj w c)) as (w2 & Haudio & Hin2 & Hm2 & Hr2 & Hl2).
  { unfold close_audio, m_bind, get_obj. rewrite Hobj1.
    destruct (audio (obj w c)) as [| |a] eqn:Ha.
    - exists w1. rewrite Hobj1. repeat split; auto. intros x Hx. by apply elem_of_nil in Hx.
    - exists w1. rewrite Hobj1. repeat split; auto. intros x Hx. by apply elem_of_nil in Hx.
    - destruct (close_reader_attr_ok (sub_reader a) w1) as (w' & H' & Ho' & Hf' & Hc' & Hin').
      { intros x Hx. rewrite Hf1. apply Hok. rewrite ?Ha. simpl.
        apply elem_of_app. right. apply elem_of_app. by left. }
      rewrite H'. eexists. split; [reflexivity|]. rewrite obj_insert.
      rewrite decide_True by done. simpl. repeat split; auto. }
  pose proof (forward_close_audio c _ _ _ Haudio) as He2.
  (* the mask *)
  assert (∃ w3, close_mask c w2 = (w3, Returned ()) ∧
                (∀ x, x ∈ sub_readers (mask (obj w c)) → x ∈ closed w3) ∧
                clips (obj w3 c) = clips (obj w c)) as (w3 & Hmask & Hin3 & Hl3).
  { unfold close_mask, m_bind, get_obj. rewrite Hm2.
    destruct (mask (obj w c)) as [| |a] eqn:Ha.
    - exists w2. repeat split; auto. intros x Hx. by apply elem_of_nil in Hx.
    - exists w2. repeat split; auto. intros x Hx. by apply elem_of_nil in Hx.
    - destruct (close_reader_attr_ok (sub_reader a) w2) as (w' & H' & Ho' & Hf' & Hc' & Hin').
      { intros x Hx. destruct He2 as (Hf2 & _). rewrite Hf2, Hf1. apply Hok.
        rewrite ?Ha. simpl. apply elem_of_app. right. apply elem_of_app. by right. }
      rewrite H'. eexists. split; [reflexivity|]. rewrite obj_insert.
      rewrite decide_True by done. simpl. split; [exact Hin'|]. exact Hl2. }
  pose proof (forward_close_mask c _ _ _ Hmask) as He3.
  exists w3. split; [|split; [|split]].
  - unfold close_clip_body. unfold m_bind at 1. rewrite Hmain.
    unfold m_bind at 1. rewrite Haudio. unfold m_bind at 1. rewrite Hmask. reflexivity.
  - eapply ext_trans; [exact He1|]. eapply ext_trans; [exact He2 | exact He3].
  - intros x Hx. unfold own_readers in Hx.
    destruct He2 as (_ & Hc2 & _). destruct He3 as (_ & Hc3 & _).
    apply elem_of_app in Hx as [Hx|Hx]; [apply Hc3, Hc2; by apply Hin1|].
    apply elem_of_app in Hx as [Hx|Hx]; [apply Hc3; by apply Hin2 | by apply Hin3].
  - exact Hl3.
Qed.

(** The handler only writes to the log. *)
Lemma try_except_log (body : M unit) (msg : string → string) (w w' : world)
    (r : result unit) :
  try_except body (λ e, logger_error (msg e)) w = (w', r) →
  ∃ wb rb, body w = (wb, rb) ∧ closed w' = closed wb ∧ objects w' = objects wb ∧
           faulty w' = faulty wb ∧
           match rb with Returned _ => w' = wb | Raises _ => True end.
Proof.
  unfold try_except. destruct (body w) as [wb [[]|e]] eqn:Hb; intros H.
  - inversion H; subst. by exists w', (Returned ()).
  - unfold logger_error in H. inversion H; subst. by exists wb, (Raises e).
Qed.

(** The readers an object holds later are among those it held before, and
    the ones it no longer holds are closed. *)
Lemma ext_own_readers (w0 w : world) (y x : nat) :
  ext w0 w →
  (x ∈ own_readers (obj w y) → x ∈ own_readers (obj w0 y)) ∧
  (x ∈ own_readers (obj w0 y) → x ∈ own_readers (obj w y) ∨ x ∈ closed w).
Proof.
  intros (_ & _ & Ho). destruct (Ho y) as (Hr & Ha & Hm & _).
  unfold own_readers. rewrite Hr. rewrite !elem_of_app. split.
  - intros [H|[H|H]]; [by left | |].
    + destruct Ha as [Ha|[Ha _]]; rewrite Ha in H; [auto|]. by apply elem_of_nil in H.
    + destruct Hm as [Hm|[Hm _]]; rewrite Hm in H; [auto|]. by apply elem_of_nil in H.
  - intros [H|[H|H]]; [auto | |].
    + destruct Ha as [Ha|[_ Hcl]]; [rewrite Ha; auto | right; by apply Hcl].
    + destruct Hm as [Hm|[_ Hcl]]; [rewrite Hm; auto | right; by apply Hcl].
Qed.

(** A call on [y], made at any later point and at any depth, leaves every
    reader that [y] held at the start closed, provided those readers close. *)
Lemma close_clip_call_releases (depth : nat) (y : nat) (w0 w w' : world) (r : result unit) :
  ext w0 w →
  (∀ x, x ∈ own_readers (obj w0 y) → x ∉ faulty w0) →
  close_clip depth (Some y) w = (w', r) →
  released w0 w' y.
Proof.
  intros He Hok Hrun.
  set (call := λ child_clip : option nat,
         match depth with
         | O => m_raise "RecursionError"
         | S depth' => close_clip depth' child_clip
         end).
  assert (∀ child, forward (call child)) as Hcall.
  { intros child. unfold call. destruct depth; [apply forward_raise | apply forward_close_clip]. }
  assert (close_clip depth (Some y) w
          = try_except (close_clip_body call y)
              (λ e, logger_error ("failed to close clip: " +:+ e)) w) as Hunfold
    by (by destruct depth).
  rewrite Hunfold in Hrun.
  apply try_except_log in Hrun as (wb & rb & Hbody & Hcl & _).
  destruct (close_clip_body_steps call y w) as (w3 & Hsteps & He3 & Hin3 & _).
  { intros x Hx. apply (ext_own_readers w0 w y x He) in Hx.
    destruct He as (Hf & _). rewrite Hf. by apply Hok. }
  rewrite Hsteps in Hbody.
  assert (ext w3 wb) as Hrest.
  { eapply (forward_bind (close_child_clips call y) (λ _, clear_clips y)); [| |exact Hbody].
    - by apply forward_close_child_clips.
    - intros _. apply forward_clear_clips. }
  destruct Hrest as (_ & Hc & _). destruct He3 as (_ & Hc3 & _).
  intros x Hx. rewrite Hcl.
  destruct (proj2 (ext_own_readers w0 w y x He) Hx) as [Hown|Hclosed].
  - apply Hc. by apply Hin3.
  - apply Hc, Hc3, Hclosed.
Qed.

(** The loop over the children, each call made at depth [d]: it ends
    normally, and every child other than the clip itself is released. *)
Lemma close_children_released (d c : nat) (children : list (option nat)) (w0 : world) :
  ∀ w w' r,
    ext w0 w →
    close_children (close_clip d) c children w = (w', r) →
    r = Returned () ∧ ext w w' ∧
    ∀ y, Some y ∈ children → y ≠ c →
         (∀ x, x ∈ own_readers (obj w0 y) → x ∉ faulty w0) →
         released w0 w' y.
Proof.
  induction children as [|child rest IH]; intros w w' r He Hrun; simpl in Hrun.
  - inversion Hrun; subst. split; [done|]. split; [apply ext_refl|].
    intros y Hy. by apply elem_of_nil in Hy.
  - unfold m_bind in Hrun at 1.
    set (first := if decide (child = Some c) then m_ret () else close_clip d child) in Hrun.
    assert (∃ w1, first w = (w1, Returned ()) ∧ ext w w1 ∧
                  (child ≠ Some c → close_clip d child w = (w1, Returned ())))
      as (w1 & Hfirst & He1 & Hchild).
    { unfold first. destruct (decide (child = Some c)) as [Heq|Hne].
      - exists w. split; [done|]. split; [apply ext_refl | done].
      - destruct (close_clip_returns d child w) as [w1 Hw1]. exists w1.
        split; [done|]. split; [by eapply forward_close_clip | done]. }
    rewrite Hfirst in Hrun.
    destruct (IH w1 w' r (ext_trans _ _ _ He He1) Hrun) as (Hr & He2 & Hrel).
    split; [done|]. split; [by eapply ext_trans|].
    intros y Hy Hyc Hok. apply elem_of_cons in Hy as [Hy|Hy]; [|by apply Hrel].
    assert (released w0 w1 y) as Hy1.
    { eapply close_clip_call_releases; [exact He | exact Hok |].
      rewrite Hy. apply Hchild. rewrite <- Hy. congruence. }
    destruct He2 as (_ & Hc & _). intros x Hx. apply Hc. by apply Hy1.
Qed.

Lemma clear_clips_spec (c : nat) (w : world) :
  ∃ w', clear_clips c w = (w', Returned ()) ∧ closed w' = closed w ∧
        (clips (obj w c) ≠ Absent → clips (obj w' c) = Value []).
Proof.
  unfold clear_clips, m_bind, get_obj, set_obj.
  destruct (clips (obj w c)) as [| |l] eqn:Hl.
  - by exists w.
  - eexists. split; [reflexivity|]. split; [done|]. intros _.
    rewrite obj_insert. by rewrite decide_True.
  - eexists. split; [reflexivity|]. split; [done|]. intros _.
    rewrite obj_insert. by rewrite decide_True.
Qed.


Lemma world_eta (w : world) : World (objects w) (closed w) (faulty w) (errors w) = w.
Proof. by destruct w. Qed.












(* ===================================================================== *)
(** * Further properties *)
(* ===================================================================== *)

(** ** Letterboxing *)

Lemma Qfloor_lt_Z (x : Q) (z : Z) : x < inject_Z z → (Qfloor x < z)%Z.
Proof.
  intros H. apply inject_Z_lt_inv. eapply Qle_lt_trans; [apply Qfloor_le | exact H].
Qed.

Lemma Qfloor_le_Z (x : Q) (z : Z) : x <= inject_Z z → (Qfloor x <= z)%Z.
Proof.
  intros H. rewrite Zle_Qle. eapply Qle_trans; [apply Qfloor_le | exact H].
Qed.

Lemma Qfloor_nonneg (x : Q) : 0 <= x → (0 <= Qfloor x)%Z.
Proof. intros H. change 0%Z with (Qfloor (inject_Z 0)). by apply Qfloor_resp_le. Qed.

Lemma pow2_m52 : 2 ^ (-52) == 1 # 4503599627370496.
Proof. reflexivity. Qed.

(** On normal numbers the error is at most [2 ^ -52] of the value. *)
Lemma float_round_rel (q r : Q) :
  2 ^ (-1022) <= q → float_round q = Some r → Qabs (r - q) <= q * 2 ^ (-52).
Proof.
  intros Hq Hr.
  assert (0 < q) as Hpos by (pose proof (pow2_pos (-1022)); lra).
  pose proof (float_round_error q r Hpos Hr) as Herr.
  assert (2 ^ (-1075) == 2 ^ (-1022) * 2 ^ (-53)) as H1.
  { rewrite <- Qpower_plus by discriminate. reflexivity. }
  pose proof (pow2_succ (-53)) as H2. change (-53 + 1)%Z with (-52)%Z in H2.
  pose proof (pow2_pos (-53)) as H3.
  assert (2 ^ (-1022) * 2 ^ (-53) <= q * 2 ^ (-53)) as H4
    by (apply Qmult_le_compat_r; lra).
  rewrite H1 in Herr. rewrite H2.
  set (u := 2 ^ (-53)) in *. set (t := 2 ^ (-1022) * u) in *.
  assert (q * (2 * u) == 2 * (q * u)) as -> by ring.
  set (qu := q * u) in *. set (d := Qabs (r - q)) in *. lra.
Qed.

(** Sizes below [2 ^ 24]: a ratio of two of them is a normal float. *)
Lemma size_ratio_range (b c : Z) :
  (0 < b < 2 ^ 24)%Z → (0 < c < 2 ^ 24)%Z →
  2 ^ (-1022) <= inject_Z c / inject_Z b ∧ inject_Z c / inject_Z b < 2 ^ 24.
Proof.
  intros Hb Hc.
  assert (0 < inject_Z b) as Hb0 by (apply inject_Z_pos; lia).
  assert (2 ^ 24 == inject_Z (2 ^ 24)) as H24 by (apply pow2_Z; lia).
  assert (inject_Z b < 2 ^ 24) as Hb1 by (rewrite H24, <- Zlt_Qlt; lia).
  assert (inject_Z c < 2 ^ 24) as Hc1 by (rewrite H24, <- Zlt_Qlt; lia).
  assert (1 <= inject_Z b) as Hb2 by (change 1 with (inject_Z 1); rewrite <- Zle_Qle; lia).
  assert (1 <= inject_Z c) as Hc2 by (change 1 with (inject_Z 1); rewrite <- Zle_Qle; lia).
  split.
  - apply Qle_trans with (2 ^ (-24)).
    + apply Qpower_le_compat_l; [lia | discriminate].
    + apply Qle_shift_div_l; [exact Hb0|].
      assert (2 ^ (-24) * 2 ^ 24 == 1) as H1 by reflexivity.
      pose proof (pow2_pos (-24)) as Hp.
      apply Qle_trans with (2 ^ (-24) * 2 ^ 24); [apply Qmult_le_l; lra | lra].
  - apply Qlt_shift_div_r; [exact Hb0|].
    pose proof (pow2_pos 24) as Hp.
    apply Qlt_le_trans with (2 ^ 24 * 1); [lra | apply Qmult_le_l; lra].
Qed.

(** An int below [2 ^ 53] is a float. *)
Lemma float_of_int_exact (a : Z) :
  (0 <= a < 2 ^ 53)%Z → ∃ side, float_of_int a = Some side ∧ side == inject_Z a.
Proof.
  intros Ha. unfold float_of_int.
  destruct (float_round_between (inject_Z a)) as (side & Hside & Hlo & Hhi).
  - change 0 with (inject_Z 0). rewrite <- Zle_Qle. lia.
  - rewrite (pow2_Z 53) by lia. rewrite <- Zlt_Qlt. lia.
  - exists side. split; [exact Hside|]. rewrite Qfloor_Z in Hlo. rewrite Qceiling_Z in Hhi.
    apply Qle_antisym; assumption.
Qed.

(** A value closer than [1 / b] to a multiple [n / b] of [1 / b] has the
    same floor, unless [n / b] is a whole number and the value falls short
    of it. *)
Lemma floor_near_ratio (n b : Z) (p : Q) :
  (0 < b)%Z →
  Qabs (p - inject_Z n / inject_Z b) < 1 / inject_Z b →
  Qfloor p = Qfloor (inject_Z n / inject_Z b) ∨
  (inject_Z n / inject_Z b == inject_Z (Qfloor (inject_Z n / inject_Z b)) ∧
   Qfloor p = (Qfloor (inject_Z n / inject_Z b) - 1)%Z).
Proof.
  intros Hb Hnear.
  assert (0 < inject_Z b) as Hb0 by (apply inject_Z_pos; lia).
  set (E := inject_Z n / inject_Z b) in *.
  set (ib := 1 / inject_Z b) in *.
  assert (0 < ib) as Hib by (apply Qlt_shift_div_l; lra).
  assert (ib <= 1) as Hib1.
  { apply Qle_shift_div_r; [exact Hb0|]. rewrite Qmult_1_l.
    change 1 with (inject_Z 1). rewrite <- Zle_Qle. lia. }
  assert (E * inject_Z b == inject_Z n) as HEb by (unfold E; field; lra).
  assert (inject_Z b * ib == 1) as Hbib by (unfold ib; field; lra).
  assert (inject_Z n * ib == E) as HnE by (unfold E, ib; field; lra).
  apply Qabs_Qlt_condition in Hnear. destruct Hnear as [Hn1 Hn2].
  set (k := Qfloor E).
  pose proof (Qfloor_le E) as Hk1. pose proof (Qlt_floor E) as Hk2. fold k in Hk1, Hk2.
  rewrite inject_Z_plus in Hk2. change (inject_Z 1) with 1 in Hk2.
  assert (k * b <= n)%Z as Hz1.
  { rewrite Zle_Qle, inject_Z_mult, <- HEb. apply Qmult_le_compat_r; lra. }
  assert (n < (k + 1) * b)%Z as Hz2.
  { rewrite Zlt_Qlt, inject_Z_mult, inject_Z_plus, <- HEb. change (inject_Z 1) with 1.
    apply Qmult_lt_compat_r; lra. }
  assert (∀ z : Z, inject_Z z <= p → (z <= Qfloor p)%Z) as Hfl1.
  { intros z Hz. rewrite <- (Qfloor_Z z). by apply Qfloor_resp_le. }
  assert (∀ z : Z, p < inject_Z z → (Qfloor p < z)%Z) as Hfl2.
  { intros z Hz. apply Qfloor_lt_Z. exact Hz. }
  clearbody k ib E.
  destruct (Z.eq_dec n (k * b)) as [Heq|Hne].
  - assert (E == inject_Z k) as HEk.
    { apply (Qmult_inj_r _ _ (inject_Z b)); [lra|].
      rewrite HEb, Heq, inject_Z_mult. reflexivity. }
    assert (k - 1 <= Qfloor p)%Z.
    { apply Hfl1. replace (k - 1)%Z with (k + -1)%Z by lia.
      rewrite inject_Z_plus. change (inject_Z (-1)) with (-1). lra. }
    assert (Qfloor p < k + 1)%Z.
    { apply Hfl2. rewrite inject_Z_plus. change (inject_Z 1) with 1. lra. }
    destruct (Z.eq_dec (Qfloor p) k) as [->|Hnk]; [by left|].
    right. split; [exact HEk | lia].
  - left.
    assert (inject_Z k + ib <= E) as Hlo.
    { assert (k * b + 1 <= n)%Z as Hz by lia.
      rewrite Zle_Qle, inject_Z_plus, inject_Z_mult in Hz. change (inject_Z 1) with 1 in Hz.
      assert ((inject_Z k * inject_Z b + 1) * ib <= inject_Z n * ib) as Hm
        by (apply Qmult_le_compat_r; lra).
      assert ((inject_Z k * inject_Z b + 1) * ib == inject_Z k * (inject_Z b * ib) + ib) as Hr
        by ring.
      rewrite Hr, Hbib in Hm.
      rewrite HnE in Hm. lra. }
    assert (E <= inject_Z k + 1 - ib) as Hhi.
    { assert (n + 1 <= (k + 1) * b)%Z as Hz by lia.
      rewrite Zle_Qle, inject_Z_plus, inject_Z_mult, inject_Z_plus in Hz.
      change (inject_Z 1) with 1 in Hz.
      assert ((inject_Z n + 1) * ib <= (inject_Z k + 1) * inject_Z b * ib) as Hm
        by (apply Qmult_le_compat_r; lra).
      assert ((inject_Z k + 1) * inject_Z b * ib == (inject_Z k + 1) * (inject_Z b * ib)) as Hr
        by ring.
      rewrite Hr, Hbib in Hm.
      assert ((inject_Z n + 1) * ib == E + ib) as HnE' by (rewrite <- HnE; ring).
      rewrite HnE' in Hm. lra. }
    assert (k <= Qfloor p)%Z by (apply Hfl1; lra).
    assert (Qfloor p < k + 1)%Z.
    { apply Hfl2. rewrite inject_Z_plus. change (inject_Z 1) with 1. lra. }
    lia.
Qed.

(** [int(a * (c / b))] on floats, for sizes below [2 ^ 24]: the two
    roundings move the product by less than [1 / b] from the exact
    [a * c / b]. *)
Lemma scaled_side (a b c : Z) :
  (0 < a < 2 ^ 24)%Z → (0 < b < 2 ^ 24)%Z → (0 < c < 2 ^ 24)%Z →
  ∃ scale side product,
    float_div (inject_Z c) (inject_Z b) = Some scale ∧
    float_of_int a = Some side ∧
    float_mul side scale = Some product ∧
    (0 <= py_int product)%Z ∧
    floor_or_short (inject_Z a * (inject_Z c / inject_Z b)) (py_int product).
Proof.
  intros Ha Hb Hc.
  destruct (size_ratio_range b c Hb Hc) as [Hlo Hhi].
  assert (0 < inject_Z b) as Hb0 by (apply inject_Z_pos; lia).
  assert (0 < inject_Z a) as Ha0 by (apply inject_Z_pos; lia).
  assert (1 <= inject_Z a) as Ha1 by (change 1 with (inject_Z 1); rewrite <- Zle_Qle; lia).
  assert (inject_Z a <= 2 ^ 24) as Ha2.
  { rewrite (pow2_Z 24) by lia. rewrite <- Zle_Qle. lia. }
  set (ratio := inject_Z c / inject_Z b) in *.
  pose proof (pow2_pos (-1022)) as Hp1022.
  assert (0 < ratio) as Hr0 by lra.
  assert (2 ^ 24 < 2 ^ 53) as H2453 by (apply Qpower_lt_compat_l; [lia | reflexivity]).
  assert (2 ^ (-24) <= ratio) as Hr24.
  { unfold ratio. apply Qle_shift_div_l; [exact Hb0|].
    assert (inject_Z b <= 2 ^ 24) as Hb2.
    { rewrite (pow2_Z 24) by lia. rewrite <- Zle_Qle. lia. }
    assert (1 <= inject_Z c) by (change 1 with (inject_Z 1); rewrite <- Zle_Qle; lia).
    assert (2 ^ (-24) * 2 ^ 24 == 1) as H1 by reflexivity.
    pose proof (pow2_pos (-24)) as Hp.
    apply Qle_trans with (2 ^ (-24) * 2 ^ 24); [apply Qmult_le_l; lra | lra]. }
  (* the scale factor *)
  destruct (float_round_between ratio ltac:(lra) ltac:(lra)) as (scale & Hscale & _ & _).
  pose proof (float_round_rel ratio scale Hlo Hscale) as Hserr.
  (* the side as a float *)
  destruct (float_of_int_exact a) as (side & Hside & Hsa).
  { split; [lia|]. apply Z.lt_trans with (2 ^ 24)%Z; [lia | reflexivity]. }
  (* the product *)
  set (E := inject_Z a * ratio).
  set (y := side * scale).
  assert (0 < 2 ^ (-52)) as He0 by apply pow2_pos.
  assert (2 ^ (-52) <= 1 # 2) as He1 by (rewrite pow2_m52; discriminate).
  set (eps := 2 ^ (-52)) in *.
  assert (ratio <= E) as HrE.
  { unfold E. rewrite <- (Qmult_1_l ratio) at 1. apply Qmult_le_compat_r; lra. }
  assert (E < 2 ^ 48) as HE48.
  { assert (2 ^ 48 == 2 ^ 24 * 2 ^ 24) as -> by reflexivity.
    apply Qle_lt_trans with (2 ^ 24 * ratio).
    - unfold E. apply Qmult_le_compat_r; lra.
    - apply Qmult_lt_l; [apply pow2_pos | exact Hhi]. }
  assert (0 <= E * eps) as HEe by (apply Qmult_le_0_compat; lra).
  assert (E * eps <= E * (1 # 2)) as HEe1 by (apply Qmult_le_l; lra).
  assert (Qabs (scale - ratio) <= ratio * eps →
          E - E * eps <= y ∧ y <= E + E * eps) as Hy.
  { intros Habs. apply Qabs_Qle_condition in Habs. destruct Habs as [Hs1 Hs2].
    assert (y == inject_Z a * scale) as Hya by (unfold y; rewrite Hsa; reflexivity).
    split.
    - rewrite Hya.
      assert (inject_Z a * (ratio - ratio * eps) == E - E * eps) as <- by (unfold E; ring).
      apply Qmult_le_l; [exact Ha0 | lra].
    - rewrite Hya.
      assert (inject_Z a * (ratio + ratio * eps) == E + E * eps) as <- by (unfold E; ring).
      apply Qmult_le_l; [exact Ha0 | lra]. }
  destruct (Hy Hserr) as [Hy1 Hy2]. clear Hy.
  assert (2 ^ 48 + 2 ^ 48 < 2 ^ 53) as H4853 by reflexivity.
  assert (2 ^ (-1022) <= (1 # 2) * 2 ^ (-24)) as Hsmall.
  { assert ((1 # 2) * 2 ^ (-24) == 2 ^ (-25)) as -> by reflexivity.
    apply Qpower_le_compat_l; [lia | discriminate]. }
  assert (2 ^ (-1022) <= y ∧ y < 2 ^ 53) as [Hylo Hyhi].
  { set (Ee := E * eps) in *. set (Eh := E * (1 # 2)) in *.
    assert (Eh == (1 # 2) * E) as HEh by (unfold Eh; ring).
    set (t1 := 2 ^ (-1022)) in *. set (t2 := 2 ^ (-24)) in *.
    set (t3 := 2 ^ 48) in *. set (t4 := 2 ^ 53) in *. set (t5 := 2 ^ 24) in *.
    split; lra. }
  destruct (float_round_between y ltac:(lra) Hyhi) as (product & Hprod & Hplo & _).
  pose proof (float_round_rel y product Hylo Hprod) as Hperr. fold eps in Hperr.
  exists scale, side, product.
  split; [rewrite float_div_nonzero; [exact Hscale | lra]|].
  split; [exact Hside|]. split; [exact Hprod|].
  assert (0 <= product) as Hp0.
  { eapply Qle_trans; [|exact Hplo]. change 0 with (inject_Z 0). rewrite <- Zle_Qle.
    apply Qfloor_nonneg. lra. }
  rewrite (py_int_nonneg product Hp0).
  split; [by apply Qfloor_nonneg|].
  (* the distance to the exact product *)
  assert (Qabs (product - E) <= 3 * (E * eps)) as Hdist.
  { assert (y * eps <= 2 * (E * eps)) as Hye.
    { assert (2 * (E * eps) == (2 * E) * eps) as -> by ring.
      apply Qmult_le_compat_r; [|lra].
      set (Ee := E * eps) in *. set (Eh := E * (1 # 2)) in *.
      assert (Eh == (1 # 2) * E) as HEh by (unfold Eh; ring). lra. }
    apply Qabs_Qle_condition in Hperr. destruct Hperr as [Hp1 Hp2].
    apply Qabs_Qle_condition.
    set (Ee := E * eps) in *. set (ye := y * eps) in *. set (Eh := E * (1 # 2)) in *.
    split; lra. }
  assert (E == inject_Z (a * c) / inject_Z b) as HEn.
  { unfold E, ratio. rewrite inject_Z_mult. field. lra. }
  assert (3 * (E * eps) < 1 / inject_Z b) as Hsmall3.
  { apply Qlt_shift_div_l; [exact Hb0|].
    assert (3 * (E * eps) * inject_Z b == 3 * (inject_Z (a * c) * eps)) as ->
      by (rewrite HEn; field; lra).
    assert (inject_Z (a * c) < 2 ^ 48) as Hac.
    { rewrite (pow2_Z 48) by lia. rewrite <- Zlt_Qlt.
      assert (2 ^ 48 = 2 ^ 24 * 2 ^ 24)%Z as -> by reflexivity.
      apply Z.mul_lt_mono_nonneg; lia. }
    assert (inject_Z (a * c) * eps < 2 ^ 48 * eps) as Hm
      by (apply Qmult_lt_compat_r; [exact He0 | exact Hac]).
    assert (2 ^ 48 * eps == 1 # 16) as H16 by reflexivity.
    rewrite H16 in Hm. set (ne := inject_Z (a * c) * eps) in *. lra. }
  unfold floor_or_short.
  assert (Qfloor E = Qfloor (inject_Z (a * c) / inject_Z b)) as HfE by (by rewrite HEn).
  rewrite HfE, HEn.
  apply floor_near_ratio; [lia|].
  rewrite <- HEn. eapply Qle_lt_trans; [exact Hdist | exact Hsmall3].
Qed.

(** Two different ratios of sizes are too far apart to round to the same
    float or to change order. *)
Lemma size_ratio_order (w h W H : Z) :
  (0 < w < 2 ^ 24)%Z → (0 < h < 2 ^ 24)%Z → (0 < W < 2 ^ 24)%Z → (0 < H < 2 ^ 24)%Z →
  inject_Z w / inject_Z h < inject_Z W / inject_Z H →
  ∃ r1 r2,
    float_div (inject_Z w) (inject_Z h) = Some r1 ∧
    float_div (inject_Z W) (inject_Z H) = Some r2 ∧ r1 < r2.
Proof.
  intros Hw Hh HW HH Hlt.
  destruct (size_ratio_range h w Hh Hw) as [Halo Hahi].
  destruct (size_ratio_range H W HH HW) as [Hblo Hbhi].
  assert (0 < inject_Z h) as Hh0 by (apply inject_Z_pos; lia).
  assert (0 < inject_Z H) as HH0 by (apply inject_Z_pos; lia).
  assert (2 ^ 24 < 2 ^ 53) as H2453 by (apply Qpower_lt_compat_l; [lia | reflexivity]).
  pose proof (pow2_pos (-1022)) as Hp1022.
  set (X := inject_Z (w * H)). set (Y := inject_Z (W * h)).
  set (P := inject_Z h * inject_Z H).
  assert (0 < P) as HP by (apply Qmult_lt_0_compat; assumption).
  assert (inject_Z w / inject_Z h == X / P) as Ha.
  { unfold X, P. rewrite inject_Z_mult. field. lra. }
  assert (inject_Z W / inject_Z H == Y / P) as Hb.
  { unfold Y, P. rewrite inject_Z_mult. field. lra. }
  assert (X + 1 <= Y) as HXY.
  { assert (X < Y) as HXY'.
    { rewrite Ha, Hb in Hlt. unfold Qdiv in Hlt. apply Qmult_lt_r in Hlt; [exact Hlt|].
      by apply Qinv_lt_0_compat. }
    unfold X, Y in *. rewrite <- Zlt_Qlt in HXY'.
    change 1 with (inject_Z 1). rewrite <- inject_Z_plus, <- Zle_Qle. lia. }
  assert (∀ x y : Z, (0 < x < 2 ^ 24)%Z → (0 < y < 2 ^ 24)%Z →
                     0 <= inject_Z (x * y) ∧ inject_Z (x * y) < 2 ^ 48) as Hprod.
  { intros x y Hx Hy. split.
    - change 0 with (inject_Z 0). rewrite <- Zle_Qle. lia.
    - rewrite (pow2_Z 48) by lia. rewrite <- Zlt_Qlt.
      assert (2 ^ 48 = 2 ^ 24 * 2 ^ 24)%Z as -> by reflexivity.
      apply Z.mul_lt_mono_nonneg; lia. }
  destruct (Hprod w H Hw HH) as [HX0 HX48]. destruct (Hprod W h HW Hh) as [HY0 HY48].
  fold X in HX0, HX48. fold Y in HY0, HY48. clear Hprod.
  set (a := inject_Z w / inject_Z h) in *. set (b := inject_Z W / inject_Z H) in *.
  destruct (float_round_between a ltac:(lra) ltac:(lra)) as (r1 & Hr1 & _ & _).
  destruct (float_round_between b ltac:(lra) ltac:(lra)) as (r2 & Hr2 & _ & _).
  pose proof (float_round_rel a r1 Halo Hr1) as He1.
  pose proof (float_round_rel b r2 Hblo Hr2) as He2.
  exists r1, r2.
  split; [unfold a; rewrite float_div_nonzero; [exact Hr1 | lra]|].
  split; [unfold b; rewrite float_div_nonzero; [exact Hr2 | lra]|].
  apply Qabs_Qle_condition in He1. destruct He1 as [_ He1].
  apply Qabs_Qle_condition in He2. destruct He2 as [He2 _].
  assert (0 < 2 ^ (-52)) as He0 by apply pow2_pos.
  assert (2 ^ 48 * 2 ^ (-52) == 1 # 16) as H16 by reflexivity.
  set (eps := 2 ^ (-52)) in *.
  assert (a + a * eps < b - b * eps) as Hgap.
  { assert (a + a * eps == (X + X * eps) / P) as -> by (rewrite Ha; field; lra).
    assert (b - b * eps == (Y - Y * eps) / P) as -> by (rewrite Hb; field; lra).
    unfold Qdiv. apply Qmult_lt_compat_r; [by apply Qinv_lt_0_compat|].
    assert (X * eps <= 2 ^ 48 * eps) as HXe by (apply Qmult_le_compat_r; lra).
    assert (Y * eps <= 2 ^ 48 * eps) as HYe by (apply Qmult_le_compat_r; lra).
    rewrite H16 in HXe, HYe.
    set (Xe := X * eps) in *. set (Ye := Y * eps) in *. clearbody X Y Xe Ye. lra. }
  set (ae := a * eps) in *. set (be := b * eps) in *.
  clearbody a b ae be. lra.
Qed.

Lemma Qdiv_le_cross (a b c d : Q) : 0 < b → 0 < d → a / b <= c / d → a * d <= c * b.
Proof.
  intros Hb Hd Hle.
  assert (0 <= b * d) as Hbd by (apply Qmult_le_0_compat; lra).
  assert (a / b * (b * d) <= c / d * (b * d)) as Hm by (apply Qmult_le_compat_r; assumption).
  assert (a / b * (b * d) == a * d) as H1 by (field; lra).
  assert (c / d * (b * d) == c * b) as H2 by (field; lra).
  rewrite H1, H2 in Hm. exact Hm.
Qed.

(** For a clip and a canvas with positive sizes below [2 ^ 24], the resize
    step pins one side of the clip to the canvas. The other side is the
    exactly scaled side rounded down, or one pixel less than it when the
    exactly scaled side is a whole number (the float product can fall just
    short of it). Neither side exceeds the canvas. *)
Theorem fit_size_letterbox (clip_w clip_h video_width video_height : Z) :
  (0 < clip_w < 2 ^ 24)%Z → (0 < clip_h < 2 ^ 24)%Z →
  (0 < video_width < 2 ^ 24)%Z → (0 < video_height < 2 ^ 24)%Z →
  ∃ new_width new_height,
    fit_size clip_w clip_h video_width video_height = Some (new_width, new_height) ∧
    (0 <= new_width <= video_width)%Z ∧ (0 <= new_height <= video_height)%Z ∧
    ((new_width = video_width ∧
      floor_or_short (inject_Z clip_h * (inject_Z video_width / inject_Z clip_w))
                     new_height) ∨
     (new_height = video_height ∧
      floor_or_short (inject_Z clip_w * (inject_Z video_height / inject_Z clip_h))
                     new_width)).
Proof.
  intros Hw Hh HW HH.
  set (w := inject_Z clip_w). set (h := inject_Z clip_h).
  set (W := inject_Z video_width). set (H := inject_Z video_height).
  assert (0 < w) as Hw0 by (apply inject_Z_pos; lia).
  assert (0 < h) as Hh0 by (apply inject_Z_pos; lia).
  assert (0 < W) as HW0 by (apply inject_Z_pos; lia).
  assert (0 < H) as HH0 by (apply inject_Z_pos; lia).
  assert (2 ^ 24 < 2 ^ 53) as H2453 by (apply Qpower_lt_compat_l; [lia | reflexivity]).
  pose proof (pow2_pos (-1022)) as Hp1022.
  destruct (size_ratio_range clip_h clip_w Hh Hw) as [Halo Hahi].
  destruct (size_ratio_range video_height video_width HH HW) as [Hblo Hbhi].
  fold w h in Halo, Hahi. fold W H in Hblo, Hbhi.
  destruct (float_round_between (w / h) ltac:(lra) ltac:(lra)) as (cr & Hcr & _ & _).
  destruct (float_round_between (W / H) ltac:(lra) ltac:(lra)) as (vr & Hvr & _ & _).
  assert (float_div w h = Some cr) as Hcr' by (rewrite float_div_nonzero; [exact Hcr | lra]).
  assert (float_div W H = Some vr) as Hvr' by (rewrite float_div_nonzero; [exact Hvr | lra]).
  assert (∀ E n, floor_or_short E n → (n <= Qfloor E)%Z) as Hle.
  { intros E n [->|[_ ->]]; lia. }
  unfold fit_size. fold w h W H. rewrite Hcr', Hvr'. cbn [mbind option_bind].
  destruct (Qlt_le_dec vr cr) as [Hbranch|Hbranch].
  - (* the width is pinned *)
    destruct (scaled_side clip_h clip_w video_width Hh Hw HW)
      as (scale & side & product & Hscale & Hside & Hprod & Hnn & Hshape).
    fold W w in Hscale. fold h W w in Hshape.
    rewrite Hscale. cbn [mbind option_bind]. rewrite Hside. cbn [mbind option_bind].
    rewrite Hprod. cbn [mbind option_bind].
    eexists _, _. split; [reflexivity|]. split; [lia|]. split; [|left; by split].
    split; [exact Hnn|]. etrans; [apply (Hle _ _ Hshape)|].
    apply Qfloor_le_Z.
    (* the exact ratios are ordered as the float ones *)
    assert (W / H <= w / h) as Hexact.
    { destruct (Qlt_le_dec (w / h) (W / H)) as [Hlt|Hge]; [|exact Hge].
      destruct (size_ratio_order clip_w clip_h video_width video_height Hw Hh HW HH Hlt)
        as (r1 & r2 & Hr1 & Hr2 & Hr).
      fold w h in Hr1. fold W H in Hr2. rewrite Hcr' in Hr1. rewrite Hvr' in Hr2.
      inversion Hr1; inversion Hr2; subst. lra. }
    pose proof (Qdiv_le_cross W H w h HH0 Hh0 Hexact) as Hcross.
    assert (h * (W / w) == W * h / w) as -> by (field; lra).
    apply Qle_shift_div_r; [exact Hw0|]. change (W * h <= H * w).
    rewrite (Qmult_comm H w). exact Hcross.
  - (* the height is pinned *)
    destruct (scaled_side clip_w clip_h video_height Hw Hh HH)
      as (scale & side & product & Hscale & Hside & Hprod & Hnn & Hshape).
    fold H h in Hscale. fold w H h in Hshape.
    rewrite Hscale. cbn [mbind option_bind]. rewrite Hside. cbn [mbind option_bind].
    rewrite Hprod. cbn [mbind option_bind].
    eexists _, _. split; [reflexivity|]. split; [|split; [lia | right; by split]].
    split; [exact Hnn|]. etrans; [apply (Hle _ _ Hshape)|].
    apply Qfloor_le_Z.
    assert (w / h <= W / H) as Hexact.
    { destruct (Qlt_le_dec (W / H) (w / h)) as [Hlt|Hge]; [|exact Hge].
      destruct (size_ratio_order video_width video_height clip_w clip_h HW HH Hw Hh Hlt)
        as (r1 & r2 & Hr1 & Hr2 & Hr).
      fold W H in Hr1. fold w h in Hr2. rewrite Hvr' in Hr1. rewrite Hcr' in Hr2.
      inversion Hr1; inversion Hr2; subst. lra. }
    pose proof (Qdiv_le_cross w h W H Hh0 HH0 Hexact) as Hcross.
    assert (w * (H / h) == w * H / h) as -> by (field; lra).
    apply Qle_shift_div_r; [exact Hh0|]. exact Hcross.
Qed.

Lemma fit_size_letterbox_witness :
  fit_size 1070 1070 1080 1920 = Some (1080, 1079)%Z ∧
  ∃ new_width new_height,
    fit_size 1070 1070 1080 1920 = Some (new_width, new_height) ∧
    (0 <= new_width <= 1080)%Z ∧ (0 <= new_height <= 1920)%Z ∧
    ((new_width = 1080%Z ∧
      floor_or_short (inject_Z 1070 * (inject_Z 1080 / inject_Z 1070)) new_height) ∨
     (new_height = 1920%Z ∧
      floor_or_short (inject_Z 1070 * (inject_Z 1920 / inject_Z 1070)) new_width)).
Proof.
  split; [vm_compute; reflexivity|].
  apply (fit_size_letterbox 1070 1070 1080 1920); split; reflexivity.
Defined.

(** A clip that is no larger than the canvas is placed fully inside it: the
    offsets are not negative and the margins on the two sides differ by at
    most one pixel. *)
Theorem centre_offsets_centred (video_width video_height new_width new_height : Z) :
  (0 <= new_width <= video_width)%Z → (0 <= new_height <= video_height)%Z →
  let '(x_offset, y_offset) :=
    centre_offsets video_width video_height new_width new_height in
  (0 <= x_offset ∧ x_offset + new_width <= video_width ∧
   0 <= (video_width - new_width - x_offset) - x_offset <= 1 ∧
   0 <= y_offset ∧ y_offset + new_height <= video_height ∧
   0 <= (video_height - new_height - y_offset) - y_offset <= 1)%Z.
Proof.
  intros Hw Hh. unfold centre_offsets.
  pose proof (Z.div_mod (video_width - new_width) 2 ltac:(lia)).
  pose proof (Z.mod_pos_bound (video_width - new_width) 2 ltac:(lia)).
  pose proof (Z.div_mod (video_height - new_height) 2 ltac:(lia)).
  pose proof (Z.mod_pos_bound (video_height - new_height) 2 ltac:(lia)).
  lia.
Qed.

Lemma centre_offsets_centred_witness :
  let '(x_offset, y_offset) := centre_offsets 1080 1920 1080 607 in
  (0 <= x_offset ∧ x_offset + 1080 <= 1080 ∧
   0 <= (1080 - 1080 - x_offset) - x_offset <= 1 ∧
   0 <= y_offset ∧ y_offset + 607 <= 1920 ∧
   0 <= (1920 - 607 - y_offset) - y_offset <= 1)%Z.
Proof. apply (centre_offsets_centred 1080 1920 1080 607); lia. Defined.

(** ** More on the splitting loop *)

(** Under sequential mode the loop stops after its first sub-clip: a source
    of positive duration gives exactly one sub-clip, which starts at 0 and
    lasts [max_clip_duration] or the whole source, whichever is shorter. *)
Theorem split_loop_sequential (D m : Q) (fuel : nat) :
  0 < D → 0 < m → (1 ≤ fuel)%nat →
  ∃ seg,
    split_loop fuel true all_ok m D 0 = Some ([seg], Finished) ∧
    seg_start seg = 0 ∧
    seg_duration seg == py_min m D ∧
    seg_duration seg <= m ∧ seg_duration seg <= D.
Proof.
  intros HD Hm Hfuel. destruct fuel as [|fuel]; [lia|].
  cbn [split_loop all_ok]. destruct (Qlt_le_dec 0 D) as [_|Hle]; [|lra].
  eexists. split; [reflexivity|]. split; [reflexivity|].
  unfold seg_duration, py_min; cbn.
  destruct (Qlt_le_dec D (0 + m)), (Qlt_le_dec D m); repeat split; lra.
Qed.

Lemma split_loop_sequential_witness :
  ∃ seg,
    split_loop 1 true all_ok 5 6 0 = Some ([seg], Finished) ∧
    seg_start seg = 0 ∧
    seg_duration seg == py_min 5 6 ∧
    seg_duration seg <= 5 ∧ seg_duration seg <= 6.
Proof. apply (split_loop_sequential 6 5 1); [reflexivity | reflexivity | lia]. Defined.

(** Whatever the mode and whichever codec calls fail, the sub-clips that are
    emitted follow one another without gap or overlap from the start time,
    none is empty, none is longer than [max_clip_duration] and none reaches
    beyond the end of the source. *)
Theorem split_loop_chained (fuel : nat) (sequential : bool) (ok : segment → bool)
    (m D : Q) :
  0 < m →
  ∀ start segs e,
    split_loop fuel sequential ok m D start = Some (segs, e) →
    chained start segs ∧
    Forall (λ seg, 0 < seg_duration seg ∧ seg_duration seg <= m ∧ seg_end seg <= D) segs.
Proof.
  intros Hm. induction fuel as [|fuel IH]; intros start segs e Hrun; cbn in Hrun.
  - destruct (Qlt_le_dec start D); [discriminate|]. inversion Hrun; subst. by split.
  - destruct (Qlt_le_dec start D) as [Hlt|Hle]; [|inversion Hrun; subst; by split].
    set (seg := Segment start (py_min (start + m) D)) in *.
    assert (0 < seg_duration seg ∧ seg_duration seg <= m ∧ seg_end seg <= D) as Hseg.
    { unfold seg_duration, seg, py_min; cbn.
      destruct (Qlt_le_dec D (start + m)); repeat split; lra. }
    destruct (ok seg); [|inversion Hrun; subst; by split].
    destruct sequential.
    + inversion Hrun; subst. split; [by split | by constructor].
    + destruct (split_loop fuel false ok m D (py_min (start + m) D))
        as [[rest e']|] eqn:Hrest; [|discriminate].
      cbn in Hrun. inversion Hrun; subst.
      destruct (IH _ _ _ Hrest) as [Hch Hall].
      split; [by split | by constructor].
Qed.

Lemma split_loop_chained_witness :
  chained 0 [Segment 0 5; Segment 5 6] ∧
  Forall (λ seg, 0 < seg_duration seg ∧ seg_duration seg <= 5 ∧ seg_end seg <= 6)
         [Segment 0 5; Segment 5 6].
Proof.
  apply (split_loop_chained 2 false all_ok 5 6 ltac:(reflexivity) 0
           [Segment 0 5; Segment 5 6] Finished).
  vm_compute. reflexivity.
Defined.

(** With a [max_clip_duration] that is not positive, the random-mode loop
    never ends normally on a source of positive duration: the start time
    does not advance, so the loop goes on until a codec call raises. *)
Theorem split_loop_no_progress (fuel : nat) (ok : segment → bool) (m D start : Q) :
  m <= 0 → start < D →
  ∀ segs, split_loop fuel false ok m D start ≠ Some (segs, Finished).
Proof.
  intros Hm. revert start. induction fuel as [|fuel IH]; intros start Hlt segs Hrun;
    cbn in Hrun; destruct (Qlt_le_dec start D) as [_|Hle]; try lra; [discriminate|].
  destruct (ok _); [|discriminate].
  destruct (split_loop fuel false ok m D (py_min (start + m) D))
    as [[rest e']|] eqn:Hrest; [|discriminate].
  cbn in Hrun. inversion Hrun; subst.
  eapply (IH (py_min (start + m) D)); [|exact Hrest].
  unfold py_min. destruct (Qlt_le_dec D (start + m)); lra.
Qed.

Lemma split_loop_no_progress_witness :
  0 <= 0 ∧ 0 < 6 ∧ ∀ segs, split_loop 10 false all_ok 0 6 0 ≠ Some (segs, Finished).
Proof.
  split; [discriminate | split; [reflexivity |]].
  apply (split_loop_no_progress 10 all_ok 0 6 0); [discriminate | reflexivity].
Defined.

(** ** More on the reconciliation *)

(** Whatever the three durations are, when the stage goes through the final
    video is not longer than the narration was and the final narration is
    not longer than the final video. *)
Theorem reconcile_ordered (video_duration video_clip audio_clip v a : Q) :
  reconcile video_duration video_clip audio_clip = Some (v, a) →
  v <= audio_clip ∧ a <= v ∧ a <= audio_clip.
Proof.
  unfold reconcile. destruct (fix_video_duration _ _ _) as [v1|]; [|discriminate].
  cbn. intros H. inversion H; subst; clear H.
  unfold truncate_audio, truncate_video, subclip.
  destruct (Qlt_le_dec audio_clip v1);
    match goal with |- context [Qlt_le_dec ?x ?y] => destruct (Qlt_le_dec x y) end;
    repeat split; lra.
Qed.

Lemma reconcile_ordered_witness :
  reconcile 12 7 10 = Some (7, 7) ∧ (7 <= 10 ∧ 7 <= 7 ∧ 7 <= 10).
Proof.
  split; [reflexivity | apply (reconcile_ordered 12 7 10 7 7); reflexivity].
Defined.

(** ** More on the ordering *)

Lemma order_clips_perm (mode : VideoConcatMode) (rand : nat → nat)
    (paths : list string) (fuel : nat) :
  (length paths ≤ fuel)%nat →
  ∃ out, order_clips mode fuel rand paths = Some out ∧ out ≡ₚ paths.
Proof.
  intros Hfuel. destruct mode; [|by exists paths].
  destruct (decide (1 < length paths)%nat) as [Hlen|Hlen].
  - destruct (shuffle_paths_spec rand paths fuel Hlen Hfuel) as (out & Hrun & Hperm & _).
    by exists out.
  - exists paths. unfold order_clips. by rewrite decide_False.
Qed.

(** In either mode and for every list, the ordering block returns a
    rearrangement of its input: no path is lost, none is added, and no
    [random.choice] or index ever fails. *)
Theorem order_clips_permutation (mode : VideoConcatMode) (rand : nat → nat)
    (paths : list string) (fuel : nat) :
  (length paths ≤ fuel)%nat →
  ∃ out, order_clips mode fuel rand paths = Some out ∧ out ≡ₚ paths.
Proof. apply order_clips_perm. Qed.

Lemma order_clips_permutation_witness :
  ∃ out, order_clips random 4 (λ n, n) ["a"; "b"; "c"; "d"] = Some out ∧
         out ≡ₚ ["a"; "b"; "c"; "d"].
Proof.
  apply (order_clips_permutation random (λ n, n) ["a"; "b"; "c"; "d"] 4). simpl. lia.
Defined.

Lemma random_choice_singleton {A} (r : nat) (x : A) : random_choice r [x] = Some x.
Proof. unfold random_choice. cbn [length]. by rewrite Nat.mod_1_r. Qed.

(** The last iteration, from a state with one path left: the output ends in
    the first placed path only if the path before it is that path too. *)
Lemma shuffle_last_step (r : nat) (pre : list string) (t a : string) :
  ∃ u v,
    shuffle_step r (ShuffleState (pre ++ [t]) [a])
      = Some (ShuffleState ((pre ++ [u]) ++ [v]) []) ∧
    head ((pre ++ [u]) ++ [v]) = head (pre ++ [t]) ∧
    ∀ f, head (pre ++ [t]) = Some f → v = f → u = f.
Proof.
  assert (∀ (x s : string),
            (match filter (λ p, p ≠ s) [x] with
             | [] => [x]
             | _ :: _ => filter (λ p, p ≠ s) [x]
             end) = [x])
    as Hpool.
  { intros x s. rewrite filter_cons. by destruct (decide (x ≠ s)). }
  unfold shuffle_step, swap_last, swap_guard. simpl.
  assert (∃ f, (pre ++ [t]) !! 0%nat = Some f ∧ head (pre ++ [t]) = Some f) as (f & Hf & Hhd).
  { destruct pre; simpl; eauto. }
  rewrite Hf. simpl. destruct (bool_decide (a = f)) eqn:Hdec; simpl.
  - apply bool_decide_eq_true in Hdec as ->. rewrite last_snoc. simpl.
    rewrite length_app. simpl.
    replace (pred (length pre + 1)) with (length pre + 0)%nat by lia.
    rewrite insert_app_r. simpl. rewrite differing_snoc. simpl.
    exists f, t. split.
    + rewrite Hpool, random_choice_singleton. simpl. by rewrite decide_True.
    + split; [|intros f' Hf' _; congruence].
      rewrite Hhd. destruct pre; simpl in *; congruence.
  - apply bool_decide_eq_false in Hdec. rewrite differing_snoc. simpl.
    exists t, a. split.
    + rewrite Hpool, random_choice_singleton. simpl. by rewrite decide_True.
    + split; [|intros f' Hf' ->; congruence].
      destruct pre; reflexivity.
Qed.

Lemma swap_guard_many (shuffled : list string) (a b : string) (rest : list string) :
  swap_guard (ShuffleState shuffled (a :: b :: rest)) = Some false.
Proof. reflexivity. Qed.

(** Running the loop to its end from a state with at least one path left:
    the first placed path stays first, and the output ends in it only if the
    path before the last is that path too. *)
Lemma shuffle_iter_head_tail (rand : nat → nat) (q : nat) :
  ∀ (k : nat) (pre : list string) (t : string) (avail out : list string),
    length avail = S q →
    shuffle_iter (S q) rand k (ShuffleState (pre ++ [t]) avail) = Some (ShuffleState out []) →
    head out = head (pre ++ [t]) ∧
    ∀ f, head out = Some f → last out = Some f → out !! (length out - 2)%nat = Some f.
Proof.
  induction q as [|q IH]; intros k pre t avail out Hlen Hrun.
  - destruct avail as [|a [|? ?]]; try discriminate Hlen.
    destruct (shuffle_last_step (rand k) pre t a) as (u & v & Hstep & Hhd & Huv).
    cbn [shuffle_iter] in Hrun. rewrite Hstep in Hrun. cbn in Hrun.
    inversion Hrun; subst out; clear Hrun. split; [exact Hhd|].
    intros f Hf Hl. rewrite last_snoc in Hl. inversion Hl; subst v.
    rewrite Hhd in Hf. rewrite (Huv f Hf eq_refl).
    rewrite !length_app. simpl.
    replace (length pre + 1 + 1 - 2)%nat with (length pre) by lia.
    rewrite <- app_assoc. by apply list_lookup_middle.
  - destruct avail as [|a [|b rest]]; try discriminate Hlen.
    destruct (shuffle_step_snoc (rand k) pre t (a :: b :: rest) ltac:(done))
      as (t1 & x & av' & Hstep & Hlen' & _ & Hkeep & _).
    specialize (Hkeep (swap_guard_many _ _ _ _)). subst t1.
    change (shuffle_iter (S (S q)) rand k (ShuffleState (pre ++ [t]) (a :: b :: rest)))
      with (shuffle_step (rand k) (ShuffleState (pre ++ [t]) (a :: b :: rest))
              ≫= shuffle_iter (S q) rand (S k)) in Hrun.
    rewrite Hstep in Hrun. cbn [mbind option_bind] in Hrun.
    destruct (IH (S k) (pre ++ [t]) x av' out) as [Hhd Hprop].
    + simpl in Hlen, Hlen'. lia.
    + exact Hrun.
    + split; [|exact Hprop]. rewrite Hhd. destruct pre; reflexivity.
Qed.

(** The head/tail swap at work: the random-mode output ends in its own first
    path only when the path before the last is that path as well, that is,
    only when it could not be avoided at that point. *)
Theorem shuffle_paths_head_tail (rand : nat → nat) (paths : list string) (fuel : nat) :
  (1 < length paths)%nat → (length paths ≤ fuel)%nat →
  ∃ out,
    order_clips random fuel rand paths = Some out ∧
    ∀ f, head out = Some f → last out = Some f →
         out !! (length out - 2)%nat = Some f.
Proof.
  intros Hlen Hfuel.
  assert (paths ≠ []) as Hne by (destruct paths; [simpl in Hlen; lia | done]).
  destruct (random_choice_elem (rand 0%nat) paths Hne) as (first_clip & Hfirst & Hin).
  pose proof (py_remove_length first_clip paths Hin) as Hrem.
  destruct (length (py_remove first_clip paths)) as [|q] eqn:Hq; [lia|].
  destruct (shuffle_iter_spec rand (S q) 1 [] first_clip (py_remove first_clip paths) Hq)
    as (out & Hrun & Hloop & _).
  exists out. split.
  { unfold order_clips. rewrite decide_True by done.
    unfold shuffle_paths, shuffle_init. rewrite Hfirst. simpl.
    rewrite Hloop; [done | lia]. }
  eapply (shuffle_iter_head_tail rand q 1 [] first_clip); [exact Hq | exact Hrun].
Qed.

Lemma shuffle_paths_head_tail_witness :
  ∃ out,
    order_clips random 4 (λ _, 0%nat) ["a"; "b"; "c"; "a"] = Some out ∧
    ∀ f, head out = Some f → last out = Some f →
         out !! (length out - 2)%nat = Some f.
Proof.
  apply (shuffle_paths_head_tail (λ _, 0%nat) ["a"; "b"; "c"; "a"] 4); simpl; lia.
Defined.


(** ** More on the job as a whole *)

Lemma total_app (l1 l2 : list Q) : total (l1 ++ l2) == total l1 + total l2.
Proof.
  induction l1 as [|x l1 IH]; simpl.
  - change (total l2 == 0 + total l2). ring.
  - fold (total (l1 ++ l2)). fold (total l1). rewrite IH. ring.
Qed.

Lemma total_perm (l1 l2 : list Q) : l1 ≡ₚ l2 → total l1 == total l2.
Proof.
  induction 1 as [|x l1 l2 _ IH|x y l|l1 l2 l3 _ IH1 _ IH2]; simpl.
  - reflexivity.
  - fold (total l1). fold (total l2). by rewrite IH.
  - fold (total l). ring.
  - by rewrite IH1.
Qed.

Lemma durations_insert_fresh (files : gmap string Q) (p : string) (d : Q)
    (paths : list string) :
  p ∉ paths → durations (<[p := d]> files) paths = durations files paths.
Proof.
  intros Hp. unfold durations. apply list_fmap_ext. intros i q Hq.
  rewrite lookup_insert_ne; [done|]. intros ->. apply Hp.
  by eapply list_elem_of_lookup_2.
Qed.

Section CombineVideosMore.
Variable VideoFileClip : string → option (Q * (Z * Z)).
Variable temp_clip_path : nat → Q → string.
Variable clip_encode_ok : nat → segment → bool.
Variable merge_ok : nat → bool.
Variable final_encode_ok : bool.

Lemma record_clip_present (i : nat) (st : job) (seg : segment) :
  files_present st → files_present (record_clip temp_clip_path i st seg).
Proof.
  intros Hst p Hp. unfold record_clip in *. simpl in *.
  destruct (decide (temp_clip_path i (seg_start seg) = p)) as [->|Hne].
  - rewrite lookup_insert_eq. by eexists.
  - rewrite lookup_insert_ne by done. apply Hst.
    apply elem_of_app in Hp as [Hp|Hp]; [done|].
    apply list_elem_of_singleton in Hp. congruence.
Qed.

Lemma record_clip_accounted (i : nat) (st : job) (seg : segment) :
  duration_accounted st → duration_accounted (record_clip temp_clip_path i st seg).
Proof.
  intros Hst Hnd. unfold record_clip in *. simpl in *.
  apply NoDup_app in Hnd as (Hnd & Hfresh & _).
  unfold durations. rewrite fmap_app.
  fold (durations (<[temp_clip_path i (seg_start seg):=seg_duration seg]> (temp_files st))
                  (processed_clip_paths st)).
  rewrite total_app. rewrite durations_insert_fresh.
  - rewrite (Hst Hnd). simpl. rewrite lookup_insert_eq. simpl. ring.
  - intros Hin. eapply Hfresh; [exact Hin|]. by apply list_elem_of_singleton.
Qed.

Lemma record_clips_invariants (i : nat) (segs : list segment) :
  ∀ st, files_present st → duration_accounted st →
        files_present (foldl (record_clip temp_clip_path i) st segs) ∧
        duration_accounted (foldl (record_clip temp_clip_path i) st segs).
Proof.
  induction segs as [|seg segs IH]; intros st Hp Ha; simpl; [done|].
  apply IH; [by apply record_clip_present | by apply record_clip_accounted].
Qed.

Lemma process_video_invariants (fuel : nat) (mode : VideoConcatMode) (m : Q) (i : nat)
    (video_path : string) (st st' : job) :
  process_video VideoFileClip temp_clip_path clip_encode_ok fuel mode m i video_path st
    = Some st' →
  files_present st → duration_accounted st →
  files_present st' ∧ duration_accounted st'.
Proof.
  unfold process_video. intros Hrun Hp Ha.
  destruct (VideoFileClip video_path) as [[D [w h]]|]; [|by inversion Hrun; subst].
  destruct (h =? 0)%Z; [by inversion Hrun; subst|].
  destruct (split_loop fuel (is_sequential mode) (clip_encode_ok i) m D 0)
    as [[segs e]|]; [|discriminate].
  cbn in Hrun. inversion Hrun; subst; clear Hrun.
  destruct (record_clips_invariants i segs st Hp Ha) as [Hp' Ha'].
  by destruct e.
Qed.

Lemma process_videos_invariants (fuel : nat) (mode : VideoConcatMode) (m : Q)
    (video_paths : list string) :
  ∀ i st st',
    process_videos VideoFileClip temp_clip_path clip_encode_ok fuel mode m i video_paths st
      = Some st' →
    files_present st → duration_accounted st →
    files_present st' ∧ duration_accounted st'.
Proof.
  induction video_paths as [|p rest IH]; intros i st st' Hrun Hp Ha; simpl in Hrun.
  - by inversion Hrun; subst.
  - destruct (process_video VideoFileClip temp_clip_path clip_encode_ok fuel mode m i p st)
      as [st1|] eqn:H1; [|discriminate].
    cbn in Hrun. destruct (process_video_invariants _ _ _ _ _ _ _ H1 Hp Ha) as [Hp1 Ha1].
    by eapply IH.
Qed.

Lemma initial_job_invariants : files_present (Job [] 0 ∅ []) ∧ duration_accounted (Job [] 0 ∅ []).
Proof.
  split.
  - intros p Hp. by apply elem_of_nil in Hp.
  - intros _. reflexivity.
Qed.

Lemma process_videos_accounted (fuel : nat) (mode : VideoConcatMode) (m : Q)
    (video_paths : list string) (st : job) :
  process_videos VideoFileClip temp_clip_path clip_encode_ok fuel mode m 0 video_paths
                 (Job [] 0 ∅ []) = Some st →
  (∀ p, p ∈ processed_clip_paths st → is_Some (temp_files st !! p)) ∧
  (NoDup (processed_clip_paths st) →
   total (durations (temp_files st) (processed_clip_paths st)) == video_duration st).
Proof.
  intros Hrun. destruct initial_job_invariants as [Hp Ha].
  exact (process_videos_invariants _ _ _ _ _ _ _ Hrun Hp Ha).
Qed.

(** The bookkeeping of the processing loop: when it ends, every listed
    sub-clip has its temporary file, and, the listed paths being pairwise
    distinct, the files' durations add up to the recorded [video_duration]. *)
Theorem process_videos_bookkeeping (fuel : nat) (mode : VideoConcatMode) (m : Q)
    (video_paths : list string) (st : job) :
  process_videos VideoFileClip temp_clip_path clip_encode_ok fuel mode m 0 video_paths
                 (Job [] 0 ∅ []) = Some st →
  (∀ p, p ∈ processed_clip_paths st → is_Some (temp_files st !! p)) ∧
  (NoDup (processed_clip_paths st) →
   total (durations (temp_files st) (processed_clip_paths st)) == video_duration st).
Proof. apply process_videos_accounted. Qed.

Lemma sequential_split_length (fuel : nat) (ok : segment → bool) (m D start : Q)
    (segs : list segment) (e : loop_end) :
  split_loop fuel true ok m D start = Some (segs, e) → (length segs ≤ 1)%nat.
Proof.
  destruct fuel; cbn; destruct (Qlt_le_dec start D); try discriminate;
    try (intros H; inversion H; subst; simpl; lia).
  destruct (ok _); intros H; inversion H; subst; simpl; lia.
Qed.

Lemma record_clips_length (i : nat) (segs : list segment) :
  ∀ st, length (processed_clip_paths (foldl (record_clip temp_clip_path i) st segs))
        = (length (processed_clip_paths st) + length segs)%nat.
Proof.
  induction segs as [|seg segs IH]; intros st; simpl; [lia|].
  rewrite IH. simpl. rewrite length_app. simpl. lia.
Qed.

Lemma process_videos_sequential_length (fuel : nat) (m : Q) (video_paths : list string) :
  ∀ i st st',
    process_videos VideoFileClip temp_clip_path clip_encode_ok fuel sequential m i
                   video_paths st = Some st' →
    (length (processed_clip_paths st')
     ≤ length (processed_clip_paths st) + length video_paths)%nat.
Proof.
  induction video_paths as [|p rest IH]; intros i st st' Hrun; simpl in Hrun.
  - inversion Hrun; subst. lia.
  - destruct (process_video VideoFileClip temp_clip_path clip_encode_ok fuel sequential m i p st)
      as [st1|] eqn:H1; [|discriminate].
    cbn in Hrun. apply IH in Hrun.
    assert (length (processed_clip_paths st1) ≤ length (processed_clip_paths st) + 1)%nat.
    { unfold process_video in H1.
      destruct (VideoFileClip p) as [[D [w h]]|]; [|inversion H1; subst; simpl; lia].
      destruct (h =? 0)%Z; [inversion H1; subst; simpl; lia|].
      destruct (split_loop fuel (is_sequential sequential) (clip_encode_ok i) m D 0)
        as [[segs e]|] eqn:Hs; [|discriminate].
      cbn in H1. inversion H1; subst; clear H1.
      apply sequential_split_length in Hs.
      pose proof (record_clips_length i segs st) as Hl.
      destruct e; simpl; lia. }
    simpl. lia.
Qed.

(** Under sequential mode at most one sub-clip is kept per source. *)
Theorem process_videos_sequential_count (fuel : nat) (m : Q) (video_paths : list string)
    (st : job) :
  process_videos VideoFileClip temp_clip_path clip_encode_ok fuel sequential m 0
                 video_paths (Job [] 0 ∅ []) = Some st →
  (length (processed_clip_paths st) ≤ length video_paths)%nat.
Proof. intros Hrun. apply process_videos_sequential_length in Hrun. simpl in Hrun. lia. Qed.

Lemma load_batch_present (files : gmap string Q) (batch : list string) :
  (∀ p, p ∈ batch → is_Some (files !! p)) →
  load_batch files batch = Some (durations files batch).
Proof.
  unfold load_batch, durations. induction batch as [|p batch IH]; intros Hall; [done|].
  destruct (Hall p ltac:(by left)) as [d Hd].
  cbn. rewrite Hd. cbn. rewrite IH; [done|]. intros q Hq. apply Hall. by right.
Qed.

(** When every batch goes through, the merged file lasts as long as all the
    clips together, and nothing is logged. *)
Lemma merge_batches_all (files : gmap string Q) (rest : list string) :
  (∀ i, merge_ok i = true) →
  (∀ i merged log,
      (∀ p, p ∈ rest → is_Some (files !! p)) →
      ∃ merged', merge_batches merge_ok files i rest merged log = (merged', log) ∧
                 merged' == merged + total (durations files rest)) ∧
  (∀ p0 i merged log,
      (∀ p, p ∈ p0 :: rest → is_Some (files !! p)) →
      ∃ merged', merge_batches merge_ok files i (p0 :: rest) merged log = (merged', log) ∧
                 merged' == merged + total (durations files (p0 :: rest))).
Proof.
  intros Hok. induction rest as [|p1 rest [IH0 IH1]].
  - split.
    + intros i merged log _. exists merged. split; [done|]. simpl. ring.
    + intros p0 i merged log Hall. simpl. unfold merge_batch. rewrite Hok.
      rewrite load_batch_present by done. eexists. split; [reflexivity|].
      unfold concatenate_videoclips. simpl. reflexivity.
  - split; [apply IH1|].
    intros p0 i merged log Hall.
    cbn [merge_batches]. unfold merge_batch. rewrite Hok.
    rewrite load_batch_present.
    2:{ intros p Hp. apply Hall. apply elem_of_cons in Hp as [->|Hp]; [by left|].
        apply list_elem_of_singleton in Hp as ->. right. by left. }
    destruct (IH0 (i + 2)%nat (concatenate_videoclips (merged :: durations files [p0; p1])) log)
      as (merged' & Hrun & Hsum).
    { intros p Hp. apply Hall. right. by right. }
    exists merged'. split; [exact Hrun|].
    rewrite Hsum. unfold concatenate_videoclips. simpl.
    fold (total (durations files rest)). ring.
Qed.

Lemma merge_batches_sum (files : gmap string Q) (rest : list string) (i : nat)
    (merged : Q) (log : list log_entry) :
  (∀ i, merge_ok i = true) →
  (∀ p, p ∈ rest → is_Some (files !! p)) →
  ∃ merged', merge_batches merge_ok files i rest merged log = (merged', log) ∧
             merged' == merged + total (durations files rest).
Proof. intros Hok Hall. by apply (merge_batches_all files rest Hok). Qed.

(** When every batch goes through and every file is there, the merged file
    lasts as long as the first clip and all the clips merged onto it
    together, and nothing is logged. *)
Theorem merge_batches_complete (files : gmap string Q) (rest : list string) (i : nat)
    (merged : Q) (log : list log_entry) :
  (∀ i, merge_ok i = true) →
  (∀ p, p ∈ rest → is_Some (files !! p)) →
  ∃ merged', merge_batches merge_ok files i rest merged log = (merged', log) ∧
             merged' == merged + total (durations files rest).
Proof. apply merge_batches_sum. Qed.

(** What the outcome is when the function ends. *)
Lemma combine_videos_ends (combined_video_path : string) (video_paths : list string)
    (audio_duration : Q) (mode : VideoConcatMode) (m : Q) (fuel : nat) (rand : nat → nat)
    (r : result string) (log : list log_entry) (final : option Q) :
  combine_videos VideoFileClip temp_clip_path clip_encode_ok merge_ok final_encode_ok
                 combined_video_path video_paths audio_duration mode m fuel rand
    = Some (r, log, final) →
  (video_paths = [] ∧ r = Raises "ZeroDivisionError" ∧ final = None) ∨
  (video_paths ≠ [] ∧ r = Returned combined_video_path).
Proof.
  intros Hrun. destruct video_paths as [|vp vps].
  { left. vm_compute in Hrun. by inversion Hrun. }
  right. split; [done|]. unfold combine_videos in Hrun.
  rewrite py_div_by_length in Hrun by done.
  destruct (process_videos VideoFileClip temp_clip_path clip_encode_ok fuel mode m 0
              (vp :: vps) (Job [] 0 ∅ [])) as [st|] eqn:Hproc; [|discriminate].
  cbn [mbind option_bind] in Hrun.
  destruct (process_videos_accounted _ _ _ _ _ Hproc) as [Hpresent _].
  destruct (order_clips_perm mode rand (processed_clip_paths st)
              (length (processed_clip_paths st)) ltac:(lia)) as (out & Hord & Hperm).
  rewrite Hord in Hrun.
  assert (∀ p, p ∈ out → is_Some (temp_files st !! p)) as Hout.
  { intros p Hp. apply Hpresent. by rewrite <- Hperm. }
  destruct out as [|first [|second rest]].
  - by inversion Hrun.
  - destruct (Hout first ltac:(by left)) as [d Hd]. rewrite Hd in Hrun. by inversion Hrun.
  - destruct (Hout first ltac:(by left)) as [d Hd]. rewrite Hd in Hrun.
    destruct (merge_batches merge_ok (temp_files st) 1 (second :: rest) d (job_log st))
      as [merged log'].
    destruct (reconcile (video_duration st) merged audio_duration) as [[v a]|];
      [destruct final_encode_ok|]; by inversion Hrun.
Qed.

(** The function ends as soon as the processing loop does. *)
Lemma combine_videos_runs (combined_video_path : string) (video_paths : list string)
    (audio_duration : Q) (mode : VideoConcatMode) (m : Q) (fuel : nat) (rand : nat → nat)
    (st : job) :
  process_videos VideoFileClip temp_clip_path clip_encode_ok fuel mode m 0 video_paths
                 (Job [] 0 ∅ []) = Some st →
  ∃ r log final,
    combine_videos VideoFileClip temp_clip_path clip_encode_ok merge_ok final_encode_ok
                   combined_video_path video_paths audio_duration mode m fuel rand
      = Some (r, log, final).
Proof.
  intros Hproc. unfold combine_videos.
  destruct (py_div audio_duration (inject_Z (Z.of_nat (length video_paths)))) as [req_dur|];
    [|by eexists _, _, _].
  rewrite Hproc. cbn [mbind option_bind].
  destruct (order_clips mode (length (processed_clip_paths st)) rand
              (processed_clip_paths st)) as [[|first [|second rest]]|];
    try by eexists _, _, _.
  - destruct (temp_files st !! first) as [d|]; by eexists _, _, _.
  - destruct (temp_files st !! first) as [d|]; [|by eexists _, _, _].
    destruct (merge_batches merge_ok (temp_files st) 1 (second :: rest) d (job_log st))
      as [merged log'].
    destruct (reconcile (video_duration st) merged audio_duration) as [[v a]|];
      [destruct final_encode_ok|]; by eexists _, _, _.
Qed.

(** With a positive [max_clip_duration] a splitting loop ends, whatever
    fails in it: [n] iterations are enough when [n] pieces of that length
    cover what is left of the source. *)
Lemma split_loop_ends (b : bool) (ok : segment → bool) (m D : Q) (n : nat) :
  0 < m →
  ∀ (start : Q) (fuel : nat),
    D - start <= inject_Z (Z.of_nat n) * m → (n ≤ fuel)%nat →
    ∃ segs e, split_loop fuel b ok m D start = Some (segs, e).
Proof.
  intros Hm. induction n as [|n IH]; intros start fuel Hleft Hfuel.
  - change (inject_Z (Z.of_nat 0)) with 0 in Hleft.
    exists [], Finished. apply split_loop_stop. lra.
  - destruct (Qlt_le_dec start D) as [Hlt|Hge];
      [|exists [], Finished; by apply split_loop_stop].
    destruct fuel as [|fuel]; [lia|].
    cbn [split_loop]. destruct (Qlt_le_dec start D) as [_|Hle]; [|lra].
    destruct (ok _); [|by eexists _, _].
    destruct b; [by eexists _, _|].
    destruct (IH (py_min (start + m) D) fuel) as (segs & e & Hrun); [|lia|].
    + rewrite Nat2Z.inj_succ in Hleft. unfold Z.succ in Hleft.
      rewrite inject_Z_plus in Hleft. change (inject_Z 1) with 1 in Hleft.
      assert (0 <= inject_Z (Z.of_nat n) * m) as Hnm.
      { apply Qmult_le_0_compat; [|lra]. change 0 with (inject_Z 0). rewrite <- Zle_Qle. lia. }
      unfold py_min. destruct (Qlt_le_dec D (start + m)); lra.
    + rewrite Hrun. cbn. by eexists _, _.
Qed.

Lemma split_loop_ends_from_zero (b : bool) (ok : segment → bool) (m D : Q) (fuel : nat) :
  0 < m → (Z.to_nat (Qceiling (D / m)) ≤ fuel)%nat →
  ∃ segs e, split_loop fuel b ok m D 0 = Some (segs, e).
Proof.
  intros Hm Hfuel. apply (split_loop_ends b ok m D (Z.to_nat (Qceiling (D / m))) Hm);
    [|exact Hfuel].
  destruct (ceiling_bounds D m Hm) as [_ Hhi].
  destruct (Z.le_gt_cases 0 (Qceiling (D / m))) as [Hc|Hc].
  - rewrite Z2Nat.id by exact Hc. lra.
  - rewrite Z2Nat.nonpos by lia. change (inject_Z (Z.of_nat 0)) with 0.
    assert (inject_Z (Qceiling (D / m)) * m <= 0 * m); [|lra].
    apply Qmult_le_compat_r; [|lra]. change 0 with (inject_Z 0). rewrite <- Zle_Qle. lia.
Qed.

(** So does the processing loop. *)
Lemma process_videos_ends (mode : VideoConcatMode) (m : Q) (video_paths : list string) :
  0 < m →
  ∃ fuel0 : nat, ∀ (fuel : nat) (i : nat) (st : job),
    (fuel0 ≤ fuel)%nat →
    ∃ st', process_videos VideoFileClip temp_clip_path clip_encode_ok fuel mode m i
                          video_paths st = Some st'.
Proof.
  intros Hm. induction video_paths as [|video_path rest (fuel_rest & IH)].
  { exists 0%nat. intros. by eexists. }
  assert (∃ fuel_one : nat, ∀ (fuel : nat) (i : nat) (st : job),
            (fuel_one ≤ fuel)%nat →
            ∃ st', process_video VideoFileClip temp_clip_path clip_encode_ok fuel mode m i
                                 video_path st = Some st') as (fuel_one & Hone).
  { unfold process_video. destruct (VideoFileClip video_path) as [[D [w h]]|].
    - exists (Z.to_nat (Qceiling (D / m))). intros fuel i st Hfuel.
      destruct (h =? 0)%Z; [by eexists|].
      destruct (split_loop_ends_from_zero (is_sequential mode) (clip_encode_ok i) m D fuel
                  Hm Hfuel) as (segs & e & ->).
      cbn. by eexists.
    - exists 0%nat. intros. by eexists. }
  exists (fuel_one `max` fuel_rest)%nat. intros fuel i st Hfuel.
  cbn [process_videos].
  destruct (Hone fuel i st ltac:(lia)) as (st1 & ->). cbn.
  apply IH. lia.
Qed.

(** How combine_videos ends. With a positive [max_clip_duration] it does
    end, whatever fails on the way: it raises when [video_paths] is empty
    (the division by [len(video_paths)]) and only then; on any other input it
    returns [combined_video_path]. *)
Theorem combine_videos_outcome (combined_video_path : string) (video_paths : list string)
    (audio_duration : Q) (mode : VideoConcatMode) (m : Q) (rand : nat → nat) :
  0 < m →
  ∃ fuel0 : nat, ∀ fuel : nat, (fuel0 ≤ fuel)%nat →
    ∃ r log final,
      combine_videos VideoFileClip temp_clip_path clip_encode_ok merge_ok final_encode_ok
                     combined_video_path video_paths audio_duration mode m fuel rand
        = Some (r, log, final) ∧
      ((video_paths = [] ∧ r = Raises "ZeroDivisionError" ∧ final = None) ∨
       (video_paths ≠ [] ∧ r = Returned combined_video_path)).
Proof.
  intros Hm. destruct (process_videos_ends mode m video_paths Hm) as (fuel0 & Hends).
  exists fuel0. intros fuel Hfuel.
  destruct (Hends fuel 0%nat (Job [] 0 ∅ []) Hfuel) as (st & Hproc).
  destruct (combine_videos_runs combined_video_path video_paths audio_duration mode m fuel
              rand st Hproc) as (r & log & final & Hrun).
  exists r, log, final. split; [exact Hrun|]. by eapply combine_videos_ends.
Qed.

(** The reconciliation when the loaded file lasts what was recorded. *)
Lemma reconcile_accounted (N acc v : Q) :
  0 < N → 0 < acc → N / acc < 2 ^ 53 → v == acc →
  ∃ v2 a3, reconcile acc v N = Some (v2, a3) ∧ v2 == N ∧ a3 == N.
Proof.
  intros HN Hacc Hlt Hv.
  assert (∃ v1, fix_video_duration acc N v = Some v1 ∧ N <= v1) as (v1 & Hfix & Hge).
  { unfold fix_video_duration. destruct (Qlt_le_dec acc N) as [Hlt'|Hle].
    - destruct (float_quotient_count N acc ltac:(lra) Hacc Hlt) as (q & n & _ & -> & _ & Hlo & _).
      cbn. eexists. split; [reflexivity|]. apply Qlt_le_weak.
      apply (repeated_video_covers N acc v n); try lra. exact Hlo.
    - exists v. split; [reflexivity | lra]. }
  unfold reconcile. rewrite Hfix. cbn. eexists _, _. split; [reflexivity|].
  unfold truncate_audio, truncate_video, subclip.
  destruct (Qlt_le_dec N v1);
    match goal with |- context [Qlt_le_dec ?x ?y] => destruct (Qlt_le_dec x y) end;
    split; lra.
Qed.

(** End to end: with at least two sub-clips under pairwise distinct paths,
    every batch merged and the final encode going through, the file at
    [combined_video_path] lasts exactly as long as the narration. Beyond
    what the processing loop logged, the log holds the warning that the
    video is looped when the sub-clips add up to less than the narration,
    and nothing else. *)
Theorem combine_videos_matches_narration (combined_video_path : string)
    (video_paths : list string) (audio_duration : Q) (mode : VideoConcatMode) (m : Q)
    (fuel : nat) (rand : nat → nat) (st : job) :
  process_videos VideoFileClip temp_clip_path clip_encode_ok fuel mode m 0 video_paths
                 (Job [] 0 ∅ []) = Some st →
  video_paths ≠ [] →
  (1 < length (processed_clip_paths st))%nat →
  NoDup (processed_clip_paths st) →
  (∀ i, merge_ok i = true) →
  final_encode_ok = true →
  0 < audio_duration →
  0 < video_duration st →
  audio_duration / video_duration st < 2 ^ 53 →
  ∃ v,
    combine_videos VideoFileClip temp_clip_path clip_encode_ok merge_ok final_encode_ok
                   combined_video_path video_paths audio_duration mode m fuel rand
      = Some (Returned combined_video_path,
              job_log st ++
                (if Qlt_le_dec (video_duration st) audio_duration
                 then [LogWarning "video shorter than audio, looping the video"]
                 else []),
              Some v) ∧
    v == audio_duration.
Proof.
  intros Hproc Hne Hlen Hnd Hmerge Hfinal HN HV Hquot.
  unfold combine_videos. rewrite py_div_by_length by done. rewrite Hproc.
  cbn [mbind option_bind].
  destruct (process_videos_accounted _ _ _ _ _ Hproc) as [Hpresent Hsum].
  specialize (Hsum Hnd).
  destruct (order_clips_perm mode rand (processed_clip_paths st)
              (length (processed_clip_paths st)) ltac:(lia)) as (out & Hord & Hperm).
  rewrite Hord.
  assert (∀ p, p ∈ out → is_Some (temp_files st !! p)) as Hout.
  { intros p Hp. apply Hpresent. by rewrite <- Hperm. }
  assert (total (durations (temp_files st) out) == video_duration st) as Hsum'.
  { rewrite <- Hsum. apply total_perm. unfold durations. by rewrite Hperm. }
  apply Permutation_length in Hperm.
  destruct out as [|first [|second rest]]; [simpl in Hperm; lia | simpl in Hperm; lia |].
  destruct (Hout first ltac:(by left)) as [d Hd]. rewrite Hd.
  destruct (merge_batches_sum (temp_files st) (second :: rest) 1 d (job_log st) Hmerge)
    as (merged & Hrun & Hmerged).
  { intros p Hp. apply Hout. by right. }
  rewrite Hrun.
  assert (merged == video_duration st) as Hacc.
  { rewrite Hmerged, <- Hsum'. unfold durations at 2. cbn [fmap list_fmap total foldr].
    rewrite Hd. simpl. reflexivity. }
  destruct (reconcile_accounted audio_duration (video_duration st) merged HN HV Hquot Hacc)
    as (v2 & a3 & Hrec & Hv2 & _).
  rewrite Hrec, Hfinal. by exists v2.
Qed.
End CombineVideosMore.

Lemma combine_videos_matches_narration_witness :
  ∃ v,
    combine_videos (λ _, Some (6, (1080, 1920)%Z)) example_clip_path (λ _ _, true)
                   (λ _, true) true "final.mp4" ["a.mp4"; "b.mp4"] 20 sequential 5 8
                   (λ _, 0%nat)
      = Some (Returned "final.mp4",
              [LogWarning "video shorter than audio, looping the video"], Some v) ∧
    v == 20.
Proof.
  apply (combine_videos_matches_narration (λ _, Some (6, (1080, 1920)%Z)) example_clip_path
           (λ _ _, true) (λ _, true) true "final.mp4" ["a.mp4"; "b.mp4"] 20 sequential 5 8
           (λ _, 0%nat)
           (Job ["clip_0_0.mp4"; "clip_1_0.mp4"] 10
                (<["clip_1_0.mp4" := 5]> (<["clip_0_0.mp4" := 5]> ∅)) [])).
  - vm_compute. reflexivity.
  - discriminate.
  - simpl. lia.
  - simpl. apply NoDup_cons. split; [|apply NoDup_singleton].
    rewrite list_elem_of_singleton. discriminate.
  - reflexivity.
  - reflexivity.
  - reflexivity.
  - reflexivity.
  - reflexivity.
Defined.

(** A single source no longer than [max_clip_duration]: its one sub-clip is
    copied to [combined_video_path] as it is. The result lasts as long as
    the source, whatever the narration lasts: the reconciliation is not
    reached. *)
Theorem combine_videos_single_clip (VideoFileClip : string → option (Q * (Z * Z)))
    (temp_clip_path : nat → Q → string) (clip_encode_ok : nat → segment → bool)
    (merge_ok : nat → bool) (final_encode_ok : bool)
    (combined_video_path video_path : string) (audio_duration : Q)
    (mode : VideoConcatMode) (m D : Q) (w h : Z) (fuel : nat) (rand : nat → nat) :
  VideoFileClip video_path = Some (D, (w, h)) →
  h ≠ 0%Z →
  0 < D → D <= m →
  (∀ seg, clip_encode_ok 0%nat seg = true) →
  (1 ≤ fuel)%nat →
  ∃ d,
    combine_videos VideoFileClip temp_clip_path clip_encode_ok merge_ok final_encode_ok
                   combined_video_path [video_path] audio_duration mode m fuel rand
      = Some (Returned combined_video_path, [], Some d) ∧
    d == D.
Proof.
  intros Hv Hh HD Hm Hok Hfuel.
  assert (split_loop fuel (is_sequential mode) (clip_encode_ok 0%nat) m D 0
          = Some ([Segment 0 (py_min (0 + m) D)], Finished)) as Hsplit.
  { destruct fuel as [|fuel]; [lia|]. cbn [split_loop].
    destruct (Qlt_le_dec 0 D) as [_|?]; [|lra]. rewrite Hok.
    destruct (is_sequential mode); [done|].
    rewrite split_loop_stop; [done|].
    unfold py_min. destruct (Qlt_le_dec D (0 + m)); lra. }
  unfold combine_videos. rewrite py_div_by_length by done.
  cbn [process_videos]. unfold process_video. rewrite Hv.
  apply Z.eqb_neq in Hh. rewrite Hh, Hsplit. cbn.
  assert (order_clips mode 1 rand [temp_clip_path 0%nat 0]
          = Some [temp_clip_path 0%nat 0]) as -> by (by destruct mode).
  rewrite lookup_insert_eq. eexists. split; [reflexivity|].
  unfold seg_duration, py_min; cbn. destruct (Qlt_le_dec D (0 + m)); lra.
Qed.

Lemma combine_videos_single_clip_witness :
  ∃ d,
    combine_videos (λ _, Some (4, (1080, 1920)%Z)) example_clip_path (λ _ _, true)
                   (λ _, true) true "final.mp4" ["a.mp4"] 30 random 5 3 (λ _, 0%nat)
      = Some (Returned "final.mp4", [], Some d) ∧
    d == 4.
Proof.
  apply (combine_videos_single_clip (λ _, Some (4, (1080, 1920)%Z)) example_clip_path
           (λ _ _, true) (λ _, true) true "final.mp4" "a.mp4" 30 random 5 4 1080 1920 3
           (λ _, 0%nat)); try reflexivity; try discriminate; lia.
Defined.

Lemma process_videos_bookkeeping_witness :
  (∀ p, p ∈ ["clip_0_0.mp4"; "clip_0_5.mp4"] →
        is_Some ((<["clip_0_5.mp4" := 1]> (<["clip_0_0.mp4" := 5]> (∅ : gmap string Q))) !! p)) ∧
  (NoDup ["clip_0_0.mp4"; "clip_0_5.mp4"] →
   total (durations (<["clip_0_5.mp4" := 1]> (<["clip_0_0.mp4" := 5]> ∅))
                    ["clip_0_0.mp4"; "clip_0_5.mp4"]) == 6).
Proof.
  pose proof (process_videos_bookkeeping (λ _, Some (6, (1080, 1920)%Z)) example_clip_path
                (λ _ _, true) 3 random 5 ["a.mp4"]
                (Job ["clip_0_0.mp4"; "clip_0_5.mp4"] 6
                     (<["clip_0_5.mp4" := 1]> (<["clip_0_0.mp4" := 5]> ∅)) [])) as H.
  cbn [processed_clip_paths temp_files video_duration] in H.
  apply H. vm_compute. reflexivity.
Defined.

Lemma process_videos_sequential_count_witness :
  (length ["clip_0_0.mp4"; "clip_1_0.mp4"] ≤ length ["a.mp4"; "b.mp4"])%nat.
Proof.
  apply (process_videos_sequential_count (λ _, Some (6, (1080, 1920)%Z)) example_clip_path
           (λ _ _, true) 3 5 ["a.mp4"; "b.mp4"]
           (Job ["clip_0_0.mp4"; "clip_1_0.mp4"] 10
                (<["clip_1_0.mp4" := 5]> (<["clip_0_0.mp4" := 5]> ∅)) [])).
  vm_compute. reflexivity.
Defined.

Lemma merge_batches_complete_witness :
  ∃ merged',
    merge_batches (λ _, true) (<["b" := 2]> (<["c" := 3]> (<["d" := 4]> ∅))) 1
                  ["b"; "c"; "d"] 1 [] = (merged', []) ∧
    merged' == 1 + total (durations (<["b" := 2]> (<["c" := 3]> (<["d" := 4]> ∅)))
                                    ["b"; "c"; "d"]).
Proof.
  apply (merge_batches_complete (λ _, true) (<["b" := 2]> (<["c" := 3]> (<["d" := 4]> ∅)))
           ["b"; "c"; "d"] 1 1 []); [done|].
  intros p Hp.
  repeat (apply elem_of_cons in Hp as [->|Hp]; [by simplify_map_eq|]).
  by apply elem_of_nil in Hp.
Defined.

Lemma combine_videos_outcome_witness :
  ∃ fuel0 : nat, ∀ fuel : nat, (fuel0 ≤ fuel)%nat →
    ∃ r log final,
      combine_videos (λ _, Some (12, (1080, 1920)%Z)) example_clip_path (λ _ _, true)
                     (λ _, false) true "final.mp4" ["a.mp4"; "b.mp4"] 10 random 5 fuel
                     (λ _, 0%nat)
        = Some (r, log, final) ∧
      ((["a.mp4"; "b.mp4"] = [] ∧ r = Raises "ZeroDivisionError" ∧ final = None) ∨
       (["a.mp4"; "b.mp4"] ≠ [] ∧ r = Returned "final.mp4")).
Proof.
  apply (combine_videos_outcome (λ _, Some (12, (1080, 1920)%Z)) example_clip_path
           (λ _ _, true) (λ _, false) true "final.mp4" ["a.mp4"; "b.mp4"] 10 random 5
           (λ _, 0%nat)).
  reflexivity.
Defined.

(** ** Subtitle placement *)

(** Under the custom policy the text clip is kept at least 10 pixels below
    the top edge, and, when it is not taller than the canvas less the two
    margins, its lower edge is kept at least 10 pixels above the bottom
    edge, whatever [custom_position] is. *)
Theorem subtitle_y_custom_on_screen (video_height clip_h : Z) (custom_position : Q) :
  ∃ y,
    subtitle_y "custom" video_height clip_h custom_position = AtY y ∧
    10 <= y ∧
    ((clip_h + 20 <= video_height)%Z → y + inject_Z clip_h <= inject_Z video_height - 10).
Proof.
  unfold subtitle_y. cbn [String.eqb]. simpl.
  eexists. split; [reflexivity|].
  set (c := inject_Z (video_height - clip_h) * (custom_position / 100)).
  unfold py_max, py_min.
  assert (inject_Z (video_height - clip_h - 10)
          == inject_Z video_height - inject_Z clip_h - 10) as E.
  { unfold Z.sub. rewrite !inject_Z_plus, !inject_Z_opp. reflexivity. }
  change (inject_Z 10) with 10.
  split.
  - destruct (Qlt_le_dec (inject_Z (video_height - clip_h - 10)) c);
      match goal with |- context [Qlt_le_dec ?x ?y] => destruct (Qlt_le_dec x y) end; lra.
  - intros Hfit.
    assert (10 <= inject_Z (video_height - clip_h - 10)) as Hroom.
    { change 10 with (inject_Z 10). rewrite <- Zle_Qle. lia. }
    destruct (Qlt_le_dec (inject_Z (video_height - clip_h - 10)) c);
      match goal with |- context [Qlt_le_dec ?x ?y] => destruct (Qlt_le_dec x y) end; lra.
Qed.

Lemma subtitle_y_custom_on_screen_witness :
  ∃ y,
    subtitle_y "custom" 1920 100 70 = AtY y ∧
    10 <= y ∧ y + inject_Z 100 <= inject_Z 1920 - 10.
Proof.
  destruct (subtitle_y_custom_on_screen 1920 100 70) as (y & Hy & Hlo & Hhi).
  exists y. split; [exact Hy|]. split; [exact Hlo|]. apply Hhi. lia.
Defined.

(** ** Removing files *)

(** delete_files removes exactly the named files that exist and can be
    removed: a path is there afterwards if and only if it was there before
    and is either not named or cannot be removed. A file that is missing or
    cannot be removed does not keep the others from being removed. *)
Theorem delete_files_spec (locked : gset string) (files : files_arg) (fs : gset string)
    (p : string) :
  p ∈ delete_files locked files fs ↔
  p ∈ fs ∧ (p ∉ files_named files ∨ p ∈ locked).
Proof.
  unfold delete_files. fold (files_named files).
  generalize (files_named files) as l. clear files. intros l. revert fs.
  induction l as [|f l IH]; intros fs; simpl.
  - split; [intros H; split; [done|]; left; by apply not_elem_of_nil | tauto].
  - rewrite IH. unfold os_remove.
    destruct (decide (f ∈ fs ∧ f ∉ locked)) as [[Hin Hnl]|Hno]; simpl.
    + rewrite elem_of_difference, elem_of_singleton, not_elem_of_cons. split.
      * intros [[Hp Hne] [Hnot|Hl]]; (split; [done|]); [left; tauto | by right].
      * intros [Hp [[Hne Hnot]|Hl]].
        -- split; [done|]. by left.
        -- split; [split; [done|]; intros ->; done | by right].
    + rewrite not_elem_of_cons. split.
      * intros [Hp [Hnot|Hl]]; (split; [done|]); [|by right].
        destruct (decide (p = f)) as [->|Hne]; [|left; tauto].
        right. destruct (decide (f ∈ locked)); [done|]. exfalso. by apply Hno.
      * intros [Hp [[Hne Hnot]|Hl]]; (split; [done|]); [by left | by right].
Qed.

(** ** More on the background music *)

(** With type random and no usable file of its own, the music is drawn from
    the song directory: the result is one of its mp3 files, and with no mp3
    file there the call raises (the IndexError of [random.choice]). *)
Theorem get_bgm_file_random (path_exists : string → bool) (song_files : list string)
    (r : nat) (bgm_file : string) :
  bgm_file = "" ∨ path_exists bgm_file = false →
  (song_files = [] → get_bgm_file path_exists song_files r "random" bgm_file = None) ∧
  (song_files ≠ [] →
   ∃ song, get_bgm_file path_exists song_files r "random" bgm_file = Some song ∧
           song ∈ song_files).
Proof.
  intros Hno.
  assert (get_bgm_file path_exists song_files r "random" bgm_file
          = random_choice r song_files) as ->.
  { unfold get_bgm_file. cbn [String.eqb]. simpl.
    destruct Hno as [->|Hno]; [done|]. rewrite Hno. by rewrite andb_false_r. }
  split.
  - intros ->. unfold random_choice. by destruct r.
  - intros Hne. by apply random_choice_elem.
Qed.

Lemma get_bgm_file_random_witness :
  get_bgm_file (λ _, false) [] 3 "random" "bgm.mp3" = None ∧
  ∃ song, get_bgm_file (λ _, false) ["a.mp3"; "b.mp3"] 3 "random" "bgm.mp3" = Some song ∧
          song ∈ ["a.mp3"; "b.mp3"].
Proof.
  split.
  - apply (get_bgm_file_random (λ _, false) [] 3 "bgm.mp3"); [by right | done].
  - apply (get_bgm_file_random (λ _, false) ["a.mp3"; "b.mp3"] 3 "bgm.mp3");
      [by right | done].
Defined.

(** ** More on material preprocessing *)

(** When preprocess_video returns, the list it returns matches the one it
    was given entry by entry: each material is either untouched or, being
    an image of at least 480 by 480 pixels, has ".mp4" appended to
    its url. Nothing is dropped, added or reordered. *)
Theorem preprocess_video_entries (vsize isize : string → option (Z * Z))
    (is_image ok : string → bool) (materials out : list MaterialInfo)
    (log : list log_entry) :
  preprocess_video vsize isize is_image ok materials = (Returned out, log) →
  Forall2 (λ m m',
             m' = m ∨
             (url m' = url m +:+ ".mp4" ∧ is_image (url m) = true ∧
              ok (url m +:+ ".mp4") = true ∧
              ∃ width height,
                (vsize (url m) = Some (width, height) ∨
                 (vsize (url m) = None ∧ isize (url m) = Some (width, height))) ∧
                (480 <= width ∧ 480 <= height)%Z))
          materials out.
Proof.
  revert out log. induction materials as [|m rest IH]; intros out log H; simpl in H.
  - inversion H; subst. constructor.
  - destruct (preprocess_material vsize isize is_image ok m) as [[m'|e] l1] eqn:Hm; [|done].
    destruct (preprocess_video vsize isize is_image ok rest) as [[rest'|e] l2]; [|done].
    inversion H; subst; clear H. constructor; [|by eapply IH].
    unfold preprocess_material in Hm.
    destruct (String.eqb (url m) ""); [inversion Hm; by left|].
    destruct (match vsize (url m) with Some size => Some size | None => isize (url m) end)
      as [[width height]|] eqn:Hsz; [|done].
    destruct ((width <? 480) || (height <? 480))%Z eqn:Hlow; [inversion Hm; by left|].
    destruct (is_image (url m)) eqn:Himg; [|inversion Hm; by left].
    destruct (ok (url m +:+ ".mp4")) eqn:Hok; [|done].
    inversion Hm; subst; clear Hm. right. simpl.
    apply orb_false_iff in Hlow as [Hw Hh]. apply Z.ltb_ge in Hw, Hh.
    split; [done|]. split; [done|]. split; [done|]. exists width, height.
    split; [|done]. destruct (vsize (url m)); [by left | by right].
Qed.

Lemma preprocess_video_entries_witness :
  Forall2 (λ m m',
             m' = m ∨
             (url m' = url m +:+ ".mp4" ∧ String.eqb (url m) "pic.png" = true ∧
              true = true ∧
              ∃ width height,
                (None = Some (width, height) ∨
                 ((None : option (Z * Z)) = None ∧ Some (800, 600)%Z = Some (width, height))) ∧
                (480 <= width ∧ 480 <= height)%Z))
          [Material "pic.png"; Material "clip.mp4"]
          [Material "pic.png.mp4"; Material "clip.mp4"].
Proof.
  apply (preprocess_video_entries (λ _, None) (λ _, Some (800, 600)%Z)
           (λ u, String.eqb u "pic.png") (λ _, true)
           [Material "pic.png"; Material "clip.mp4"]
           [Material "pic.png.mp4"; Material "clip.mp4"] []).
  vm_compute. reflexivity.
Defined.

(** ** More on releasing clips *)

Lemma close_audio_detaches (c : nat) (w w2 : world) :
  close_audio c w = (w2, Returned ()) → ∀ a, audio (obj w2 c) ≠ Value a.
Proof.
  unfold close_audio, m_bind, get_obj. intros H a.
  destruct (audio (obj w c)) as [| |a0] eqn:Ha.
  - inversion H; subst. by rewrite Ha.
  - inversion H; subst. by rewrite Ha.
  - destruct (close_reader_attr (sub_reader a0) w) as [w1 [[]|e]]; [|done].
    unfold set_obj in H. inversion H; subst. rewrite obj_insert.
    by rewrite decide_True.
Qed.

Lemma close_mask_detaches (c : nat) (w w2 : world) :
  close_mask c w = (w2, Returned ()) → ∀ a, mask (obj w2 c) ≠ Value a.
Proof.
  unfold close_mask, m_bind, get_obj. intros H a.
  destruct (mask (obj w c)) as [| |a0] eqn:Ha.
  - inversion H; subst. by rewrite Ha.
  - inversion H; subst. by rewrite Ha.
  - destruct (close_reader_attr (sub_reader a0) w) as [w1 [[]|e]]; [|done].
    unfold set_obj in H. inversion H; subst. rewrite obj_insert.
    by rewrite decide_True.
Qed.

Lemma ext_audio_detached (w w' : world) (c : nat) :
  ext w w' → (∀ a, audio (obj w c) ≠ Value a) → ∀ a, audio (obj w' c) ≠ Value a.
Proof.
  intros (_ & _ & Ho) Hno a.
  destruct (Ho c) as (_ & [Ha|[Ha _]] & _); rewrite Ha; [apply Hno | done].
Qed.

Lemma ext_mask_detached (w w' : world) (c : nat) :
  ext w w' → (∀ a, mask (obj w c) ≠ Value a) → ∀ a, mask (obj w' c) ≠ Value a.
Proof.
  intros (_ & _ & Ho) Hno a.
  destruct (Ho c) as (_ & _ & [Ha|[Ha _]] & _); rewrite Ha; [apply Hno | done].
Qed.

(** A body that ran to its end leaves the clip without audio, without mask
    and without children. *)
Lemma close_clip_body_detaches (call : option nat → M unit) (c : nat) (w wb : world) :
  (∀ child, forward (call child)) →
  close_clip_body call c w = (wb, Returned ()) →
  (∀ a, audio (obj wb c) ≠ Value a) ∧ (∀ a, mask (obj wb c) ≠ Value a) ∧
  (clips (obj wb c) = Absent ∨ clips (obj wb c) = Value []).
Proof.
  intros Hcall Hrun. unfold close_clip_body in Hrun.
  unfold m_bind at 1 in Hrun.
  destruct (close_main c w) as [w1 [[]|e]] eqn:H1; [|done].
  unfold m_bind at 1 in Hrun.
  destruct (close_audio c w1) as [w2 [[]|e]] eqn:H2; [|done].
  unfold m_bind at 1 in Hrun.
  destruct (close_mask c w2) as [w3 [[]|e]] eqn:H3; [|done].
  unfold m_bind at 1 in Hrun.
  destruct (close_child_clips call c w3) as [w4 [[]|e]] eqn:H4; [|done].
  pose proof (close_audio_detaches c _ _ H2) as Ha2.
  pose proof (close_mask_detaches c _ _ H3) as Hm3.
  pose proof (forward_close_mask c _ _ _ H3) as E3.
  pose proof (forward_close_child_clips call c Hcall _ _ _ H4) as E4.
  pose proof (forward_clear_clips c _ _ _ Hrun) as E5.
  split; [|split].
  - eapply ext_audio_detached; [exact E5|]. eapply ext_audio_detached; [exact E4|].
    eapply ext_audio_detached; [exact E3 | exact Ha2].
  - eapply ext_mask_detached; [exact E5|]. eapply ext_mask_detached; [exact E4 | exact Hm3].
  - destruct (clear_clips_spec c w4) as (w5 & Hclear & _ & Hl5).
    rewrite Hclear in Hrun. inversion Hrun; subst w5.
    destruct (clips (obj w4 c)) as [| |l] eqn:Hl.
    + left. unfold clear_clips, m_bind, get_obj in Hclear. rewrite Hl in Hclear.
      inversion Hclear; subst. exact Hl.
    + right. by apply Hl5.
    + right. by apply Hl5.
Qed.

(** With readers that close and one nested call allowed, the body runs to
    its end. *)
Lemma close_clip_body_returns (d c : nat) (w : world) :
  (∀ x, x ∈ own_readers (obj w c) → x ∉ faulty w) →
  ∃ wb, close_clip_body (λ child_clip, close_clip d child_clip) c w = (wb, Returned ()).
Proof.
  intros Hok.
  destruct (close_clip_body_steps (λ child_clip, close_clip d child_clip) c w Hok)
    as (w3 & Hsteps & He3 & _ & _).
  rewrite Hsteps. unfold m_bind at 1.
  assert (∃ w4, close_child_clips (λ child_clip, close_clip d child_clip) c w3
                = (w4, Returned ())) as (w4 & Hloop).
  { unfold close_child_clips, m_bind, get_obj.
    destruct (clips (obj w3 c)) as [| |[|child rest]]; try by eexists.
    destruct (close_children (close_clip d) c (child :: rest) w3) as [w4 r4] eqn:Hch.
    destruct (close_children_released d c (child :: rest) w3 w3 w4 r4 (ext_refl _) Hch)
      as (-> & _). by exists w4. }
  rewrite Hloop. destruct (clear_clips_spec c w4) as (w5 & Hclear & _). by exists w5.
Qed.

(** On a clip with closed readers, no audio, no mask and no children, the
    body changes nothing. *)
Lemma close_clip_body_released (call : option nat → M unit) (c : nat) (w : world) :
  (∀ x, x ∈ attr_readers (reader (obj w c)) → x ∈ closed w ∧ x ∉ faulty w) →
  (∀ a, audio (obj w c) ≠ Value a) →
  (∀ a, mask (obj w c) ≠ Value a) →
  clips (obj w c) = Absent ∨ clips (obj w c) = Value [] →
  close_clip_body call c w = (w, Returned ()).
Proof.
  intros Hr Ha Hm Hl.
  assert (close_main c w = (w, Returned ())) as H1.
  { unfold close_main, m_bind, get_obj.
    destruct (reader (obj w c)) as [| |r] eqn:Hrd; try done.
    destruct (Hr r ltac:(by apply list_elem_of_singleton)) as [Hcl Hnf].
    simpl. unfold reader_close. rewrite decide_False by done.
    rewrite (subseteq_union_1_L {[r]} (closed w)); [by rewrite world_eta|].
    by apply singleton_subseteq_l. }
  assert (close_audio c w = (w, Returned ())) as H2.
  { unfold close_audio, m_bind, get_obj.
    destruct (audio (obj w c)) as [| |a] eqn:Haa; try done. by destruct (Ha a). }
  assert (close_mask c w = (w, Returned ())) as H3.
  { unfold close_mask, m_bind, get_obj.
    destruct (mask (obj w c)) as [| |a] eqn:Hma; try done. by destruct (Hm a). }
  assert (close_child_clips call c w = (w, Returned ())) as H4.
  { unfold close_child_clips, m_bind, get_obj. by destruct Hl as [->| ->]. }
  assert (clear_clips c w = (w, Returned ())) as H5.
  { unfold clear_clips, m_bind, get_obj. destruct Hl as [Hl|Hl]; rewrite Hl; [done|].
    unfold set_obj. rewrite insert_id; [by rewrite world_eta|].
    unfold obj in *. destruct (objects w !! c) as [o|] eqn:Ho; simpl in *; [|done].
    destruct o; simpl in *. by subst. }
  unfold close_clip_body.
  unfold m_bind at 1. rewrite H1. unfold m_bind at 1. rewrite H2.
  unfold m_bind at 1. rewrite H3. unfold m_bind at 1. rewrite H4. exact H5.
Qed.

(** Releasing is idempotent: after a call on a clip whose readers close (one
    nested call being allowed), a second call on the same clip, at any
    depth, returns at once and changes nothing, the log included. *)
Theorem close_clip_idempotent (d d' c : nat) (w : world) :
  (∀ x, x ∈ own_readers (obj w c) → x ∉ faulty w) →
  ∃ w',
    close_clip (S d) (Some c) w = (w', Returned ()) ∧
    close_clip d' (Some c) w' = (w', Returned ()).
Proof.
  intros Hok.
  destruct (close_clip_body_returns d c w Hok) as (wb & Hbody).
  assert (close_clip (S d) (Some c) w = (wb, Returned ())) as Hfirst.
  { simpl. unfold try_except. by rewrite Hbody. }
  exists wb. split; [exact Hfirst|].
  assert (∀ child, forward ((λ child_clip, close_clip d child_clip) child)) as Hcall
    by (intros child; apply forward_close_clip).
  destruct (close_clip_body_detaches _ c w wb Hcall Hbody) as (Ha & Hm & Hl).
  pose proof (forward_close_clip_body _ c Hcall _ _ _ Hbody) as (Hf & _ & Ho).
  destruct (Ho c) as (Hrd & _).
  pose proof (close_clip_call_releases (S d) c w w wb _ (ext_refl w) Hok Hfirst) as Hrel.
  assert (∀ call, close_clip_body call c wb = (wb, Returned ())) as Hagain.
  { intros call. apply close_clip_body_released; try done.
    intros x Hx. rewrite Hrd in Hx.
    assert (x ∈ own_readers (obj w c)) as Hown by (apply elem_of_app; by left).
    split; [by apply Hrel | rewrite Hf; by apply Hok]. }
  destruct d'; simpl; unfold try_except; by rewrite Hagain.
Qed.

Lemma close_clip_idempotent_witness :
  ∃ w',
    close_clip 3 (Some 0%nat) example_world = (w', Returned ()) ∧
    close_clip 1 (Some 0%nat) w' = (w', Returned ()).
Proof.
  apply (close_clip_idempotent 2 1 0 example_world).
  intros x _. simpl. apply not_elem_of_empty.
Defined.

(** ** More on subtitle wrapping *)

Lemma str_app_nil_r (s : string) : s +:+ "" = s.
Proof.
  induction s as [|c s IH]; [done|].
  change (String c (s +:+ "") = String c s). by rewrite IH.
Qed.

Lemma str_app_assoc (s t u : string) : (s +:+ t) +:+ u = s +:+ t +:+ u.
Proof.
  induction s as [|c s IH]; [done|].
  change (String c ((s +:+ t) +:+ u) = String c (s +:+ t +:+ u)). by rewrite IH.
Qed.

Lemma glue_app (l1 l2 : list string) : glue (l1 ++ l2) = glue l1 +:+ glue l2.
Proof.
  induction l1 as [|x l1 IH]; [done|]. simpl. unfold glue in *. simpl.
  by rewrite IH, str_app_assoc.
Qed.

Lemma glue_chars_of (s : string) : glue (chars_of s) = s.
Proof. induction s as [|c s IH]; [done|]. cbn. fold (glue (chars_of s)). by rewrite IH. Qed.

Lemma char_pass_glue (getbbox : string → Z * Z * Z * Z) (max_width : Q) (chars : list string) :
  ∀ txt lines,
    glue (snd (char_pass getbbox max_width chars txt lines))
      +:+ fst (char_pass getbbox max_width chars txt lines)
    = glue lines +:+ txt +:+ glue chars.
Proof.
  induction chars as [|word chars IH]; intros txt lines; simpl.
  - by rewrite str_app_nil_r.
  - destruct (fits getbbox (txt +:+ word) max_width).
    + rewrite IH. by rewrite str_app_assoc.
    + rewrite IH. rewrite glue_app. cbn. rewrite !str_app_nil_r.
      by rewrite !str_app_assoc.
Qed.

(** The character-level pass loses nothing and adds nothing: its lines, put
    end to end, are the text. *)
Theorem char_lines_partition (getbbox : string → Z * Z * Z * Z) (text : string)
    (max_width : Q) :
  glue (char_lines getbbox text max_width) = text.
Proof.
  unfold char_lines.
  pose proof (char_pass_glue getbbox max_width (chars_of text) "" []) as H.
  destruct (char_pass getbbox max_width (chars_of text) "" []) as [txt lines].
  simpl in H. rewrite glue_app. cbn. rewrite str_app_nil_r, H.
  cbn. apply glue_chars_of.
Qed.

Lemma chars_of_single (s : string) : Forall (λ ch, String.length ch = 1%nat) (chars_of s).
Proof. induction s; simpl; by constructor. Qed.

(** Every line the character-level pass closes, that is every line but the
    last, is over the budget by exactly its last character: it is a string
    that is empty or within the budget, followed by one more character, and
    is itself wider than the budget. *)
Theorem char_lines_closed_shape (getbbox : string → Z * Z * Z * Z) (text : string)
    (max_width : Q) (i : nat) (line : string) :
  char_lines getbbox text max_width !! i = Some line →
  (S i < length (char_lines getbbox text max_width))%nat →
  ∃ s ch,
    line = s +:+ ch ∧ String.length ch = 1%nat ∧
    (s = "" ∨ (inject_Z (text_width getbbox s) <= max_width)%Q) ∧
    (max_width < inject_Z (text_width getbbox line))%Q.
Proof.
  unfold char_lines.
  assert (∀ chars txt lines,
            Forall (λ ch, String.length ch = 1%nat) chars →
            txt = "" ∨ fits getbbox txt max_width = true →
            Forall (λ line, ∃ s ch, line = s +:+ ch ∧ String.length ch = 1%nat ∧
                       (s = "" ∨ fits getbbox s max_width = true) ∧
                       fits getbbox line max_width = false) lines →
            Forall (λ line, ∃ s ch, line = s +:+ ch ∧ String.length ch = 1%nat ∧
                       (s = "" ∨ fits getbbox s max_width = true) ∧
                       fits getbbox line max_width = false)
                   (snd (char_pass getbbox max_width chars txt lines))) as Hgen.
  { induction chars as [|word chars IH]; intros txt lines Hch Htxt Hlines; simpl; [done|].
    inversion Hch as [|? ? Hword Hrest]; subst.
    destruct (fits getbbox (txt +:+ word) max_width) eqn:Hfit.
    - apply IH; [done | by right | done].
    - apply IH; [done | by left |].
      apply Forall_app. split; [done|]. constructor; [|done].
      by exists txt, word. }
  specialize (Hgen (chars_of text) "" [] (chars_of_single text) (or_introl eq_refl)
                (Forall_nil_2 _)).
  destruct (char_pass getbbox max_width (chars_of text) "" []) as [txt lines].
  simpl in Hgen. intros Hi Hlt. rewrite length_app in Hlt. simpl in Hlt.
  rewrite lookup_app_l in Hi by lia.
  destruct (Forall_lookup_1 _ _ _ _ Hgen Hi) as (s & ch & -> & Hlen & Hs & Hover).
  exists s, ch. split; [done|]. split; [done|]. split.
  - destruct Hs as [->|Hs]; [by left | right; by apply fits_iff].
  - by apply fits_false.
Qed.

Lemma char_lines_closed_shape_witness :
  ∃ s ch,
    "abc" = s +:+ ch ∧ String.length ch = 1%nat ∧
    (s = "" ∨ (inject_Z (text_width fixed_pitch_bbox s) <= 25)%Q) ∧
    (25 < inject_Z (text_width fixed_pitch_bbox "abc"))%Q.
Proof.
  apply (char_lines_closed_shape fixed_pitch_bbox "abcdef" 25 0 "abc").
  - reflexivity.
  - vm_compute. lia.
Defined.

(** *** Facts about [strip] *)

Lemma lstrip_head (s : string) :
  lstrip s = "" ∨ ∃ c t, lstrip s = String c t ∧ is_space c = false.
Proof.
  induction s as [|c s IH]; [by left|]. simpl.
  destruct (is_space c) eqn:Hc; [exact IH|]. right. by exists c, s.
Qed.

Lemma rstrip_cons_nonspace (c : Ascii.ascii) (s : string) :
  is_space c = false → rstrip (String c s) = String c (rstrip s).
Proof. intros Hc. simpl. rewrite Hc. by destruct (rstrip s). Qed.

Lemma lstrip_cons_nonspace (c : Ascii.ascii) (s : string) :
  is_space c = false → lstrip (String c s) = String c s.
Proof. intros Hc. simpl. by rewrite Hc. Qed.

Lemma rstrip_cons (c : Ascii.ascii) (s : string) :
  rstrip (String c s)
  = match rstrip s with
    | EmptyString => if is_space c then EmptyString else String c EmptyString
    | String d r => String c (String d r)
    end.
Proof. reflexivity. Qed.

Lemma rstrip_idemp (s : string) : rstrip (rstrip s) = rstrip s.
Proof.
  induction s as [|c s IH]; [done|]. rewrite (rstrip_cons c s).
  destruct (rstrip s) as [|d r] eqn:Hr.
  - destruct (is_space c) eqn:Hc; [done|]. rewrite rstrip_cons. simpl. by rewrite Hc.
  - rewrite rstrip_cons, IH. reflexivity.
Qed.

Lemma strip_idemp (s : string) : strip (strip s) = strip s.
Proof.
  unfold strip. destruct (lstrip_head s) as [->|(c & t & -> & Hc)]; [done|].
  rewrite rstrip_cons_nonspace by done. rewrite lstrip_cons_nonspace by done.
  rewrite <- rstrip_cons_nonspace by done. apply rstrip_idemp.
Qed.

Lemma rstrip_app_space (s : string) : rstrip (s +:+ " ") = rstrip s.
Proof.
  induction s as [|c s IH]; [done|].
  change (rstrip (String c (s +:+ " ")) = rstrip (String c s)).
  by rewrite !rstrip_cons, IH.
Qed.

Lemma strip_app_space (s : string) : strip (s +:+ " ") = strip s.
Proof.
  unfold strip. induction s as [|c s IH]; [done|].
  change (rstrip (lstrip (String c (s +:+ " "))) = rstrip (lstrip (String c s))).
  cbn [lstrip]. destruct (is_space c); [exact IH|].
  change (String c (s +:+ " ")) with (String c s +:+ " "). apply rstrip_app_space.
Qed.

Lemma lstrip_blank_app (b x : string) : lstrip b = "" → lstrip (b +:+ x) = lstrip x.
Proof.
  induction b as [|c b IH]; [done|]. intros Hb.
  change (lstrip (String c (b +:+ x)) = lstrip x). simpl in *.
  destruct (is_space c); [by apply IH | done].
Qed.

Lemma strip_blank (s : string) : lstrip s = "" → strip s = "".
Proof. intros H. unfold strip. by rewrite H. Qed.

Section WrapTextFacts.
Variable getbbox : string → Z * Z * Z * Z.
Variable max_width : Q.

Lemma fits_strip_eq (s t : string) :
  strip s = strip t → fits getbbox s max_width = fits getbbox t max_width.
Proof. intros H. unfold fits, text_width, get_text_size. by rewrite H. Qed.

Lemma fits_strip (s : string) : fits getbbox (strip s) max_width = fits getbbox s max_width.
Proof. apply fits_strip_eq, strip_idemp. Qed.

(** The word-level loop when every word fits on its own: it is never
    abandoned, and every line it closes, and the line it is left with, is
    blank or within the budget. *)
Lemma word_pass_fit (words : list string) :
  Forall (λ w, fits getbbox w max_width = true) words →
  ∀ txt lines,
    lstrip txt = "" ∨ fits getbbox txt max_width = true →
    Forall (λ l, fits getbbox l max_width = true) lines →
    ∃ txt' lines',
      word_pass getbbox max_width words txt lines = (true, txt', lines') ∧
      (lstrip txt' = "" ∨ fits getbbox txt' max_width = true) ∧
      Forall (λ l, fits getbbox l max_width = true) lines'.
Proof.
  induction 1 as [|word words Hword Hwords IH]; intros txt lines Htxt Hlines; simpl.
  - by exists txt, lines.
  - assert (fits getbbox (word +:+ " ") max_width = true) as Hws.
    { rewrite (fits_strip_eq _ _ (strip_app_space word)). exact Hword. }
    destruct (fits getbbox (txt +:+ word +:+ " ") max_width) eqn:Hfit.
    + apply IH; [by right | done].
    + assert (fits getbbox txt max_width = true) as Hbefore.
      { destruct Htxt as [Hblank|Hfits]; [|done]. exfalso.
        assert (strip (txt +:+ word +:+ " ") = strip (word +:+ " ")) as Heq.
        { unfold strip. by rewrite lstrip_blank_app. }
        rewrite (fits_strip_eq _ _ Heq) in Hfit. congruence. }
      destruct (String.eqb (strip (txt +:+ word +:+ " ")) (strip word)) eqn:Heqb.
      * exfalso. apply String.eqb_eq in Heqb.
        rewrite (fits_strip_eq _ _ Heqb) in Hfit. congruence.
      * apply IH; [by right|]. apply Forall_app. split; [done | by constructor].
Qed.

(** Word-level wrapping does what it is for when no single word is too
    wide: a text that is over the budget, each of whose words is within it,
    is wrapped by the word-level pass alone, and every line that is joined
    into the result is empty or within the budget. *)
Theorem wrap_text_words_fit (text : string) :
  fits getbbox text max_width = false →
  Forall (λ w, fits getbbox w max_width = true) (split_space text) →
  wrap_text getbbox text max_width
    = (strip (join_lines (word_lines getbbox text max_width)),
       (Z.of_nat (length (word_lines getbbox text max_width))
        * snd (get_text_size getbbox text))%Z) ∧
  Forall (λ l, l = "" ∨ fits getbbox l max_width = true)
         (word_lines getbbox text max_width).
Proof.
  intros Hover Hwords.
  destruct (word_pass_fit (split_space text) Hwords "" [] (or_introl eq_refl) (Forall_nil_2 _))
    as (txt & lines & Hrun & Htxt & Hlines).
  unfold wrap_text, word_lines. rewrite Hrun.
  unfold fits, text_width in Hover.
  destruct (get_text_size getbbox text) as [width height] eqn:Hsz. simpl in Hover.
  rewrite Hover. simpl. split; [done|].
  rewrite fmap_app. apply Forall_app. split.
  - apply Forall_fmap. eapply Forall_impl; [exact Hlines|].
    intros l Hl. simpl. right. by rewrite fits_strip.
  - constructor; [|constructor]. destruct Htxt as [Hblank|Hfit].
    + left. by apply strip_blank.
    + right. by rewrite fits_strip.
Qed.
End WrapTextFacts.

Lemma wrap_text_words_fit_witness :
  wrap_text fixed_pitch_bbox "ab cd ef" 50
    = (strip (join_lines (word_lines fixed_pitch_bbox "ab cd ef" 50)),
       (Z.of_nat (length (word_lines fixed_pitch_bbox "ab cd ef" 50))
        * snd (get_text_size fixed_pitch_bbox "ab cd ef"))%Z) ∧
  Forall (λ l, l = "" ∨ fits fixed_pitch_bbox l 50 = true)
         (word_lines fixed_pitch_bbox "ab cd ef" 50).
Proof.
  apply (wrap_text_words_fit fixed_pitch_bbox 50 "ab cd ef").
  - reflexivity.
  - vm_compute. repeat constructor.
Defined.

(** ** Script splitting *)

Lemma groups_greedy_single (m : Z) (g : list (list N)) : groups_greedy m [g].
Proof. intros i g' s rest _ H. destruct i; discriminate H. Qed.

Lemma groups_greedy_nil (m : Z) : groups_greedy m [].
Proof. intros i g' s rest H. discriminate H. Qed.

Lemma groups_greedy_grow (m : Z) (gs : list (list (list N))) (cg : list (list N))
    (s : list N) :
  groups_greedy m (gs ++ [cg]) → cg ≠ [] → groups_greedy m (gs ++ [cg ++ [s]]).
Proof.
  intros Hg Hne i g s' rest Hi HSi.
  assert (S i < length (gs ++ [cg ++ [s]]))%nat as Hlt by (by eapply lookup_lt_Some).
  rewrite length_app in Hlt. simpl in Hlt.
  rewrite lookup_app_l in Hi by lia.
  destruct (decide (S i < length gs)%nat) as [Hin|Hlast].
  - rewrite lookup_app_l in HSi by lia.
    apply (Hg i g s' rest); by rewrite lookup_app_l by lia.
  - assert (S i = length gs) as Heq by lia.
    rewrite Heq, list_lookup_middle in HSi by done.
    destruct cg as [|s0 cg0]; [done|]. simpl in HSi. inversion HSi; subst s' rest.
    apply (Hg i g s0 cg0); [by rewrite lookup_app_l by lia|].
    rewrite Heq. by apply list_lookup_middle.
Qed.

Lemma groups_greedy_new (m : Z) (gs : list (list (list N))) (cg : list (list N))
    (s : list N) :
  groups_greedy m (gs ++ [cg]) →
  (m < Z.of_nat (length (concat cg)) + Z.of_nat (length s))%Z →
  groups_greedy m ((gs ++ [cg]) ++ [[s]]).
Proof.
  intros Hg Hnew i g s' rest Hi HSi.
  assert (S i < length ((gs ++ [cg]) ++ [[s]]))%nat as Hlt by (by eapply lookup_lt_Some).
  rewrite !length_app in Hlt. simpl in Hlt.
  assert (length (gs ++ [cg]) = length gs + 1)%nat as Hlen by (rewrite length_app; simpl; lia).
  rewrite lookup_app_l in Hi by lia.
  destruct (decide (S i < length gs + 1)%nat) as [Hin|Hlast].
  - rewrite lookup_app_l in HSi by lia. by apply (Hg i g s' rest).
  - assert (S i = length (gs ++ [cg])) as Heq by lia.
    rewrite Heq, list_lookup_middle in HSi by done. inversion HSi; subst s' rest.
    assert (i = length gs) as -> by lia.
    rewrite list_lookup_middle in Hi by done. inversion Hi; subst g. exact Hnew.
Qed.

Lemma concat_nonempty (g : list (list N)) :
  g ≠ [] → Forall (λ s, s ≠ []) g → concat g ≠ [].
Proof.
  intros Hne Hall. destruct g as [|s g]; [done|]. inversion Hall; subst.
  simpl. by destruct s.
Qed.

Section SplitScriptFacts.
Variable isspace : N → bool.
Variable max_chars : Z.

Lemma split_script_loop_pack (sentences : list (list N)) :
  ∀ segments current,
    split_script_loop isspace max_chars sentences segments current
    = pack max_chars
        ((λ s, ustrip isspace s ++ [full_stop]) <$>
           filter (λ s, ustrip isspace s ≠ []) sentences)
        segments current.
Proof.
  induction sentences as [|sentence rest IH]; intros segments current; [done|].
  cbn [split_script_loop]. rewrite filter_cons.
  destruct (ustrip isspace sentence) as [|c t] eqn:Hs.
  - rewrite decide_False by (intros H; by apply H). apply IH.
  - rewrite decide_True by done. cbn [fmap list_fmap pack]. rewrite Hs.
    destruct (_ <=? _)%Z; apply IH.
Qed.

Lemma pack_groups (sentences : list (list N)) :
  Forall (λ s, s ≠ []) sentences →
  ∀ groups segments current,
    groups_represent groups segments current → groups_good max_chars groups →
    ∃ groups',
      groups_represent groups' (pack max_chars sentences segments current).1
                       (pack max_chars sentences segments current).2 ∧
      concat groups' = concat groups ++ sentences ∧
      groups_good max_chars groups'.
Proof.
  induction 1 as [|s rest Hs Hrest IH]; intros groups segments current Hrep Hgood.
  - exists groups. simpl. by rewrite app_nil_r.
  - cbn [pack].
    assert (∀ groups1 segments1 current1,
              groups_represent groups1 segments1 current1 → groups_good max_chars groups1 →
              concat groups1 = concat groups ++ [s] →
              ∃ groups',
                groups_represent groups' (pack max_chars rest segments1 current1).1
                                 (pack max_chars rest segments1 current1).2 ∧
                concat groups' = concat groups ++ s :: rest ∧
                groups_good max_chars groups') as Hnext.
    { intros groups1 segments1 current1 Hrep1 Hgood1 Hcat.
      destruct (IH groups1 segments1 current1 Hrep1 Hgood1) as (groups' & Hr & Hc & Hg).
      exists groups'. split; [done|]. split; [|done].
      rewrite Hc, Hcat. by rewrite <- app_assoc. }
    destruct Hgood as [Hall Hgreedy].
    destruct Hrep as [(-> & -> & ->)|(gs & cg & -> & -> & ->)].
    + (* nothing built yet: the sentence opens the first group either way *)
      assert (groups_represent [[s]] [] s) as Hrep1.
      { right. exists [], [s]. split; [done|]. split; [done|]. simpl. by rewrite app_nil_r. }
      assert (groups_good max_chars [[s]]) as Hgood1.
      { split; [|apply groups_greedy_single]. constructor; [|constructor].
        split; [done|]. split; [by constructor|]. right. by exists s. }
      destruct (_ <=? _)%Z; simpl; by apply (Hnext [[s]]).
    + apply Forall_app in Hall as [Hgs Hcg]. inversion Hcg as [|? ? (Hne & Hss & Hsz) _]; subst.
      pose proof (concat_nonempty cg Hne Hss) as Hcur.
      destruct (Z.of_nat (length (concat cg)) + Z.of_nat (length s) <=? max_chars)%Z eqn:Hfit.
      * apply Z.leb_le in Hfit.
        apply (Hnext (gs ++ [cg ++ [s]])).
        -- right. exists gs, (cg ++ [s]). split; [done|]. split; [done|].
           rewrite concat_app. simpl. by rewrite app_nil_r.
        -- split; [|by apply groups_greedy_grow].
           apply Forall_app. split; [done|]. constructor; [|constructor].
           split; [by destruct cg|]. split; [apply Forall_app; split; [done | by constructor]|].
           left. rewrite concat_app, length_app. simpl. rewrite app_nil_r. lia.
        -- rewrite !concat_app. simpl. rewrite !app_nil_r. by rewrite <- app_assoc.
      * apply Z.leb_gt in Hfit.
        assert (match concat cg with
                | [] => @concat N <$> gs
                | _ :: _ => (@concat N <$> gs) ++ [concat cg]
                end = @concat N <$> (gs ++ [cg])) as ->.
        { rewrite fmap_app. simpl. by destruct (concat cg). }
        apply (Hnext ((gs ++ [cg]) ++ [[s]])).
        -- right. exists (gs ++ [cg]), [s]. split; [done|]. split; [done|].
           simpl. by rewrite app_nil_r.
        -- split; [|by apply groups_greedy_new].
           apply Forall_app. split; [apply Forall_app; split; [done | by constructor]|].
           constructor; [|constructor].
           split; [done|]. split; [by constructor|]. right. by exists s.
        -- rewrite (concat_app (gs ++ [cg])). simpl. by rewrite ?app_nil_r.
Qed.

Lemma normalized_sentences_nonempty (script : list N) :
  Forall (λ s, s ≠ []) (normalized_sentences isspace script).
Proof.
  unfold normalized_sentences. apply Forall_fmap, Forall_true. intros s. simpl.
  by destruct (ustrip isspace s).
Qed.

(** The shape of the result: the segments are groups of consecutive whole
    sentences. *)
Lemma split_script_structure (script : list N) :
  ∃ groups,
    split_script isspace script max_chars = @concat N <$> groups ∧
    concat groups = normalized_sentences isspace script ∧
    groups_good max_chars groups.
Proof.
  unfold split_script. rewrite split_script_loop_pack.
  fold (normalized_sentences isspace script).
  destruct (pack_groups (normalized_sentences isspace script)
              (normalized_sentences_nonempty script) [] [] [])
    as (groups & Hrep & Hcat & Hgood).
  { by left. }
  { split; [constructor | apply groups_greedy_nil]. }
  destruct (pack max_chars (normalized_sentences isspace script) [] []) as [segments current].
  simpl in Hrep. exists groups. split; [|split; [done | done]].
  destruct Hrep as [(-> & -> & ->)|(gs & cg & -> & -> & ->)]; [done|].
  destruct Hgood as [Hall _]. apply Forall_app in Hall as [_ Hcg].
  inversion Hcg as [|? ? (Hne & Hss & _) _]; subst.
  pose proof (concat_nonempty cg Hne Hss) as Hcur.
  rewrite fmap_app. simpl. by destruct (concat cg).
Qed.
End SplitScriptFacts.

(** split_script never cuts a sentence and never loses one: its segments
    are groups of consecutive whole sentences, in order, none of them empty,
    and the groups together are exactly the non-blank sentences of the
    script, each stripped and closed by a full stop. *)
Theorem split_script_groups (isspace : N → bool) (script : list N) (max_chars : Z) :
  ∃ groups : list (list (list N)),
    split_script isspace script max_chars = @concat N <$> groups ∧
    concat groups = normalized_sentences isspace script ∧
    Forall (λ g, g ≠ []) groups.
Proof.
  destruct (split_script_structure isspace max_chars script) as (groups & Hout & Hcat & Hall & _).
  exists groups. split; [done|]. split; [done|].
  eapply Forall_impl; [exact Hall|]. by intros g (Hne & _).
Qed.

(** Every segment is at most [max_chars] long, unless it is one single
    sentence that is longer than that by itself. *)
Theorem split_script_sized (isspace : N → bool) (script : list N) (max_chars : Z) :
  Forall (λ segment,
            (Z.of_nat (length segment) <= max_chars)%Z ∨
            segment ∈ normalized_sentences isspace script)
         (split_script isspace script max_chars).
Proof.
  destruct (split_script_structure isspace max_chars script) as (groups & -> & Hcat & Hall & _).
  apply Forall_fmap. apply Forall_forall. intros g Hg.
  destruct (proj1 (Forall_forall _ _) Hall g Hg) as (_ & _ & [Hle|[s ->]]); [by left|].
  right. simpl. rewrite app_nil_r. rewrite <- Hcat.
  apply list_elem_of_In, in_concat. exists [s].
  split; [by apply list_elem_of_In | by left].
Qed.

(** The packing is greedy: a segment is closed only when the sentence that
    opens the next segment would have taken it over [max_chars]. *)
Theorem split_script_greedy (isspace : N → bool) (script : list N) (max_chars : Z)
    (i : nat) (segment next : list N) :
  split_script isspace script max_chars !! i = Some segment →
  split_script isspace script max_chars !! S i = Some next →
  ∃ sentence,
    sentence ∈ normalized_sentences isspace script ∧
    sentence `prefix_of` next ∧
    (max_chars < Z.of_nat (length segment) + Z.of_nat (length sentence))%Z.
Proof.
  destruct (split_script_structure isspace max_chars script)
    as (groups & -> & Hcat & Hall & Hgreedy).
  rewrite !list_lookup_fmap. intros Hi HSi.
  destruct (groups !! i) as [g|] eqn:Hg; [|discriminate].
  destruct (groups !! S i) as [g'|] eqn:Hg'; [|discriminate].
  simpl in Hi, HSi. inversion Hi; inversion HSi; subst; clear Hi HSi.
  assert (g' ∈ groups) as Hin by (by eapply list_elem_of_lookup_2).
  destruct (proj1 (Forall_forall _ _) Hall g' Hin) as (Hne & _).
  destruct g' as [|s rest]; [done|]. exists s. split; [|split].
  - rewrite <- Hcat. apply list_elem_of_In, in_concat. exists (s :: rest).
    split; [by apply list_elem_of_In | by left].
  - simpl. by apply prefix_app_r.
  - by apply (Hgreedy i g s rest).
Qed.

Lemma split_script_greedy_witness :
  ∃ sentence,
    sentence ∈ normalized_sentences py_isspace [97; 12290; 98; 99; 12290; 100]%N ∧
    sentence `prefix_of` [100; 12290]%N ∧
    (5 < Z.of_nat (length [97; 12290; 98; 99; 12290]%N) + Z.of_nat (length sentence))%Z.
Proof.
  apply (split_script_greedy py_isspace [97; 12290; 98; 99; 12290; 100]%N 5 0
           [97; 12290; 98; 99; 12290]%N [100; 12290]%N); reflexivity.
Defined.

Lemma last_concat_snoc (g : list (list N)) (s : list N) (c : N) :
  last (concat (g ++ [s ++ [c]])) = Some c.
Proof. rewrite concat_app. simpl. rewrite app_nil_r, app_assoc. apply last_snoc. Qed.

(** Every segment ends in a full stop; in particular none is empty. *)
Theorem split_script_full_stops (isspace : N → bool) (script : list N) (max_chars : Z) :
  Forall (λ segment, last segment = Some full_stop)
         (split_script isspace script max_chars).
Proof.
  destruct (split_script_structure isspace max_chars script) as (groups & -> & Hcat & Hall & _).
  apply Forall_fmap. apply Forall_forall. intros g Hg.
  destruct (proj1 (Forall_forall _ _) Hall g Hg) as (Hne & _).
  assert (∀ s, s ∈ g → ∃ t, s = t ++ [full_stop]) as Hsent.
  { intros s Hs.
    assert (s ∈ normalized_sentences isspace script) as Hin.
    { rewrite <- Hcat. apply list_elem_of_In, in_concat. exists g.
      split; by apply list_elem_of_In. }
    unfold normalized_sentences in Hin. apply list_elem_of_fmap in Hin as (t & -> & _).
    by eexists. }
  destruct (decide (g = [])) as [->|_]; [done|].
  destruct (exists_last Hne) as (g0 & s & ->).
  destruct (Hsent s) as (t & ->).
  { apply elem_of_app. right. by apply list_elem_of_singleton. }
  simpl. apply last_concat_snoc.
Qed.

Example split_script_example :
  split_script py_isspace [97; 12290; 32; 98; 99; 12290; 32; 12290; 100]%N 5
  = [[97; 12290; 98; 99; 12290]; [100; 12290]]%N.
Proof. reflexivity. Qed.

Lemma shuffle_paths_distinct_witness :
  ∃ out,
    order_clips random 3 (λ _, 0%nat) ["a"; "b"; "c"] = Some out ∧
    out ≡ₚ ["a"; "b"; "c"] ∧
    ∀ j x y, out !! j = Some x → out !! S j = Some y → x ≠ y.
Proof.
  apply (shuffle_paths_distinct (λ _, 0%nat) ["a"; "b"; "c"] 3).
  - simpl. lia.
  - simpl. lia.
  - apply NoDup_cons. split.
    { intros H. apply elem_of_cons in H as [H|H]; [discriminate|].
      apply list_elem_of_singleton in H. discriminate. }
    apply NoDup_cons. split; [|apply NoDup_singleton].
    rewrite list_elem_of_singleton. discriminate.
Defined.
